(** * Waitlist plugin: state machine and admission control

    A shallow embedding of the waitlist plugin for Better Auth
    (src/types.ts, src/error-codes.ts, src/schema.ts, the public and admin
    routes, and the plugin's hooks in src/index.ts), followed by the
    properties of the waitlist state machine and of the admission gate.

    Conventions of the embedding:
    - a [Date] is its number of milliseconds since the epoch, in [Z];
    - [string | null] and [Date | null] fields are [option]s;
    - handlers are computations in a state-and-exception monad over a
      [World] that holds the waitlist table, the user table, the number of
      clock readings and UUIDs consumed so far, and the notifications handed
      to the optional callbacks;
    - [crypto.randomUUID()] and the wall clock are oracles of an [Env];
    - request validation (zod) has already run: handlers receive the parsed
      body, whose [email] is an ASCII address. *)

From Stdlib Require Import List String Ascii ZArith Arith Bool Lia.
From Stdlib Require Import Sorting.Sorted Sorting.Permutation.
Import ListNotations.

Local Open Scope string_scope.
Local Open Scope list_scope.
Local Open Scope nat_scope.

(** ** Data model (src/types.ts) *)

Inductive WaitlistStatus : Type :=
  | pending
  | approved
  | rejected
  | registered.

Definition WaitlistStatus_eqb (a b : WaitlistStatus) : bool :=
  match a, b with
  | pending, pending => true
  | approved, approved => true
  | rejected, rejected => true
  | registered, registered => true
  | _, _ => false
  end.

Record WaitlistEntry : Type := mkEntry {
  id : nat;                       (* opaque, assigned by the store *)
  email : string;
  status : WaitlistStatus;
  inviteCode : option string;
  inviteExpiresAt : option Z;
  position : option nat;          (* number | null *)
  referredBy : option string;
  metadata : option string;
  approvedAt : option Z;
  rejectedAt : option Z;
  registeredAt : option Z;
  createdAt : Z;
  updatedAt : Z
}.

(** [autoApprove?: boolean | ((email: string) => boolean | Promise<boolean>)] *)
Inductive AutoApprove : Type :=
  | AutoOff
  | AutoAll
  | AutoWhen (shouldApprove : string -> bool).

(** The options after the defaults of [waitlist(options)] have been merged
    in.  A callback is represented by whether it is configured; what it is
    called with is recorded in the world (see [Event]). *)
Record WaitlistOptions : Type := mkOptions {
  enabled : bool;
  requireInviteCode : bool;
  inviteCodeExpiration : option Z;
  maxWaitlistSize : option nat;
  skipAnonymous : bool;
  autoApprove : AutoApprove;
  interceptPaths : option (list string);
  adminRoles : option (list string);
  onJoinWaitlist : bool;
  onApproved : bool;
  onRejected : bool;
  sendInviteEmail : bool
}.

(** ** Error codes (src/error-codes.ts) and API errors *)

Inductive ErrorCode : Type :=
  | EMAIL_ALREADY_IN_WAITLIST
  | WAITLIST_ENTRY_NOT_FOUND
  | NOT_APPROVED
  | INVALID_INVITE_CODE
  | INVITE_CODE_REQUIRED
  | ALREADY_REGISTERED
  | WAITLIST_FULL
  | UNAUTHORIZED_ADMIN_ACTION.

Inductive HttpStatus : Type :=
  | BAD_REQUEST
  | NOT_FOUND
  | FORBIDDEN.

Record APIError : Type := mkAPIError {
  httpStatus : HttpStatus;
  message : ErrorCode
}.

(** ** Strings: [String.prototype.toLowerCase] on ASCII text *)

Definition lower_ascii (c : ascii) : ascii :=
  let n := nat_of_ascii c in
  if (65 <=? n) && (n <=? 90) then ascii_of_nat (n + 32) else c.

Fixpoint toLowerCase (s : string) : string :=
  match s with
  | EmptyString => EmptyString
  | String c s' => String (lower_ascii c) (toLowerCase s')
  end.

(** JavaScript truthiness of a [string | undefined] value. *)
Definition truthy (s : option string) : option string :=
  match s with
  | Some EmptyString => None
  | Some v => Some v
  | None => None
  end.

(** [a || b] on [string | undefined | null] values. *)
Definition js_or (a b : option string) : option string :=
  match truthy a with
  | Some v => Some v
  | None => b
  end.

(** Two letters that differ at most by case, and two strings that do so
    position by position. *)
Inductive case_variant : ascii -> ascii -> Prop :=
  | cv_same : forall c, case_variant c c
  | cv_upper_lower : forall n, 65 <= n <= 90 ->
      case_variant (ascii_of_nat n) (ascii_of_nat (n + 32))
  | cv_lower_upper : forall n, 65 <= n <= 90 ->
      case_variant (ascii_of_nat (n + 32)) (ascii_of_nat n).

Inductive differ_only_by_case : string -> string -> Prop :=
  | dc_nil : differ_only_by_case EmptyString EmptyString
  | dc_cons : forall c d s t,
      case_variant c d -> differ_only_by_case s t ->
      differ_only_by_case (String c s) (String d t).

(** ** The world: tables, oracles and notifications *)

Inductive Event : Type :=
  | JoinedWaitlist (entry : WaitlistEntry)
  | InviteEmail (to : string) (code : string) (expiresAt : Z)
  | Approved (entry : WaitlistEntry)
  | Rejected (entry : WaitlistEntry).

Record World : Type := mkWorld {
  db : list WaitlistEntry;      (* the "waitlist" model, in insertion order *)
  nextId : nat;                 (* the store's id generator *)
  users : list string;          (* emails of the existing user accounts *)
  clockReads : nat;             (* wall-clock readings made so far *)
  uuidReads : nat;              (* UUIDs drawn so far *)
  events : list Event           (* callback invocations, oldest first *)
}.

Record Env : Type := mkEnv {
  clock : nat -> Z;             (* the k-th reading of the wall clock, in ms *)
  uuid : nat -> string          (* the k-th value of crypto.randomUUID() *)
}.

Definition set_db (d : list WaitlistEntry) (w : World) : World :=
  mkWorld d (nextId w) (users w) (clockReads w) (uuidReads w) (events w).

(** ** A state-and-exception monad for the handlers *)

Inductive Result (A : Type) : Type :=
  | Ok (a : A)
  | Throw (e : APIError).

Arguments Ok {A} a.
Arguments Throw {A} e.

Definition M (A : Type) : Type := World -> Result A * World.

Definition ret {A : Type} (a : A) : M A := fun w => (Ok a, w).

Definition bind {A B : Type} (c : M A) (k : A -> M B) : M B :=
  fun w =>
    match c w with
    | (Ok a, w') => k a w'
    | (Throw e, w') => (Throw e, w')
    end.

Definition throw {A : Type} (s : HttpStatus) (m : ErrorCode) : M A :=
  fun w => (Throw (mkAPIError s m), w).

Declare Scope monad_scope.
Delimit Scope monad_scope with monad.
Notation "x <- c ;; k" := (bind c (fun x => k))
  (at level 61, c at next level, right associativity) : monad_scope.
Notation "c ;;; k" := (bind c (fun _ => k))
  (at level 61, right associativity) : monad_scope.
Local Open Scope monad_scope.

(** [when b c]: run [c] if [b] holds (an [if] without [else]). *)
Definition when (b : bool) (c : M unit) : M unit :=
  if b then c else ret tt.

(** Callback invocation: [if (options.cb) await options.cb(arg)]. *)
Definition notify (configured : bool) (ev : Event) : M unit :=
  when configured
    (fun w => (Ok tt, mkWorld (db w) (nextId w) (users w) (clockReads w)
                        (uuidReads w) (events w ++ [ev]))).

(** ** The record store adapter

    The handlers reach the store through [ctx.context.adapter], which is
    the host framework's; a filter is a conjunction of field equalities. *)

Inductive Where : Type :=
  | W_email (value : string)
  | W_inviteCode (value : string)
  | W_status (value : WaitlistStatus)
  | W_id (value : nat).

Definition option_string_eqb (a : option string) (v : string) : bool :=
  match a with
  | Some s => String.eqb s v
  | None => false
  end.

Definition holds (c : Where) (e : WaitlistEntry) : bool :=
  match c with
  | W_email v => String.eqb (email e) v
  | W_inviteCode v => option_string_eqb (inviteCode e) v
  | W_status v => WaitlistStatus_eqb (status e) v
  | W_id v => Nat.eqb (id e) v
  end.

Definition matches (where_ : list Where) (e : WaitlistEntry) : bool :=
  forallb (fun c => holds c e) where_.

(** The first record that satisfies [p] is replaced by its image under [f]. *)
Fixpoint patch_first (p : WaitlistEntry -> bool)
    (f : WaitlistEntry -> WaitlistEntry) (l : list WaitlistEntry)
    : list WaitlistEntry :=
  match l with
  | [] => []
  | e :: l' => if p e then f e :: l' else e :: patch_first p f l'
  end.

(** Ascending order on [position]; an absent position sorts first. *)
Definition position_leb (a b : WaitlistEntry) : bool :=
  match position a, position b with
  | None, _ => true
  | Some _, None => false
  | Some x, Some y => x <=? y
  end.

Fixpoint insert_sorted (leb : WaitlistEntry -> WaitlistEntry -> bool)
    (x : WaitlistEntry) (l : list WaitlistEntry) : list WaitlistEntry :=
  match l with
  | [] => [x]
  | y :: l' => if leb x y then x :: l else y :: insert_sorted leb x l'
  end.

Definition sort_by (leb : WaitlistEntry -> WaitlistEntry -> bool)
    (l : list WaitlistEntry) : list WaitlistEntry :=
  fold_right (insert_sorted leb) [] l.

(** Modelled from the spec: [findOne(filter) -> record?] of the record
    store adapter, which is not part of this repository: the first record,
    in insertion order, that satisfies the filter. *)
Definition findOne (where_ : list Where) : M (option WaitlistEntry) :=
  fun w => (Ok (find (matches where_) (db w)), w).

(** Modelled from the spec: [count(filter) -> int] of the record store
    adapter. *)
Definition count (where_ : list Where) : M nat :=
  fun w => (Ok (List.length (filter (matches where_) (db w))), w).

(** Modelled from the spec: [create(fields) -> record] of the record store
    adapter; the store assigns the id and appends the record. *)
Definition create (data : nat -> WaitlistEntry) : M WaitlistEntry :=
  fun w =>
    let e := data (nextId w) in
    (Ok e, mkWorld (db w ++ [e]) (S (nextId w)) (users w) (clockReads w)
             (uuidReads w) (events w)).

(** Modelled from the spec: [update(filter, patch) -> record] of the record
    store adapter: the record found by the filter is patched in place and
    returned; nothing happens when there is none. *)
Definition update (where_ : list Where)
    (patch : WaitlistEntry -> WaitlistEntry) : M (option WaitlistEntry) :=
  fun w =>
    (Ok (option_map patch (find (matches where_) (db w))),
     set_db (patch_first (matches where_) patch (db w)) w).

(** Modelled from the spec: [findMany(filter, sort, limit, offset)] of the
    record store adapter, for the one call that sorts on [position]
    ascending with a limit. *)
Definition findMany (where_ : list Where)
    (leb : WaitlistEntry -> WaitlistEntry -> bool) (limit : nat)
    : M (list WaitlistEntry) :=
  fun w => (Ok (firstn limit (sort_by leb (filter (matches where_) (db w)))), w).

(** Modelled from the spec: the credential lookup
    [internalAdapter.findUserByEmail] of the host framework. *)
Definition findUserByEmail (mail : string) : M bool :=
  fun w => (Ok (existsb (String.eqb mail) (users w)), w).

(** ** Requests and responses *)

Record JoinBody : Type := mkJoinBody {
  jb_email : string;
  jb_referredBy : option string;
  jb_metadata : option string     (* JSON.stringify of the metadata object *)
}.

Record JoinResponse : Type := mkJoinResponse {
  jr_id : nat;
  jr_email : string;
  jr_status : WaitlistStatus;
  jr_position : option nat;
  jr_createdAt : Z
}.

Record VerifyResponse : Type := mkVerifyResponse {
  valid : bool;
  vr_email : option string
}.

Record BulkResponse : Type := mkBulkResponse {
  bulk_approved : nat;
  bulk_entries : list WaitlistEntry
}.

(** What the pre-processing hook reads of a request: [ctx.body?.email],
    [ctx.body?.inviteCode] and the [x-invite-code] header. *)
Record Attempt : Type := mkAttempt {
  body_email : option string;
  body_inviteCode : option string;
  header_inviteCode : option string
}.

(** The candidate user record of the database hooks. *)
Record User : Type := mkUser {
  user_email : option string;
  isAnonymous : bool
}.

(** The patches passed to [adapter.update]. *)
Definition approveUpdate (code : string) (expires nowT : Z)
    (e : WaitlistEntry) : WaitlistEntry :=
  mkEntry (id e) (email e) approved (Some code) (Some expires) (position e)
    (referredBy e) (metadata e) (Some nowT) (rejectedAt e) (registeredAt e)
    (createdAt e) nowT.

Definition rejectUpdate (nowT : Z) (e : WaitlistEntry) : WaitlistEntry :=
  mkEntry (id e) (email e) rejected (inviteCode e) (inviteExpiresAt e)
    (position e) (referredBy e) (metadata e) (approvedAt e) (Some nowT)
    (registeredAt e) (createdAt e) nowT.

Definition registeredUpdate (at_ nowT : Z) (e : WaitlistEntry)
    : WaitlistEntry :=
  mkEntry (id e) (email e) registered (inviteCode e) (inviteExpiresAt e)
    (position e) (referredBy e) (metadata e) (approvedAt e) (rejectedAt e)
    (Some at_) (createdAt e) nowT.

(** [options.inviteCodeExpiration ?? 172800], in seconds. *)
Definition expSeconds (options : WaitlistOptions) : Z :=
  match inviteCodeExpiration options with
  | Some s => s
  | None => 172800%Z
  end.

Definition DEFAULT_INTERCEPT_PATHS : list string :=
  [ "/sign-up/email"; "/callback/"; "/oauth2/callback/"; "/magic-link/verify";
    "/sign-in/email-otp"; "/email-otp/verify-email"; "/phone-number/verify";
    "/sign-in/anonymous"; "/one-tap/callback"; "/siwe/verify" ].

Section Handlers.

Variable env : Env.

(** [Date.now()] and [new Date()]: the next reading of the clock. *)
Definition now : M Z :=
  fun w => (Ok (clock env (clockReads w)),
            mkWorld (db w) (nextId w) (users w) (S (clockReads w))
              (uuidReads w) (events w)).

(** [crypto.randomUUID()]. *)
Definition randomUUID : M string :=
  fun w => (Ok (uuid env (uuidReads w)),
            mkWorld (db w) (nextId w) (users w) (clockReads w)
              (S (uuidReads w)) (events w)).

(** *** Public routes (src/routes/public.ts) *)

(** The auto-approve decision of [joinWaitlist]: status, invite code,
    expiry and approval time of the entry about to be created. *)
Definition decideOnJoin (options : WaitlistOptions) (normalizedEmail : string)
    : M (WaitlistStatus * option string * option Z * option Z) :=
  let shouldApprove :=
    match autoApprove options with
    | AutoOff => false
    | AutoAll => true
    | AutoWhen f => f normalizedEmail
    end in
  if shouldApprove then
    code <- randomUUID ;;
    t <- now ;;
    approvedAt_ <- now ;;
    ret (approved, Some code, Some (t + expSeconds options * 1000)%Z,
         Some approvedAt_)
  else ret (pending, None, None, None).

Definition joinWaitlist (options : WaitlistOptions) (body : JoinBody)
    : M JoinResponse :=
  let normalizedEmail := toLowerCase (jb_email body) in
  existing <- findOne [W_email normalizedEmail] ;;
  match existing with
  | Some _ => throw BAD_REQUEST EMAIL_ALREADY_IN_WAITLIST
  | None =>
      match maxWaitlistSize options with
      | Some (S m) =>
          n <- count [] ;;
          if S m <=? n then throw BAD_REQUEST WAITLIST_FULL else ret tt
      | _ => ret tt
      end ;;;
      totalCount <- count [] ;;
      d <- decideOnJoin options normalizedEmail ;;
      let '(status_, inviteCode_, inviteExpiresAt_, approvedAt_) := d in
      now_ <- now ;;
      entry <- create (fun i =>
        mkEntry i normalizedEmail status_ inviteCode_ inviteExpiresAt_
          (Some (totalCount + 1)) (jb_referredBy body) (jb_metadata body)
          approvedAt_ None None now_ now_) ;;
      notify (onJoinWaitlist options) (JoinedWaitlist entry) ;;;
      match status_, truthy inviteCode_, inviteExpiresAt_ with
      | approved, Some c, Some x =>
          notify (sendInviteEmail options) (InviteEmail normalizedEmail c x)
      | _, _, _ => ret tt
      end ;;;
      when (WaitlistStatus_eqb status_ approved)
        (notify (onApproved options) (Approved entry)) ;;;
      ret (mkJoinResponse (id entry) (email entry) (status entry)
             (position entry) (createdAt entry))
  end.

Definition getWaitlistStatus (options : WaitlistOptions) (mail : string)
    : M (WaitlistStatus * option nat) :=
  let normalizedEmail := toLowerCase mail in
  entry <- findOne [W_email normalizedEmail] ;;
  match entry with
  | None => throw NOT_FOUND WAITLIST_ENTRY_NOT_FOUND
  | Some e => ret (status e, position e)
  end.

(** [entry.inviteExpiresAt && new Date(entry.inviteExpiresAt) < new Date()]:
    the clock is read only when the entry has an expiry. *)
Definition isExpired (entry : WaitlistEntry) : M bool :=
  match inviteExpiresAt entry with
  | Some x => t <- now ;; ret (x <? t)%Z
  | None => ret false
  end.

Definition verifyInviteCode (options : WaitlistOptions) (code : string)
    : M VerifyResponse :=
  entry <- findOne [W_inviteCode code; W_status approved] ;;
  match entry with
  | None => ret (mkVerifyResponse false None)
  | Some e =>
      expired <- isExpired e ;;
      if expired then ret (mkVerifyResponse false None)
      else ret (mkVerifyResponse true (Some (email e)))
  end.

(** *** Admin routes (src/routes/admin.ts); each one runs behind
    [adminMiddleware], which is not part of the handler. *)

Definition approveEntry (options : WaitlistOptions) (mail : string)
    : M WaitlistEntry :=
  let normalizedEmail := toLowerCase mail in
  entry <- findOne [W_email normalizedEmail] ;;
  match entry with
  | None => throw NOT_FOUND WAITLIST_ENTRY_NOT_FOUND
  | Some e =>
      if WaitlistStatus_eqb (status e) registered
      then throw BAD_REQUEST ALREADY_REGISTERED
      else
        code <- randomUUID ;;
        t <- now ;;
        let inviteExpiresAt_ := (t + expSeconds options * 1000)%Z in
        now_ <- now ;;
        updated <- update [W_email normalizedEmail]
                     (approveUpdate code inviteExpiresAt_ now_) ;;
        let updatedEntry := match updated with Some u => u | None => e end in
        notify (sendInviteEmail options)
          (InviteEmail normalizedEmail code inviteExpiresAt_) ;;;
        notify (onApproved options) (Approved updatedEntry) ;;;
        ret updatedEntry
  end.

Definition rejectEntry (options : WaitlistOptions) (mail : string)
    : M WaitlistEntry :=
  let normalizedEmail := toLowerCase mail in
  entry <- findOne [W_email normalizedEmail] ;;
  match entry with
  | None => throw NOT_FOUND WAITLIST_ENTRY_NOT_FOUND
  | Some e =>
      now_ <- now ;;
      updated <- update [W_email normalizedEmail] (rejectUpdate now_) ;;
      let updatedEntry := match updated with Some u => u | None => e end in
      notify (onRejected options) (Rejected updatedEntry) ;;;
      ret updatedEntry
  end.

(** The body shared by the two loops of [bulkApprove]: issue a code, patch
    the record selected by [where_], notify; gives the entry pushed onto
    [approved]. *)
Definition approveOne (options : WaitlistOptions) (where_ : list Where)
    (mail : string) (entry : WaitlistEntry) : M WaitlistEntry :=
  code <- randomUUID ;;
  t <- now ;;
  let inviteExpiresAt_ := (t + expSeconds options * 1000)%Z in
  now_ <- now ;;
  update where_ (approveUpdate code inviteExpiresAt_ now_) ;;;
  let updatedEntry := approveUpdate code inviteExpiresAt_ now_ entry in
  notify (sendInviteEmail options) (InviteEmail mail code inviteExpiresAt_) ;;;
  notify (onApproved options) (Approved updatedEntry) ;;;
  ret updatedEntry.

(** [for (const email of emails) { ... }] *)
Fixpoint approveEmails (options : WaitlistOptions) (emails : list string)
    (acc : list WaitlistEntry) : M (list WaitlistEntry) :=
  match emails with
  | [] => ret acc
  | mail :: rest =>
      let normalizedEmail := toLowerCase mail in
      entry <- findOne [W_email normalizedEmail] ;;
      match entry with
      | Some e =>
          if WaitlistStatus_eqb (status e) pending then
            u <- approveOne options [W_email normalizedEmail] normalizedEmail e ;;
            approveEmails options rest (acc ++ [u])
          else approveEmails options rest acc
      | None => approveEmails options rest acc
      end
  end.

(** [for (const entry of pending) { ... }] *)
Fixpoint approvePending (options : WaitlistOptions)
    (pendingEntries : list WaitlistEntry) (acc : list WaitlistEntry)
    : M (list WaitlistEntry) :=
  match pendingEntries with
  | [] => ret acc
  | e :: rest =>
      u <- approveOne options [W_id (id e)] (email e) e ;;
      approvePending options rest (acc ++ [u])
  end.

Definition bulkApprove (options : WaitlistOptions)
    (emails : option (list string)) (count_ : option nat) : M BulkResponse :=
  approved_ <-
    match emails, count_ with
    | Some (mail :: rest), _ => approveEmails options (mail :: rest) []
    | _, Some (S n) =>
        pendingEntries <- findMany [W_status pending] position_leb (S n) ;;
        approvePending options pendingEntries []
    | _, _ => ret []
    end ;;
  ret (mkBulkResponse (List.length approved_) approved_).

(** *** The plugin's hooks (src/index.ts) *)

(** [hooks.before[0].matcher] *)
Definition matcher (opts : WaitlistOptions) (path : option string) : bool :=
  if negb (enabled opts) then false
  else
    let paths :=
      match interceptPaths opts with
      | Some ps => ps
      | None => DEFAULT_INTERCEPT_PATHS
      end in
    match path with
    | Some p => existsb (fun q => String.eqb p q || prefix q p) paths
    | None => false
    end.

(** [hooks.before[0].handler]: returning normally admits the attempt. *)
Definition handler (opts : WaitlistOptions) (a : Attempt) : M unit :=
  existingUser <-
    match truthy (body_email a) with
    | Some mail => findUserByEmail (toLowerCase mail)
    | None => ret false
    end ;;
  if existingUser then ret tt
  else if requireInviteCode opts then
    match js_or (body_inviteCode a) (truthy (header_inviteCode a)) with
    | None => throw FORBIDDEN INVITE_CODE_REQUIRED
    | Some code =>
        entry <- findOne [W_inviteCode code; W_status approved] ;;
        match entry with
        | None => throw FORBIDDEN INVALID_INVITE_CODE
        | Some e =>
            expired <- isExpired e ;;
            if expired then throw FORBIDDEN INVALID_INVITE_CODE else ret tt
        end
    end
  else
    match truthy (body_email a) with
    | Some mail =>
        entry <- findOne [W_email (toLowerCase mail)] ;;
        match entry with
        | Some e =>
            if WaitlistStatus_eqb (status e) approved then ret tt
            else throw FORBIDDEN NOT_APPROVED
        | None => throw FORBIDDEN NOT_APPROVED
        end
    | None => ret tt
    end.

(** The pre-processing gate: the handler runs on the paths the matcher
    selects. *)
Definition beforeHook (opts : WaitlistOptions) (path : option string)
    (a : Attempt) : M unit :=
  if matcher opts path then handler opts a else ret tt.

(** [databaseHooks.user.create.before]: [false] blocks the creation.
    [ctx] tells whether a context with an adapter was passed. *)
Definition userCreateBefore (opts : WaitlistOptions) (user : User)
    (ctx : bool) : M bool :=
  if negb (enabled opts) then ret true
  else if skipAnonymous opts && isAnonymous user then ret true
  else
    match truthy (user_email user) with
    | None => ret true
    | Some mail =>
        if negb ctx then ret true
        else
          entry <- findOne [W_email (toLowerCase mail); W_status approved] ;;
          match entry with
          | None => ret false
          | Some _ => ret true
          end
    end.

(** [databaseHooks.user.create.after]: marks the entry registered. *)
Definition userCreateAfter (opts : WaitlistOptions) (user : User)
    (ctx : bool) : M unit :=
  if negb (enabled opts) then ret tt
  else
    match truthy (user_email user) with
    | None => ret tt
    | Some mail =>
        if negb ctx then ret tt
        else
          let mail_ := toLowerCase mail in
          entry <- findOne [W_email mail_] ;;
          match entry with
          | None => ret tt
          | Some _ =>
              at_ <- now ;;
              now_ <- now ;;
              update [W_email mail_] (registeredUpdate at_ now_) ;;;
              ret tt
          end
    end.

(** *** The core operations, as one type *)

Inductive Operation : Type :=
  | Join (body : JoinBody)
  | Approve (mail : string)
  | Reject (mail : string)
  | BulkApprove (emails : option (list string)) (count_ : option nat)
  | MarkRegistered (user : User).

Definition perform (opts : WaitlistOptions) (op : Operation) : M unit :=
  match op with
  | Join body => joinWaitlist opts body ;;; ret tt
  | Approve mail => approveEntry opts mail ;;; ret tt
  | Reject mail => rejectEntry opts mail ;;; ret tt
  | BulkApprove emails count_ => bulkApprove opts emails count_ ;;; ret tt
  | MarkRegistered user => userCreateAfter opts user true
  end.

End Handlers.

(** ** The admin guard and the administrative queries
    (src/routes/admin.ts) *)

(** [adminMiddleware]; [userRole] is the [role] of the session's user, the
    session being the host's [sessionMiddleware]'s business. *)
Definition adminMiddleware (options : WaitlistOptions)
    (userRole : option string) : M unit :=
  let adminRoles_ :=
    match adminRoles options with
    | Some roles => roles
    | None => ["admin"]
    end in
  match truthy userRole with
  | None => throw FORBIDDEN UNAUTHORIZED_ADMIN_ACTION
  | Some role =>
      if existsb (String.eqb role) adminRoles_ then ret tt
      else throw FORBIDDEN UNAUTHORIZED_ADMIN_ACTION
  end.

(** An endpoint declared with [use: [adminMiddleware(options)]]: the
    middleware runs first, the handler only if it returns. *)
Definition adminEndpoint {A : Type} (options : WaitlistOptions)
    (userRole : option string) (h : M A) : M A :=
  adminMiddleware options userRole ;;; h.

Inductive SortField : Type :=
  | sort_createdAt
  | sort_position
  | sort_email
  | sort_status.

Inductive SortDirection : Type :=
  | asc
  | desc.

(** The validated query of [listWaitlist]: zod has checked that [page] and
    [limit], when given, are positive integers and that [limit] is at most
    100. *)
Record ListQuery : Type := mkListQuery {
  lq_status : option WaitlistStatus;
  lq_page : option nat;
  lq_limit : option nat;
  lq_sortBy : option SortField;
  lq_sortDirection : option SortDirection
}.

Record ListResponse : Type := mkListResponse {
  lr_entries : list WaitlistEntry;
  lr_total : nat;
  lr_page : nat;
  lr_totalPages : nat
}.

Record Stats : Type := mkStats {
  st_total : nat;
  st_pending : nat;
  st_approved : nat;
  st_rejected : nat;
  st_registered : nat
}.

Definition status_name (s : WaitlistStatus) : string :=
  match s with
  | pending => "pending"
  | approved => "approved"
  | rejected => "rejected"
  | registered => "registered"
  end.

(** Modelled from the spec: the order the record store adapter sorts in,
    for each field [listWaitlist] may sort by and each direction. *)
Definition field_leb (f : SortField) (a b : WaitlistEntry) : bool :=
  match f with
  | sort_createdAt => (createdAt a <=? createdAt b)%Z
  | sort_position => position_leb a b
  | sort_email => String.leb (email a) (email b)
  | sort_status => String.leb (status_name (status a)) (status_name (status b))
  end.

Definition order_leb (f : SortField) (d : SortDirection)
    (a b : WaitlistEntry) : bool :=
  match d with
  | asc => field_leb f a b
  | desc => field_leb f b a
  end.

(** Modelled from the spec: [findMany(filter, sort, limit, offset)] of the
    record store adapter, with an offset. *)
Definition findManyPage (where_ : list Where)
    (leb : WaitlistEntry -> WaitlistEntry -> bool) (limit offset : nat)
    : M (list WaitlistEntry) :=
  fun w =>
    (Ok (firstn limit
           (skipn offset (sort_by leb (filter (matches where_) (db w))))), w).

(** [Math.ceil(a / b)] for a positive [b]. *)
Definition ceil_div (a b : nat) : nat :=
  if a mod b =? 0 then a / b else S (a / b).

Definition listWaitlist (options : WaitlistOptions) (query : ListQuery)
    : M ListResponse :=
  let page := match lq_page query with Some p => p | None => 1 end in
  let limit := match lq_limit query with Some l => l | None => 20 end in
  let offset := (page - 1) * limit in
  let where_ :=
    match lq_status query with
    | Some s => [W_status s]
    | None => []
    end in
  entries <- findManyPage where_
               (order_leb
                  (match lq_sortBy query with
                   | Some f => f
                   | None => sort_createdAt
                   end)
                  (match lq_sortDirection query with
                   | Some d => d
                   | None => desc
                   end))
               limit offset ;;
  total <- count where_ ;;
  ret (mkListResponse entries total page (ceil_div total limit)).

Definition getWaitlistStats (options : WaitlistOptions) : M Stats :=
  total <- count [] ;;
  pending_ <- count [W_status pending] ;;
  approved_ <- count [W_status approved] ;;
  rejected_ <- count [W_status rejected] ;;
  registered_ <- count [W_status registered] ;;
  ret (mkStats total pending_ approved_ rejected_ registered_).

(** ** Vocabulary of the properties *)

(** The world a computation leaves behind, and what it returns. *)
Definition run {A : Type} (c : M A) (w : World) : World := snd (c w).

Definition outcome {A : Type} (c : M A) (w : World) : Result A := fst (c w).

(** The entry [findOne] gives for a (normalized) email. *)
Definition lookup_email (mail : string) (w : World) : option WaitlistEntry :=
  find (matches [W_email mail]) (db w).

(** The store's constraints: ids are unique, and so are invite codes
    (src/schema.ts declares [inviteCode] with [unique: true]). *)
Definition unique_ids (w : World) : Prop := NoDup (map id (db w)).

Definition unique_invite_codes (w : World) : Prop :=
  forall i j e1 e2 c,
    nth_error (db w) i = Some e1 -> nth_error (db w) j = Some e2 ->
    inviteCode e1 = Some c -> inviteCode e2 = Some c -> i = j.

(** [inviteExpiresAt] is not strictly before the instant [t]. *)
Definition not_expired (e : WaitlistEntry) (t : Z) : Prop :=
  match inviteExpiresAt e with
  | Some x => (t <= x)%Z
  | None => True
  end.

(** What an operation may do to an entry that exists before it: identity,
    email, position and creation time stay, and the status moves along
    [T]. *)
Definition entry_step (T : WaitlistStatus -> WaitlistStatus -> Prop)
    (e e' : WaitlistEntry) : Prop :=
  id e' = id e /\ email e' = email e /\ position e' = position e /\
  createdAt e' = createdAt e /\ T (status e) (status e').

(** Every record of [d] is still in [d'], at the same place, after an
    [entry_step]. *)
Definition evolves (T : WaitlistStatus -> WaitlistStatus -> Prop)
    (d d' : list WaitlistEntry) : Prop :=
  forall i e, nth_error d i = Some e ->
    exists e', nth_error d' i = Some e' /\ entry_step T e e'.

(** The status moves each core operation makes. *)
Definition transition (op : Operation) (s s' : WaitlistStatus) : Prop :=
  match op with
  | Join _ => s' = s
  | Approve _ => s' = s \/ (s <> registered /\ s' = approved)
  | Reject _ => s <> registered -> s' = s \/ s' = rejected
  | BulkApprove _ _ => s' = s \/ (s = pending /\ s' = approved)
  | MarkRegistered _ => s' = s \/ s' = registered
  end.

Definition keeps_or (target : WaitlistStatus) (s s' : WaitlistStatus) : Prop :=
  s' = s \/ s' = target.

Definition pending_to_approved (s s' : WaitlistStatus) : Prop :=
  s' = s \/ (s = pending /\ s' = approved).

Definition any_move (s s' : WaitlistStatus) : Prop := True.

(** The entries [bulkApprove] selects for a count [n]: the first [n]
    pending entries by ascending position. *)
Definition selection (n : nat) (w : World) : list WaitlistEntry :=
  firstn n (sort_by position_leb (filter (matches [W_status pending]) (db w))).

(** The patch [bulkApprove] applies to the [k]-th entry it approves when
    it starts in world [w]. *)
Definition bulkPatch (env : Env) (opts : WaitlistOptions) (w : World)
    (k : nat) : WaitlistEntry -> WaitlistEntry :=
  approveUpdate (uuid env (uuidReads w + k))
    (clock env (clockReads w + 2 * k) + expSeconds opts * 1000)%Z
    (clock env (clockReads w + 2 * k + 1)).

(** [joinWaitlist] finds room in a table of [n] entries: no (truthy)
    [maxWaitlistSize], or one that [n] has not reached. *)
Definition has_room (opts : WaitlistOptions) (n : nat) : Prop :=
  match maxWaitlistSize opts with
  | Some (S m) => n < S m
  | _ => True
  end.

(** An entry whose invite code [code] can be used at the instant [t]. *)
Definition usable_invite (code : string) (t : Z) (e : WaitlistEntry) : Prop :=
  inviteCode e = Some code /\ status e = approved /\ not_expired e t.

(** The two bulk operations the specification names, each as the pipeline
    of the corresponding branch of [bulkApprove]. *)
Definition bulkApproveByEmails (env : Env) (opts : WaitlistOptions)
    (emails : list string) : M BulkResponse :=
  bind (approveEmails env opts emails [])
    (fun l => ret (mkBulkResponse (List.length l) l)).

Definition bulkApproveByCount (env : Env) (opts : WaitlistOptions)
    (n : nat) : M BulkResponse :=
  bind (bind (findMany [W_status pending] position_leb n)
          (fun entries => approvePending env opts entries []))
    (fun l => ret (mkBulkResponse (List.length l) l)).

(** No account exists for the email of an attempt, if it carries one. *)
Definition no_account (mail : option string) (w : World) : Prop :=
  match truthy mail with
  | Some m => existsb (String.eqb (toLowerCase m)) (users w) = false
  | None => True
  end.

(** Unfolds the monad and the store primitives, and reduces the redexes
    this exposes. *)
Ltac run_m :=
  cbv beta iota zeta delta
    [outcome run lookup_email bind ret throw when notify now randomUUID
     findOne count create update findMany findUserByEmail set_db] in *;
  cbn [fst snd db nextId users clockReads uuidReads events] in *.

(** ** Sample data

    A clock that advances one second per reading, codes ["inv-0"],
    ["inv-1"], ..., a 60-second invite lifetime, and the worlds reached
    from the empty one by the calls shown. *)

Definition sample_env : Env :=
  mkEnv (fun k => (1000 * Z.of_nat k)%Z)
        (fun k => String.append "inv-" (String (ascii_of_nat (48 + k)) "")).

Definition sample_opts : WaitlistOptions :=
  mkOptions true false (Some 60%Z) None false AutoOff None None
    false false false false.

Definition invite_opts : WaitlistOptions :=
  mkOptions true true (Some 60%Z) None false AutoOff None None
    false false false false.

Definition anonymous_opts : WaitlistOptions :=
  mkOptions true false (Some 60%Z) None true AutoOff None None
    false false false false.

Definition empty_world : World := mkWorld [] 0 [] 0 0 [].

Definition join_body (mail : string) : JoinBody := mkJoinBody mail None None.

Definition world_joined : World :=
  Eval cbv in
    run (joinWaitlist sample_env sample_opts (join_body "A@x.com")) empty_world.

Definition world_approved : World :=
  Eval cbv in run (approveEntry sample_env sample_opts "a@x.com") world_joined.

Definition world_rejected : World :=
  Eval cbv in run (rejectEntry sample_env sample_opts "a@x.com") world_approved.

Definition world_registered : World :=
  Eval cbv in
    run (userCreateAfter sample_env sample_opts
           (mkUser (Some "a@x.com") false) true) world_approved.

(** [a@x.com] approved, [b@x.com] pending. *)
Definition world_two : World :=
  Eval cbv in
    run (joinWaitlist sample_env sample_opts (join_body "b@x.com"))
      world_approved.

(** Four pending entries at positions 1 to 4. *)
Definition world_four : World :=
  Eval cbv in
    run (joinWaitlist sample_env sample_opts (join_body "d@x.com"))
      (run (joinWaitlist sample_env sample_opts (join_body "c@x.com"))
         (run (joinWaitlist sample_env sample_opts (join_body "b@x.com"))
            (run (joinWaitlist sample_env sample_opts (join_body "a@x.com"))
               empty_world))).

(** The world [w] seen when the clock has been read [k] times. *)
Definition at_reading (k : nat) (w : World) : World :=
  mkWorld (db w) (nextId w) (users w) k (uuidReads w) (events w).

(** ** Vocabulary of the invariants *)

(** One entry per email, emails in normal form, ids below the store's
    generator. *)
Definition emails_unique (w : World) : Prop := NoDup (map email (db w)).

Definition emails_normalized (w : World) : Prop :=
  forall e, In e (db w) -> toLowerCase (email e) = email e.

Definition ids_fresh (w : World) : Prop :=
  forall e, In e (db w) -> id e < nextId w.

Definition well_formed (w : World) : Prop :=
  unique_ids w /\ ids_fresh w /\ emails_unique w /\ emails_normalized w.

(** Every invite code in the table is one of the UUIDs drawn so far. *)
Definition codes_drawn (env : Env) (w : World) : Prop :=
  forall e c, In e (db w) -> inviteCode e = Some c ->
    exists k, k < uuidReads w /\ c = uuid env k.

(** The UUID source never repeats itself. *)
Definition uuid_injective (env : Env) : Prop :=
  forall j k, uuid env j = uuid env k -> j = k.

(** The roles [adminMiddleware] accepts. *)
Definition accepted_roles (opts : WaitlistOptions) : list string :=
  match adminRoles opts with
  | Some roles => roles
  | None => ["admin"]
  end.

(** The paths the matcher intercepts by prefix. *)
Definition intercepted_paths (opts : WaitlistOptions) : list string :=
  match interceptPaths opts with
  | Some ps => ps
  | None => DEFAULT_INTERCEPT_PATHS
  end.

(** The page size and number [listWaitlist] works with, and the records
    it pages through. *)
Definition page_size (q : ListQuery) : nat :=
  match lq_limit q with Some l => l | None => 20 end.

Definition page_number (q : ListQuery) : nat :=
  match lq_page q with Some p => p | None => 1 end.

Definition listing (q : ListQuery) (w : World) : list WaitlistEntry :=
  sort_by
    (order_leb
       (match lq_sortBy q with Some f => f | None => sort_createdAt end)
       (match lq_sortDirection q with Some d => d | None => desc end))
    (filter
       (matches (match lq_status q with Some s => [W_status s] | None => [] end))
       (db w)).

(** The query [q] asking for page [p]. *)
Definition on_page (q : ListQuery) (p : nat) : ListQuery :=
  mkListQuery (lq_status q) (Some p) (lq_limit q) (lq_sortBy q)
    (lq_sortDirection q).

(** The entries [listWaitlist] returns for page [p] of the query [q]. *)
Definition entries_of_page (opts : WaitlistOptions) (q : ListQuery) (p : nat)
    (w : World) : list WaitlistEntry :=
  match outcome (listWaitlist opts (on_page q p)) w with
  | Ok r => lr_entries r
  | Throw _ => []
  end.

(** The number of entries with a given status. *)
Definition count_status (s : WaitlistStatus) (w : World) : nat :=
  List.length (filter (fun e => WaitlistStatus_eqb (status e) s) (db w)).

(** Invite codes are unique and all come from the UUID source. *)
Definition invite_codes_sound (env : Env) (w : World) : Prop :=
  unique_invite_codes w /\ codes_drawn env w.

(** The four ways a core operation changes the table in one store call:
    not at all; by a patch that keeps id, email and invite code; by the
    approve patch with the next UUID; by appending an entry with the next
    id and a normalized email not yet on the list. *)
Inductive world_step (env : Env) (w w' : World) : Prop :=
  | step_same :
      db w' = db w -> nextId w' = nextId w ->
      uuidReads w <= uuidReads w' ->
      world_step env w w'
  | step_keep : forall p f,
      (forall e, id (f e) = id e /\ email (f e) = email e /\
                 inviteCode (f e) = inviteCode e) ->
      db w' = patch_first p f (db w) -> nextId w' = nextId w ->
      uuidReads w <= uuidReads w' ->
      world_step env w w'
  | step_issue : forall p x t,
      db w' = patch_first p (approveUpdate (uuid env (uuidReads w)) x t) (db w) ->
      nextId w' = nextId w -> uuidReads w' = S (uuidReads w) ->
      world_step env w w'
  | step_insert : forall e,
      db w' = db w ++ [e] -> id e = nextId w -> nextId w' = S (nextId w) ->
      toLowerCase (email e) = email e ->
      find (matches [W_email (email e)]) (db w) = None ->
      (inviteCode e = None /\ uuidReads w <= uuidReads w') \/
      (inviteCode e = Some (uuid env (uuidReads w)) /\
       uuidReads w' = S (uuidReads w)) ->
      world_step env w w'.

(** Whether [joinWaitlist] approves a (normalized) email on the spot. *)
Definition should_approve (opts : WaitlistOptions) (mail : string) : bool :=
  match autoApprove opts with
  | AutoOff => false
  | AutoAll => true
  | AutoWhen f => f mail
  end.

(** The same entries in the same order, as far as ids and emails go, and
    the same id generator. *)
Definition same_keys (w w' : World) : Prop :=
  map id (db w') = map id (db w) /\ map email (db w') = map email (db w) /\
  nextId w' = nextId w.

(** 1 when the status is [s], else 0: the share of an entry in a count. *)
Definition counts_as (s : WaitlistStatus) (e : WaitlistEntry) : nat :=
  if WaitlistStatus_eqb (status e) s then 1 else 0.

(** The notifications an approve hands to the callbacks that are
    configured: first the invite email, then [onApproved]. *)
Definition approve_events (opts : WaitlistOptions) (mail code : string)
    (expires : Z) (entry : WaitlistEntry) : list Event :=
  (if sendInviteEmail opts then [InviteEmail mail code expires] else []) ++
  (if onApproved opts then [Approved entry] else []).

(** ** More sample data

    A UUID source that never repeats (["u"], ["ux"], ["uxx"], ...), a
    waitlist capped at one entry, one that approves every join, and a
    world in which [a@x.com] already has an account. *)

Fixpoint unary (k : nat) : string :=
  match k with
  | 0 => EmptyString
  | S k' => String "x" (unary k')
  end.

Definition steady_env : Env :=
  mkEnv (fun k => (1000 * Z.of_nat k)%Z) (fun k => String "u" (unary k)).

Definition capped_opts : WaitlistOptions :=
  mkOptions true false (Some 60%Z) (Some 1) false AutoOff None None
    false false false false.

Definition auto_opts : WaitlistOptions :=
  mkOptions true false (Some 60%Z) None false AutoAll None None
    false false false false.

Definition notifying_opts : WaitlistOptions :=
  mkOptions true false (Some 60%Z) None false AutoOff None None
    true true true true.

Definition world_member : World :=
  mkWorld (db world_joined) 1 ["a@x.com"] 1 0 [].

(** [a@x.com] approved with the first code of [steady_env]. *)
Definition steady_approved : World :=
  Eval cbv in run (approveEntry steady_env sample_opts "a@x.com") world_joined.

Definition entry_a_pending : WaitlistEntry :=
  mkEntry 0 "a@x.com" pending None None (Some 1) None None None None None 0 0.

Definition entry_a_approved : WaitlistEntry :=
  mkEntry 0 "a@x.com" approved (Some "inv-0") (Some 61000%Z) (Some 1) None
    None (Some 2000%Z) None None 0 2000.

Definition entry_a_steady : WaitlistEntry :=
  mkEntry 0 "a@x.com" approved (Some "u") (Some 61000%Z) (Some 1) None
    None (Some 2000%Z) None None 0 2000.

(** ** Properties *)

Section StoreLemmas.

Variables (p : WaitlistEntry -> bool) (f : WaitlistEntry -> WaitlistEntry).

Lemma patch_first_length : forall l,
  List.length (patch_first p f l) = List.length l.
Proof.
  induction l as [|e l IH]; simpl; [reflexivity|].
  destruct (p e); simpl; congruence.
Qed.

(** Position by position, [patch_first] keeps a record, or patches the
    one that [find] gives. *)
Lemma patch_first_nth : forall l i e,
  nth_error l i = Some e ->
  nth_error (patch_first p f l) i = Some e \/
  (find p l = Some e /\ nth_error (patch_first p f l) i = Some (f e)).
Proof.
  induction l as [|x l IH]; intros [|i] e H; simpl in *; try discriminate.
  - injection H as ->. destruct (p e) eqn:Hp; simpl; auto.
  - destruct (p x); simpl; auto.
Qed.

Lemma patch_first_none : forall l,
  find p l = None -> patch_first p f l = l.
Proof.
  induction l as [|x l IH]; simpl; intros H; [reflexivity|].
  destruct (p x); [discriminate|]. now rewrite IH.
Qed.

(** When the patch keeps the filter's verdict, the patched record is the
    one the filter finds afterwards. *)
Lemma find_patch_first : forall l,
  (forall e, p (f e) = p e) ->
  find p (patch_first p f l) = option_map f (find p l).
Proof.
  intros l Hkey. induction l as [|x l IH]; simpl; [reflexivity|].
  destruct (p x) eqn:Hp; simpl.
  - now rewrite Hkey, Hp.
  - now rewrite Hp.
Qed.

(** A field the patch does not write keeps its value in every record. *)
Lemma patch_first_map_field : forall (B : Type) (g : WaitlistEntry -> B) l,
  (forall e, g (f e) = g e) ->
  map g (patch_first p f l) = map g l.
Proof.
  intros B g l Hg. induction l as [|x l IH]; simpl; [reflexivity|].
  destruct (p x); simpl; now rewrite ?Hg, ?IH.
Qed.

End StoreLemmas.

Lemma status_eqb_eq : forall a b, WaitlistStatus_eqb a b = true <-> a = b.
Proof. intros [] []; simpl; split; congruence. Qed.

Lemma status_eqb_neq : forall a b, WaitlistStatus_eqb a b = false <-> a <> b.
Proof. intros [] []; simpl; split; congruence. Qed.

Lemma matches_email_approveUpdate : forall m c x t e,
  matches [W_email m] (approveUpdate c x t e) = matches [W_email m] e.
Proof. reflexivity. Qed.

Lemma matches_email_rejectUpdate : forall m t e,
  matches [W_email m] (rejectUpdate t e) = matches [W_email m] e.
Proof. reflexivity. Qed.

Lemma matches_email_registeredUpdate : forall m a t e,
  matches [W_email m] (registeredUpdate a t e) = matches [W_email m] e.
Proof. reflexivity. Qed.

Section Properties.

Variable env : Env.

(** C3. [approve(email)] on an existing entry whose status is not
    [registered] sets the status to [approved], stores the invite code just
    drawn from the generator, sets [inviteExpiresAt] to the time of the
    call plus [inviteCodeExpiration] seconds (172800 when not configured)
    and sets [approvedAt]; on a [registered] entry it fails with
    [ALREADY_REGISTERED] and changes nothing. *)
Theorem approveEntry_effect :
  forall (opts : WaitlistOptions) (mail : string) (w : World)
         (e : WaitlistEntry),
    lookup_email (toLowerCase mail) w = Some e ->
    (status e <> registered ->
       let code := uuid env (uuidReads w) in
       let expires := (clock env (clockReads w) + expSeconds opts * 1000)%Z in
       let stamp := clock env (S (clockReads w)) in
       let e' := approveUpdate code expires stamp e in
       let w' := run (approveEntry env opts mail) w in
       outcome (approveEntry env opts mail) w = Ok e' /\
       lookup_email (toLowerCase mail) w' = Some e' /\
       status e' = approved /\
       inviteCode e' = Some code /\
       inviteExpiresAt e' = Some expires /\
       approvedAt e' = Some stamp /\
       uuidReads w' = S (uuidReads w) /\
       (inviteCodeExpiration opts = None ->
          expires = (clock env (clockReads w) + 172800 * 1000)%Z)) /\
    (status e = registered ->
       approveEntry env opts mail w =
         (Throw (mkAPIError BAD_REQUEST ALREADY_REGISTERED), w)).
Proof.
  intros opts mail w e Hfind. unfold lookup_email in Hfind. split.
  - intros Hst. apply status_eqb_neq in Hst.
    unfold approveEntry. run_m. rewrite Hfind, Hst. simpl.
    destruct (sendInviteEmail opts), (onApproved opts); simpl;
      rewrite find_patch_first, Hfind by reflexivity; simpl;
      (repeat split; try reflexivity);
      intros Hnone; unfold expSeconds; now rewrite Hnone.
  - intros Hst. apply status_eqb_eq in Hst.
    unfold approveEntry. run_m. now rewrite Hfind, Hst.
Qed.

(** C8. Rejecting an entry that is already [rejected] does not fail and
    leaves its status [rejected]. *)
Theorem rejectEntry_idempotent :
  forall (opts : WaitlistOptions) (mail : string) (w : World)
         (e : WaitlistEntry),
    lookup_email (toLowerCase mail) w = Some e ->
    status e = rejected ->
    exists e',
      outcome (rejectEntry env opts mail) w = Ok e' /\
      lookup_email (toLowerCase mail) (run (rejectEntry env opts mail) w)
        = Some e' /\
      status e' = rejected /\
      id e' = id e /\ email e' = email e.
Proof.
  intros opts mail w e Hfind _. unfold lookup_email in Hfind.
  exists (rejectUpdate (clock env (clockReads w)) e).
  unfold rejectEntry. run_m. rewrite Hfind. simpl.
  destruct (onRejected opts); simpl;
    rewrite find_patch_first, Hfind by reflexivity; simpl; auto.
Qed.

Lemma case_variant_lower : forall c d,
  case_variant c d -> lower_ascii c = lower_ascii d.
Proof.
  intros c d [x|n Hn|n Hn]; [reflexivity| |];
    unfold lower_ascii;
    rewrite !nat_ascii_embedding by lia;
    replace ((65 <=? n) && (n <=? 90)) with true
      by (symmetry; apply andb_true_iff; split; apply Nat.leb_le; lia);
    replace ((65 <=? n + 32) && (n + 32 <=? 90)) with false
      by (symmetry; apply andb_false_iff; right; apply Nat.leb_gt; lia);
    reflexivity.
Qed.

(** Emails that differ only by case have the same normal form. *)
Lemma differ_only_by_case_lower : forall a b,
  differ_only_by_case a b -> toLowerCase a = toLowerCase b.
Proof.
  induction 1 as [|c d s t Hcd _ IH]; simpl; [reflexivity|].
  now rewrite (case_variant_lower c d Hcd), IH.
Qed.

Lemma filter_matches_nil : forall l : list WaitlistEntry,
  filter (matches []) l = l.
Proof. induction l as [|e l IH]; simpl; congruence. Qed.

Lemma find_email_last : forall d e m,
  find (matches [W_email m]) d = None ->
  find (matches [W_email m]) (d ++ [e]) =
    if String.eqb (email e) m then Some e else None.
Proof.
  induction d as [|x d IH]; intros e m H; simpl in *.
  - now rewrite andb_true_r.
  - destruct (String.eqb (email x) m && true); [discriminate|]. now apply IH.
Qed.

(** A join that finds the email on the list fails and changes nothing. *)
Lemma joinWaitlist_duplicate : forall opts body w e,
  lookup_email (toLowerCase (jb_email body)) w = Some e ->
  joinWaitlist env opts body w =
    (Throw (mkAPIError BAD_REQUEST EMAIL_ALREADY_IN_WAITLIST), w).
Proof.
  intros opts body w e H. unfold joinWaitlist. run_m. now rewrite H.
Qed.

(** The three ways a join ends: the email is on the list already, the
    list is full, or one entry is appended whose position is the number of
    entries plus one. *)
Lemma joinWaitlist_cases : forall opts body w,
  (exists e, lookup_email (toLowerCase (jb_email body)) w = Some e /\
     joinWaitlist env opts body w =
       (Throw (mkAPIError BAD_REQUEST EMAIL_ALREADY_IN_WAITLIST), w)) \/
  (lookup_email (toLowerCase (jb_email body)) w = None /\
   ~ has_room opts (List.length (db w)) /\
   joinWaitlist env opts body w =
     (Throw (mkAPIError BAD_REQUEST WAITLIST_FULL), w)) \/
  (lookup_email (toLowerCase (jb_email body)) w = None /\
   has_room opts (List.length (db w)) /\
   exists r e,
     outcome (joinWaitlist env opts body) w = Ok r /\
     db (run (joinWaitlist env opts body) w) = db w ++ [e] /\
     email e = toLowerCase (jb_email body) /\
     position e = Some (List.length (db w) + 1) /\
     jr_position r = position e /\ jr_email r = email e /\ jr_id r = id e /\
     users (run (joinWaitlist env opts body) w) = users w).
Proof.
  intros opts body w. unfold joinWaitlist, decideOnJoin, has_room. run_m.
  destruct (find _ (db w)) eqn:Hfind;
    [left; eexists; split; reflexivity|].
  right.
  assert (Hlen : forall d : list WaitlistEntry,
    List.length (filter (matches []) d) = List.length d)
    by (intros d; now rewrite filter_matches_nil).
  destruct (maxWaitlistSize opts) as [[|m]|]; run_m;
    rewrite ?Hlen;
    try (destruct (Nat.leb_spec (S m) (List.length (db w))); run_m;
         [left; repeat split; try reflexivity; lia|]);
    right; (split; [reflexivity|]); (split; [auto; lia|]);
    (destruct (autoApprove opts) as [| |g];
      try destruct (g (toLowerCase (jb_email body))); run_m;
      try destruct (truthy (Some (uuid env (uuidReads w)))); run_m;
      destruct (onJoinWaitlist opts), (sendInviteEmail opts),
        (onApproved opts); run_m;
      rewrite ?Hlen;
      do 2 eexists; repeat split; reflexivity).
Qed.

(** C6. Two joins whose emails differ only by letter case address the same
    entry.  In every world, the second join fails and leaves the world, so
    the table, as the first left it; and when the first join has
    succeeded, creating one entry, the second is denied with
    [EMAIL_ALREADY_IN_WAITLIST]. *)
Theorem joinWaitlist_case_insensitive :
  forall (opts : WaitlistOptions) (b1 b2 : JoinBody) (w : World),
    differ_only_by_case (jb_email b1) (jb_email b2) ->
    let w1 := run (joinWaitlist env opts b1) w in
    (exists err, joinWaitlist env opts b2 w1 = (Throw err, w1)) /\
    (forall r1,
       outcome (joinWaitlist env opts b1) w = Ok r1 ->
       List.length (db w1) = S (List.length (db w)) /\
       joinWaitlist env opts b2 w1 =
         (Throw (mkAPIError BAD_REQUEST EMAIL_ALREADY_IN_WAITLIST), w1)).
Proof.
  intros opts b1 b2 w Hcase w1.
  apply differ_only_by_case_lower in Hcase.
  destruct (joinWaitlist_cases opts b1 w) as
    [(x & Hsome & Hthrow) | [(Hnone & Hfull & Hthrow) |
      (Hnone & _ & r & e & Hok & Hdb & Hmail & _)]].
  - (* the email was on the list before the first join *)
    assert (Hw1 : w1 = w) by (unfold w1, run; now rewrite Hthrow).
    rewrite Hw1. split.
    + eexists. apply joinWaitlist_duplicate with (e := x). congruence.
    + intros r1 Hr1. unfold outcome in Hr1. rewrite Hthrow in Hr1.
      discriminate.
  - (* the list was full *)
    assert (Hw1 : w1 = w) by (unfold w1, run; now rewrite Hthrow).
    rewrite Hw1. split.
    + destruct (joinWaitlist_cases opts b2 w) as
        [(x & _ & Hthrow2) | [(_ & _ & Hthrow2) | (_ & Hroom & _)]];
        eauto. contradiction.
    + intros r1 Hr1. unfold outcome in Hr1. rewrite Hthrow in Hr1.
      discriminate.
  - (* the first join created the entry [e] *)
    fold w1 in Hdb.
    assert (Hdup : joinWaitlist env opts b2 w1 =
              (Throw (mkAPIError BAD_REQUEST EMAIL_ALREADY_IN_WAITLIST), w1)).
    { apply joinWaitlist_duplicate with (e := e).
      unfold lookup_email in *. rewrite Hdb, <- Hcase.
      rewrite find_email_last by assumption.
      now rewrite Hmail, String.eqb_refl. }
    split; [eauto|]. intros r1 _. split; [|exact Hdup].
    rewrite Hdb, length_app. simpl. lia.
Qed.

End Properties.

(** *** How the table evolves *)

Section Evolution.

Variable T : WaitlistStatus -> WaitlistStatus -> Prop.
Hypothesis T_refl : forall s, T s s.

Lemma entry_step_refl : forall e, entry_step T e e.
Proof. intros e. unfold entry_step. auto. Qed.

Lemma evolves_refl : forall d, evolves T d d.
Proof. intros d i e H. exists e. split; [assumption|apply entry_step_refl]. Qed.

Lemma evolves_app : forall d e, evolves T d (d ++ [e]).
Proof.
  intros d e i x H. exists x. split; [|apply entry_step_refl].
  rewrite nth_error_app1; [assumption|].
  apply nth_error_Some. congruence.
Qed.

Lemma evolves_patch : forall p f d,
  (forall e, find p d = Some e -> entry_step T e (f e)) ->
  evolves T d (patch_first p f d).
Proof.
  intros p f d Hstep i e H.
  destruct (patch_first_nth p f d i e H) as [Hsame | [Hfound Hpatched]].
  - exists e. split; [assumption|apply entry_step_refl].
  - exists (f e). split; [assumption|now apply Hstep].
Qed.

Hypothesis T_trans : forall a b c, T a b -> T b c -> T a c.

Lemma evolves_trans : forall d1 d2 d3,
  evolves T d1 d2 -> evolves T d2 d3 -> evolves T d1 d3.
Proof.
  intros d1 d2 d3 H12 H23 i e H.
  destruct (H12 i e H) as (e2 & H2 & S12).
  destruct (H23 i e2 H2) as (e3 & H3 & S23).
  exists e3. split; [assumption|].
  unfold entry_step in *. intuition (try congruence). eapply T_trans; eauto.
Qed.

End Evolution.

Lemma evolves_weaken : forall (T T' : WaitlistStatus -> WaitlistStatus -> Prop) d d',
  (forall s s', T s s' -> T' s s') -> evolves T d d' -> evolves T' d d'.
Proof.
  intros T T' d d' Himp H i e Hn.
  destruct (H i e Hn) as (e' & Hn' & Hs). exists e'. split; [assumption|].
  unfold entry_step in *. intuition.
Qed.

Lemma pending_to_approved_trans : forall a b c,
  pending_to_approved a b -> pending_to_approved b c ->
  pending_to_approved a c.
Proof.
  unfold pending_to_approved. intros a b c [->|[-> ->]] [->|[H ->]]; auto.
Qed.

Lemma approveUpdate_step : forall (T : WaitlistStatus -> WaitlistStatus -> Prop) c x t e,
  T (status e) approved -> entry_step T e (approveUpdate c x t e).
Proof. intros. unfold entry_step. simpl. auto. Qed.

Section Transitions.

Variable env : Env.

Lemma joinWaitlist_evolves : forall opts body w,
  evolves (fun s s' => s' = s) (db w)
    (db (run (joinWaitlist env opts body) w)).
Proof.
  intros opts body w.
  destruct (joinWaitlist_cases env opts body w) as
    [(x & _ & Hthrow) | [(_ & _ & Hthrow) |
      (_ & _ & r & e & _ & -> & _)]];
    try (unfold run; rewrite Hthrow; apply evolves_refl; reflexivity).
  apply evolves_app. reflexivity.
Qed.

Lemma approveEntry_evolves : forall opts mail w,
  evolves (fun s s' => s' = s \/ (s <> registered /\ s' = approved))
    (db w) (db (run (approveEntry env opts mail) w)).
Proof.
  intros opts mail w. unfold approveEntry. run_m.
  destruct (find _ (db w)) as [e|] eqn:Hfind; run_m;
    [|apply evolves_refl; auto].
  destruct (WaitlistStatus_eqb (status e) registered) eqn:Hst; run_m;
    [apply evolves_refl; auto|].
  apply status_eqb_neq in Hst.
  assert (Hgoal : evolves (fun s s' => s' = s \/ (s <> registered /\ s' = approved))
            (db w) (patch_first (matches [W_email (toLowerCase mail)])
               (approveUpdate (uuid env (uuidReads w))
                  (clock env (clockReads w) + expSeconds opts * 1000)
                  (clock env (S (clockReads w)))) (db w))).
  { apply evolves_patch; [auto|]. intros x Hx.
    rewrite Hfind in Hx. injection Hx as <-.
    apply approveUpdate_step. auto. }
  destruct (sendInviteEmail opts), (onApproved opts); run_m; exact Hgoal.
Qed.

Lemma rejectEntry_evolves : forall opts mail w,
  evolves (keeps_or rejected) (db w) (db (run (rejectEntry env opts mail) w)).
Proof.
  intros opts mail w. unfold rejectEntry. run_m.
  destruct (find _ (db w)) as [e|] eqn:Hfind; run_m;
    [|apply evolves_refl; left; reflexivity].
  assert (Hgoal : evolves (keeps_or rejected) (db w)
            (patch_first (matches [W_email (toLowerCase mail)])
               (rejectUpdate (clock env (clockReads w))) (db w))).
  { apply evolves_patch; [left; reflexivity|]. intros x _.
    unfold entry_step, keeps_or. simpl. auto 6. }
  destruct (onRejected opts); run_m; exact Hgoal.
Qed.

Lemma userCreateAfter_evolves : forall opts user ctx w,
  evolves (keeps_or registered) (db w)
    (db (run (userCreateAfter env opts user ctx) w)).
Proof.
  intros opts user ctx w. unfold userCreateAfter.
  destruct (enabled opts); simpl; [|apply evolves_refl; left; reflexivity].
  destruct (truthy (user_email user)) as [mail|];
    [|apply evolves_refl; left; reflexivity].
  destruct ctx; simpl; [|apply evolves_refl; left; reflexivity].
  run_m.
  destruct (find _ (db w)) as [e|] eqn:Hfind; run_m;
    [|apply evolves_refl; left; reflexivity].
  apply evolves_patch; [left; reflexivity|]. intros x _.
  unfold entry_step, keeps_or. simpl. auto 6.
Qed.

(** One round of the loops of [bulkApprove]. *)
Lemma approveOne_run : forall opts where_ mail e w,
  exists w',
    approveOne env opts where_ mail e w = (Ok (bulkPatch env opts w 0 e), w') /\
    db w' = patch_first (matches where_) (bulkPatch env opts w 0) (db w) /\
    uuidReads w' = S (uuidReads w) /\
    clockReads w' = S (S (clockReads w)).
Proof.
  intros opts where_ mail e w. unfold approveOne, bulkPatch. run_m.
  rewrite !Nat.add_0_r. replace (clockReads w + 1) with (S (clockReads w)) by lia.
  destruct (sendInviteEmail opts), (onApproved opts); run_m;
    eexists; repeat split; reflexivity.
Qed.

Lemma approveEmails_evolves : forall opts emails acc w,
  evolves pending_to_approved (db w)
    (db (run (approveEmails env opts emails acc) w)).
Proof.
  intros opts emails.
  induction emails as [|mail rest IH]; intros acc w; simpl.
  - apply evolves_refl. left; reflexivity.
  - run_m. destruct (find _ (db w)) as [e|] eqn:Hfind; [|apply IH].
    destruct (WaitlistStatus_eqb (status e) pending) eqn:Hst; [|apply IH].
    apply status_eqb_eq in Hst.
    destruct (approveOne_run opts [W_email (toLowerCase mail)]
                (toLowerCase mail) e w) as (w1 & -> & Hdb & _).
    eapply evolves_trans; [apply pending_to_approved_trans| |apply IH].
    rewrite Hdb. apply evolves_patch; [left; reflexivity|].
    intros x Hx. rewrite Hfind in Hx. injection Hx as <-.
    apply approveUpdate_step. right. auto.
Qed.

(** The count loop, for any status relation that allows a move to
    [approved]: enough to see that the other fields stay. *)
Lemma approvePending_evolves_any : forall opts l acc w,
  evolves any_move (db w) (db (run (approvePending env opts l acc) w)).
Proof.
  intros opts l.
  induction l as [|e rest IH]; intros acc w; simpl.
  - apply evolves_refl. exact (fun _ => I).
  - run_m.
    destruct (approveOne_run opts [W_id (id e)] (email e) e w)
      as (w1 & -> & Hdb & _).
    eapply evolves_trans; [exact (fun _ _ _ _ _ => I)| |apply IH].
    rewrite Hdb. apply evolves_patch; [exact (fun _ => I)|].
    intros x _. apply approveUpdate_step. exact I.
Qed.

End Transitions.

(** *** The sort of [findMany] *)

Section Sorting.

Variable leb : WaitlistEntry -> WaitlistEntry -> bool.

Lemma insert_sorted_perm : forall x l,
  Permutation (insert_sorted leb x l) (x :: l).
Proof.
  intros x l. induction l as [|y l IH]; simpl; [apply Permutation_refl|].
  destruct (leb x y); [apply Permutation_refl|].
  eapply perm_trans; [apply perm_skip, IH|apply perm_swap].
Qed.

Lemma sort_by_perm : forall l, Permutation (sort_by leb l) l.
Proof.
  induction l as [|x l IH]; simpl; [constructor|].
  eapply perm_trans; [apply insert_sorted_perm|now apply perm_skip].
Qed.

Hypothesis leb_total : forall a b, leb a b = true \/ leb b a = true.
Hypothesis leb_trans : forall a b c,
  leb a b = true -> leb b c = true -> leb a c = true.



End Sorting.





Lemma In_firstn_In : forall (A : Type) n (l : list A) x,
  In x (firstn n l) -> In x l.
Proof.
  intros A n l x H. rewrite <- (firstn_skipn n l). apply in_or_app. now left.
Qed.

(** *** Unique ids *)

Lemma NoDup_map_inj : forall (d : list WaitlistEntry) a b,
  NoDup (map id d) -> In a d -> In b d -> id a = id b -> a = b.
Proof.
  induction d as [|x d IH]; intros a b Hnd Ha Hb Hid; [contradiction|].
  simpl in Hnd. inversion Hnd as [|? ? Hnotin Hnd']; subst.
  destruct Ha as [->|Ha], Hb as [->|Hb]; auto.
  - exfalso. apply Hnotin. rewrite Hid. now apply in_map.
  - exfalso. apply Hnotin. rewrite <- Hid. now apply in_map.
Qed.

Lemma NoDup_map_id_index : forall (d : list WaitlistEntry) i j a b,
  NoDup (map id d) -> nth_error d i = Some a -> nth_error d j = Some b ->
  id a = id b -> i = j.
Proof.
  intros d i j a b Hnd Hi Hj Hid.
  apply (proj1 (NoDup_nth_error (map id d)) Hnd).
  - rewrite length_map. apply nth_error_Some. congruence.
  - rewrite (map_nth_error id i d Hi), (map_nth_error id j d Hj). congruence.
Qed.

Lemma NoDup_map_id_filter : forall q (d : list WaitlistEntry),
  NoDup (map id d) -> NoDup (map id (filter q d)).
Proof.
  intros q d. induction d as [|x d IH]; simpl; intros Hnd; [constructor|].
  inversion Hnd as [|? ? Hnotin Hnd']; subst.
  destruct (q x); simpl; [|auto].
  constructor; [|auto]. intros Hin. apply Hnotin.
  apply in_map_iff in Hin. destruct Hin as (y & Hy & Hin).
  apply filter_In in Hin. apply in_map_iff. exists y. tauto.
Qed.

Lemma selection_NoDup : forall n w,
  unique_ids w -> NoDup (map id (selection n w)).
Proof.
  intros n w Hnd. unfold selection, unique_ids in *.
  rewrite <- firstn_map.
  eapply NoDup_app_remove_r. rewrite firstn_skipn.
  eapply Permutation_NoDup;
    [apply Permutation_map, Permutation_sym, sort_by_perm|].
  now apply NoDup_map_id_filter.
Qed.

Lemma selection_pending : forall n w s,
  In s (selection n w) -> In s (db w) /\ status s = pending.
Proof.
  intros n w s H. unfold selection in H. apply In_firstn_In in H.
  apply (Permutation_in _ (sort_by_perm position_leb _)) in H.
  apply filter_In in H. destruct H as [Hin Hm]. split; [assumption|].
  simpl in Hm. rewrite andb_true_r in Hm. now apply status_eqb_eq.
Qed.

(** When only one record satisfies the filter, it is the one patched. *)
Lemma patch_first_unique : forall p f (d : list WaitlistEntry) i e,
  nth_error d i = Some e -> p e = true ->
  (forall j x, nth_error d j = Some x -> p x = true -> j = i) ->
  nth_error (patch_first p f d) i = Some (f e).
Proof.
  intros p f d. induction d as [|y d IH]; intros [|i] e Hn Hp Huniq;
    simpl in *; try discriminate.
  - injection Hn as ->. now rewrite Hp.
  - destruct (p y) eqn:Hy.
    + specialize (Huniq 0 y eq_refl Hy). discriminate.
    + simpl. apply IH; auto.
      intros j x Hj Hx. specialize (Huniq (S j) x Hj Hx). lia.
Qed.

(** *** [bulkApprove] by count *)

Section BulkByCount.

Variable env : Env.

Lemma bulkPatch_shift : forall opts w w1 k,
  uuidReads w1 = S (uuidReads w) ->
  clockReads w1 = S (S (clockReads w)) ->
  bulkPatch env opts w1 k = bulkPatch env opts w (S k).
Proof.
  intros opts w w1 k Hu Hc. unfold bulkPatch. rewrite Hu, Hc.
  replace (S (uuidReads w) + k) with (uuidReads w + S k) by lia.
  replace (S (S (clockReads w)) + 2 * k) with (clockReads w + 2 * S k) by lia.
  reflexivity.
Qed.

Lemma matches_id : forall x e, matches [W_id x] e = true <-> id e = x.
Proof.
  intros x e. simpl. rewrite andb_true_r. apply Nat.eqb_eq.
Qed.

(** The count loop, entry by entry: the [k]-th selected entry receives the
    [k]-th patch, in the table and in the response; no other record
    changes. *)
Lemma approvePending_exact : forall opts sel acc w,
  NoDup (map id sel) -> NoDup (map id (db w)) ->
  exists tl w',
    approvePending env opts sel acc w = (Ok (acc ++ tl), w') /\
    List.length tl = List.length sel /\
    (forall k s, nth_error sel k = Some s ->
       nth_error tl k = Some (bulkPatch env opts w k s)) /\
    map id (db w') = map id (db w) /\
    (forall i e, nth_error (db w) i = Some e ->
       ~ In (id e) (map id sel) -> nth_error (db w') i = Some e) /\
    (forall i e k s, nth_error (db w) i = Some e ->
       nth_error sel k = Some s -> id s = id e ->
       nth_error (db w') i = Some (bulkPatch env opts w k e)).
Proof.
  intros opts sel.
  induction sel as [|s0 rest IH]; intros acc w Hsel Hdb.
  - exists [], w. simpl. rewrite app_nil_r. unfold ret.
    repeat split; auto; intros; try destruct k; discriminate.
  - simpl in Hsel. inversion Hsel as [|? ? Hfresh Hrest]; subst.
    destruct (approveOne_run env opts [W_id (id s0)] (email s0) s0 w)
      as (w1 & Hrun & Hdb1 & Hu & Hc).
    assert (Hids1 : map id (db w1) = map id (db w))
      by (rewrite Hdb1; now apply patch_first_map_field).
    destruct (IH (acc ++ [bulkPatch env opts w 0 s0]) w1 Hrest)
      as (tl & w' & Hloop & Hlen & Hresp & Hids & Hsame & Hpatched);
      [now rewrite Hids1|].
    exists (bulkPatch env opts w 0 s0 :: tl), w'.
    assert (Hkeep : forall i e, nth_error (db w) i = Some e ->
              id e <> id s0 -> nth_error (db w1) i = Some e).
    { intros i e Hi Hne. rewrite Hdb1.
      destruct (patch_first_nth (matches [W_id (id s0)])
                  (bulkPatch env opts w 0) (db w) i e Hi)
        as [Hsame1 | [Hfound _]]; [assumption|].
      apply find_some in Hfound. destruct Hfound as [_ Hm].
      apply matches_id in Hm. contradiction. }
    split; [|split; [|split; [|split; [|split]]]].
    + simpl. unfold bind. rewrite Hrun, Hloop.
      now rewrite <- app_assoc.
    + simpl. now rewrite Hlen.
    + intros [|k] s Hk; simpl in *.
      * now injection Hk as ->.
      * rewrite (Hresp k s Hk). now rewrite (bulkPatch_shift opts w w1 k Hu Hc).
    + congruence.
    + intros i e Hi Hnotin. simpl in Hnotin.
      apply Hsame; [apply Hkeep; auto|tauto].
    + intros i e [|k] s Hi Hk Hid; simpl in Hk.
      * injection Hk as ->.
        apply Hsame.
        -- rewrite Hdb1. apply patch_first_unique; [assumption| |].
           ++ now apply matches_id.
           ++ intros j x Hj Hx. apply matches_id in Hx.
              apply (NoDup_map_id_index (db w) j i x e Hdb Hj Hi). congruence.
        -- unfold bulkPatch. simpl. now rewrite <- Hid.
      * rewrite <- (bulkPatch_shift opts w w1 k Hu Hc).
        apply Hpatched with s; [|assumption|assumption].
        apply Hkeep; [assumption|].
        intros Heq. apply Hfresh. rewrite <- Heq, <- Hid.
        apply in_map. now apply nth_error_In with k.
Qed.


End BulkByCount.

(** *** Status transitions and positions *)

Section StateMachine.

Variable env : Env.

Lemma run_bind_ret : forall (A B : Type) (c : M A) (g : A -> B) w,
  run (bind c (fun a => ret (g a))) w = run c w.
Proof.
  intros A B c g w. unfold run, bind, ret.
  destruct (c w) as [[a|err] w']; reflexivity.
Qed.

(** Which loop [bulkApprove] runs. *)
Lemma bulkApprove_branches : forall opts emails count_ w,
  (exists mail rest, emails = Some (mail :: rest) /\
     run (bulkApprove env opts emails count_) w =
       run (approveEmails env opts (mail :: rest) []) w) \/
  (exists n, count_ = Some (S n) /\
     run (bulkApprove env opts emails count_) w =
       run (approvePending env opts (selection (S n) w) []) w) \/
  run (bulkApprove env opts emails count_) w = w.
Proof.
  intros opts emails count_ w. unfold bulkApprove.
  rewrite run_bind_ret.
  destruct emails as [[|mail rest]|]; [|left; eauto|];
    (destruct count_ as [[|n]|]; [now right; right| |now right; right];
     right; left; exists n; split; [reflexivity|];
     unfold run, bind, findMany; reflexivity).
Qed.

Lemma approvePending_selection_evolves : forall opts n w,
  unique_ids w ->
  evolves pending_to_approved (db w)
    (db (run (approvePending env opts (selection n w) []) w)).
Proof.
  intros opts n w Hids i e Hi.
  destruct (approvePending_exact env opts (selection n w) [] w
              (selection_NoDup n w Hids) Hids)
    as (tl & w1 & Hloop & _ & _ & _ & Hsame & Hpatched).
  unfold run. rewrite Hloop. cbn [snd].
  destruct (in_dec Nat.eq_dec (id e) (map id (selection n w))) as [Hin|Hout].
  - apply in_map_iff in Hin. destruct Hin as (s & Hid & Hs).
    destruct (In_nth_error _ _ Hs) as [k Hk].
    exists (bulkPatch env opts w k e). split; [now apply Hpatched with s|].
    apply approveUpdate_step. right. split; [|reflexivity].
    destruct (selection_pending n w s Hs) as [Hsdb Hst].
    assert (s = e); [|congruence].
    apply (NoDup_map_inj (db w)); auto. now apply nth_error_In with i.
  - exists e. split; [now apply Hsame|].
    apply entry_step_refl. left; reflexivity.
Qed.

(** Whatever the operation, the records present before it keep their id,
    email, position and creation time. *)
Lemma perform_keeps_fields : forall opts op w,
  evolves any_move (db w) (db (run (perform env opts op) w)).
Proof.
  intros opts op w. destruct op as [body|mail|mail|emails count_|user];
    unfold perform; rewrite ?(run_bind_ret _ _ _ (fun _ => tt)).
  - eapply evolves_weaken; [|apply joinWaitlist_evolves]. exact (fun _ _ _ => I).
  - eapply evolves_weaken; [|apply approveEntry_evolves]. exact (fun _ _ _ => I).
  - eapply evolves_weaken; [|apply rejectEntry_evolves]. exact (fun _ _ _ => I).
  - destruct (bulkApprove_branches opts emails count_ w)
      as [(mail & rest & _ & ->) | [(n & _ & ->) | ->]].
    + eapply evolves_weaken; [|apply approveEmails_evolves].
      exact (fun _ _ _ => I).
    + apply approvePending_evolves_any.
    + apply evolves_refl. exact (fun _ => I).
  - eapply evolves_weaken; [|apply userCreateAfter_evolves].
    exact (fun _ _ _ => I).
Qed.

(** C1 (amended). Every core operation keeps the records that exist before
    it, and moves their status only as follows: [join] moves none;
    [approve] moves a status other than [registered] to [approved], so
    also [rejected] to [approved]; [reject] moves [pending], [approved]
    and [rejected] entries to [rejected]; [bulkApprove] moves [pending] to
    [approved] only; [markRegistered] moves to [registered] from any
    status.  [approve] and [bulkApprove] never move a [registered]
    entry. *)
Theorem perform_transitions :
  forall (opts : WaitlistOptions) (op : Operation) (w : World),
    unique_ids w ->
    evolves (transition op) (db w) (db (run (perform env opts op) w)).
Proof.
  intros opts op w Hids. destruct op as [body|mail|mail|emails count_|user];
    unfold perform; rewrite ?(run_bind_ret _ _ _ (fun _ => tt));
    unfold transition.
  - apply joinWaitlist_evolves.
  - apply approveEntry_evolves.
  - eapply evolves_weaken; [|apply rejectEntry_evolves].
    unfold keeps_or. auto.
  - destruct (bulkApprove_branches opts emails count_ w)
      as [(mail & rest & _ & ->) | [(n & _ & ->) | ->]].
    + apply approveEmails_evolves.
    + now apply approvePending_selection_evolves.
    + apply evolves_refl. auto.
  - apply userCreateAfter_evolves.
Qed.

Lemma has_room_le : forall opts n k,
  has_room opts n -> k <= n -> has_room opts k.
Proof.
  intros opts n k. unfold has_room.
  destruct (maxWaitlistSize opts) as [[|m]|]; auto. lia.
Qed.

(** A join for an email that is not on a list with room succeeds. *)
Lemma joinWaitlist_succeeds : forall opts body w,
  lookup_email (toLowerCase (jb_email body)) w = None ->
  has_room opts (List.length (db w)) ->
  exists r e,
    outcome (joinWaitlist env opts body) w = Ok r /\
    db (run (joinWaitlist env opts body) w) = db w ++ [e] /\
    email e = toLowerCase (jb_email body) /\
    jr_position r = Some (List.length (db w) + 1).
Proof.
  intros opts body w Hnone Hroom.
  destruct (joinWaitlist_cases env opts body w) as
    [(x & Hsome & _) | [(_ & Hfull & _) |
      (_ & _ & r & e & Hok & Hdb & Hmail & Hpos & Hr & _)]].
  - congruence.
  - contradiction.
  - exists r, e. repeat split; auto. congruence.
Qed.

(** C5. A successful join gives the new entry the position "number of
    entries in the table at that time, plus one"; no core operation
    changes the position of an entry afterwards; and three joins in a row
    on an empty table, for three different emails and with room for them,
    succeed with positions 1, 2 and 3. *)
Theorem joinWaitlist_position :
  (forall (opts : WaitlistOptions) (body : JoinBody) (w : World)
          (r : JoinResponse),
     outcome (joinWaitlist env opts body) w = Ok r ->
     outcome (count []) w = Ok (List.length (db w)) /\
     jr_position r = Some (List.length (db w) + 1) /\
     exists e,
       db (run (joinWaitlist env opts body) w) = db w ++ [e] /\
       position e = Some (List.length (db w) + 1)) /\
  (forall (opts : WaitlistOptions) (op : Operation) (w : World) (i : nat)
          (e : WaitlistEntry),
     nth_error (db w) i = Some e ->
     exists e',
       nth_error (db (run (perform env opts op) w)) i = Some e' /\
       id e' = id e /\ position e' = position e) /\
  (forall (opts : WaitlistOptions) (b1 b2 b3 : JoinBody) (w : World),
     db w = [] ->
     has_room opts 2 ->
     toLowerCase (jb_email b1) <> toLowerCase (jb_email b2) ->
     toLowerCase (jb_email b1) <> toLowerCase (jb_email b3) ->
     toLowerCase (jb_email b2) <> toLowerCase (jb_email b3) ->
     let w1 := run (joinWaitlist env opts b1) w in
     let w2 := run (joinWaitlist env opts b2) w1 in
     exists r1 r2 r3,
       outcome (joinWaitlist env opts b1) w = Ok r1 /\
       outcome (joinWaitlist env opts b2) w1 = Ok r2 /\
       outcome (joinWaitlist env opts b3) w2 = Ok r3 /\
       jr_position r1 = Some 1 /\
       jr_position r2 = Some 2 /\
       jr_position r3 = Some 3).
Proof.
  split; [|split].
  - intros opts body w r Hok.
    split; [unfold outcome, count; simpl; now rewrite filter_matches_nil|].
    destruct (joinWaitlist_cases env opts body w) as
      [(x & _ & Hthrow) | [(_ & _ & Hthrow) |
        (_ & _ & r' & e & Hok' & Hdb & _ & Hpos & Hr & _)]];
      try (unfold outcome in Hok; rewrite Hthrow in Hok; discriminate).
    rewrite Hok in Hok'. injection Hok' as <-.
    split; [congruence|]. exists e. auto.
  - intros opts op w i e Hi.
    destruct (perform_keeps_fields opts op w i e Hi) as (e' & Hi' & Hstep).
    exists e'. unfold entry_step in Hstep. tauto.
  - intros opts b1 b2 b3 w Hempty Hroom H12 H13 H23 w1 w2.
    destruct (joinWaitlist_succeeds opts b1 w) as (r1 & e1 & Ho1 & Hdb1 & Hm1 & Hp1).
    { unfold lookup_email. now rewrite Hempty. }
    { rewrite Hempty. apply has_room_le with 2; [assumption|simpl; lia]. }
    fold w1 in Hdb1. rewrite Hempty in Hdb1, Hp1. simpl in Hdb1, Hp1.
    destruct (joinWaitlist_succeeds opts b2 w1) as (r2 & e2 & Ho2 & Hdb2 & Hm2 & Hp2).
    { unfold lookup_email. rewrite Hdb1. simpl. rewrite Hm1.
      destruct (String.eqb_spec (toLowerCase (jb_email b1))
                  (toLowerCase (jb_email b2))); [contradiction|reflexivity]. }
    { rewrite Hdb1. apply has_room_le with 2; [assumption|simpl; lia]. }
    fold w2 in Hdb2. rewrite Hdb1 in Hdb2, Hp2. simpl in Hdb2, Hp2.
    destruct (joinWaitlist_succeeds opts b3 w2) as (r3 & e3 & Ho3 & Hdb3 & Hm3 & Hp3).
    { unfold lookup_email. rewrite Hdb2. simpl. rewrite Hm1, Hm2.
      destruct (String.eqb_spec (toLowerCase (jb_email b1))
                  (toLowerCase (jb_email b3))); [contradiction|].
      destruct (String.eqb_spec (toLowerCase (jb_email b2))
                  (toLowerCase (jb_email b3))); [contradiction|reflexivity]. }
    { rewrite Hdb2. apply has_room_le with 2; [assumption|simpl; lia]. }
    rewrite Hdb2 in Hp3. simpl in Hp3.
    exists r1, r2, r3. auto 7.
Qed.

End StateMachine.

(** *** The invite code check and the admission gate *)

Section Admission.

Variable env : Env.

Lemma matches_invite : forall code e,
  matches [W_inviteCode code; W_status approved] e = true <->
  inviteCode e = Some code /\ status e = approved.
Proof.
  intros code e. simpl. rewrite andb_true_r, andb_true_iff, status_eqb_eq.
  unfold option_string_eqb. destruct (inviteCode e) as [c|].
  - rewrite String.eqb_eq. split; intros [H1 H2]; split; congruence.
  - split; intros [H1 H2]; discriminate.
Qed.

(** With unique invite codes, the entry the code lookup finds is the only
    approved entry holding the code. *)
Lemma invite_lookup_unique : forall code w e0 e,
  unique_invite_codes w ->
  find (matches [W_inviteCode code; W_status approved]) (db w) = Some e0 ->
  In e (db w) -> inviteCode e = Some code -> e = e0.
Proof.
  intros code w e0 e Huniq Hfind Hin Hcode.
  apply find_some in Hfind. destruct Hfind as [Hin0 Hm].
  apply matches_invite in Hm. destruct Hm as [Hcode0 _].
  destruct (In_nth_error _ _ Hin) as [i Hi].
  destruct (In_nth_error _ _ Hin0) as [j Hj].
  assert (i = j) by (eapply Huniq; eauto). subst j. congruence.
Qed.

(** What the expiry test answers, and that it only reads the clock. *)
Lemma isExpired_run : forall e w,
  exists b w',
    isExpired env e w = (Ok b, w') /\ db w' = db w /\
    (b = false <-> not_expired e (clock env (clockReads w))).
Proof.
  intros e w. unfold isExpired, not_expired.
  destruct (inviteExpiresAt e) as [x|]; run_m.
  - do 2 eexists. split; [reflexivity|]. split; [reflexivity|].
    rewrite Z.ltb_ge. tauto.
  - do 2 eexists. split; [reflexivity|]. tauto.
Qed.

(** C4. [verifyInvite(code)] always returns a response: [valid: true] with
    the entry's email exactly when some entry holds the code, has status
    [approved] and an expiry that is not before the time of the check; and
    [valid: false] with no email otherwise. *)
Theorem verifyInviteCode_response :
  forall (opts : WaitlistOptions) (code : string) (w : World),
    unique_invite_codes w ->
    let t := clock env (clockReads w) in
    exists r,
      outcome (verifyInviteCode env opts code) w = Ok r /\
      db (run (verifyInviteCode env opts code) w) = db w /\
      (forall e, In e (db w) -> usable_invite code t e ->
         r = mkVerifyResponse true (Some (email e))) /\
      ((forall e, In e (db w) -> ~ usable_invite code t e) ->
         r = mkVerifyResponse false None) /\
      (valid r = true ->
         exists e, In e (db w) /\ usable_invite code t e /\
                   vr_email r = Some (email e)) /\
      (valid r = false -> vr_email r = None).
Proof.
  intros opts code w Huniq t. unfold verifyInviteCode. run_m.
  destruct (find _ (db w)) as [e0|] eqn:Hfind.
  - destruct (isExpired_run e0 w) as (b & w' & Hrun & Hdb & Hb).
    rewrite Hrun. cbn [fst snd].
    pose proof (find_some _ _ Hfind) as [Hin0 Hm0].
    apply matches_invite in Hm0. destruct Hm0 as [Hcode0 Hst0].
    destruct b; cbn [fst snd];
      eexists; (split; [reflexivity|]); (split; [assumption|]).
    + assert (Hexp : ~ not_expired e0 t)
        by (intros H; apply Hb in H; discriminate).
      repeat split; auto; try discriminate.
      intros e Hin (Hc & _ & Hne).
      rewrite (invite_lookup_unique code w e0 e Huniq Hfind Hin Hc) in Hne.
      contradiction.
    + assert (Hok : usable_invite code t e0)
        by (repeat split; auto; now apply Hb).
      repeat split; try discriminate.
      * intros e Hin (Hc & _).
        now rewrite (invite_lookup_unique code w e0 e Huniq Hfind Hin Hc).
      * intros Hnone. exfalso. now apply (Hnone e0).
      * intros _. exists e0. auto.
  - cbn [fst snd]. eexists. split; [reflexivity|]. split; [reflexivity|].
    repeat split; auto; try discriminate.
    intros e Hin (Hc & Hst & _). exfalso.
    pose proof (find_none _ _ Hfind e Hin) as Hm.
    assert (Hyes : matches [W_inviteCode code; W_status approved] e = true)
      by (apply matches_invite; auto).
    congruence.
Qed.

(** A successful approve leaves the entry of the email approved. *)
Lemma approveEntry_ok : forall opts mail w e' w',
  approveEntry env opts mail w = (Ok e', w') ->
  lookup_email (toLowerCase mail) w' = Some e' /\ status e' = approved /\
  users w' = users w.
Proof.
  intros opts mail w e' w'. unfold approveEntry. run_m.
  destruct (find _ (db w)) as [e|] eqn:Hfind; run_m; [|discriminate].
  destruct (WaitlistStatus_eqb (status e) registered); run_m; [discriminate|].
  destruct (sendInviteEmail opts), (onApproved opts); run_m;
    intros H; injection H as <- <-; cbn [db users];
    rewrite find_patch_first, Hfind by reflexivity; auto.
Qed.

(** C2. With [requireInviteCode] off, an intercepted attempt that carries
    an email for which no account exists is denied with [NOT_APPROVED]
    when the email has no entry or an entry that is not [approved] (so for
    a [pending] one), and admitted when the entry is [approved], as
    it is once [approve(email)] has succeeded. *)
Theorem gate_requires_approval :
  forall (opts : WaitlistOptions) (path : option string) (a : Attempt)
         (mail : string) (w : World),
    matcher opts path = true ->
    requireInviteCode opts = false ->
    truthy (body_email a) = Some mail ->
    outcome (findUserByEmail (toLowerCase mail)) w = Ok false ->
    (lookup_email (toLowerCase mail) w = None ->
       beforeHook env opts path a w =
         (Throw (mkAPIError FORBIDDEN NOT_APPROVED), w)) /\
    (forall e, lookup_email (toLowerCase mail) w = Some e ->
       status e = pending ->
       beforeHook env opts path a w =
         (Throw (mkAPIError FORBIDDEN NOT_APPROVED), w)) /\
    (forall e, lookup_email (toLowerCase mail) w = Some e ->
       (status e = approved ->
          beforeHook env opts path a w = (Ok tt, w)) /\
       (status e <> approved ->
          beforeHook env opts path a w =
            (Throw (mkAPIError FORBIDDEN NOT_APPROVED), w))) /\
    (forall mail' w0 e',
       toLowerCase mail' = toLowerCase mail ->
       approveEntry env opts mail' w0 = (Ok e', w) ->
       beforeHook env opts path a w = (Ok tt, w)).
Proof.
  intros opts path a mail w Hpath Hreq Hmail Huser.
  assert (Hgate : beforeHook env opts path a w =
    match lookup_email (toLowerCase mail) w with
    | Some e => if WaitlistStatus_eqb (status e) approved
                then (Ok tt, w)
                else (Throw (mkAPIError FORBIDDEN NOT_APPROVED), w)
    | None => (Throw (mkAPIError FORBIDDEN NOT_APPROVED), w)
    end).
  { unfold beforeHook, handler. rewrite Hpath, Hmail, Hreq.
    unfold outcome, findUserByEmail in Huser. cbn [fst] in Huser.
    injection Huser as Huser. run_m. rewrite Huser.
    destruct (find _ (db w)) as [e|]; [|reflexivity].
    destruct (WaitlistStatus_eqb (status e) approved); reflexivity. }
  rewrite Hgate. split; [|split; [|split]].
  - now intros ->.
  - intros e -> Hst. now rewrite Hst.
  - intros e ->. split; intros Hst.
    + now rewrite (proj2 (status_eqb_eq _ _) Hst).
    + now rewrite (proj2 (status_eqb_neq _ _) Hst).
  - intros mail' w0 e' Hsame Happrove.
    destruct (approveEntry_ok opts mail' w0 e' w Happrove) as (Hl & Hst & _).
    rewrite Hsame in Hl. now rewrite Hl, Hst.
Qed.

(** C9. With [requireInviteCode] on, an intercepted attempt that presents,
    in the body or in the [x-invite-code] header, a code held by an
    approved entry that has not expired is admitted, whatever entry the
    email of the attempt has and even without any: among attempts for
    which no account exists, the outcome depends on the code alone. *)
Theorem gate_checks_code_only :
  forall (opts : WaitlistOptions) (path : option string) (a : Attempt)
         (code : string) (w : World) (e : WaitlistEntry),
    matcher opts path = true ->
    requireInviteCode opts = true ->
    js_or (body_inviteCode a) (truthy (header_inviteCode a)) = Some code ->
    unique_invite_codes w ->
    In e (db w) ->
    usable_invite code (clock env (clockReads w)) e ->
    outcome (beforeHook env opts path a) w = Ok tt /\
    db (run (beforeHook env opts path a) w) = db w /\
    (forall b1 b2 : option string,
       no_account b1 w -> no_account b2 w ->
       beforeHook env opts path
         (mkAttempt b1 (body_inviteCode a) (header_inviteCode a)) w =
       beforeHook env opts path
         (mkAttempt b2 (body_inviteCode a) (header_inviteCode a)) w).
Proof.
  intros opts path a code w e Hpath Hreq Hcode Huniq Hin Husable.
  assert (Hcheck : forall b : option string,
    outcome (beforeHook env opts path
               (mkAttempt b (body_inviteCode a) (header_inviteCode a))) w
      = Ok tt /\
    db (run (beforeHook env opts path
               (mkAttempt b (body_inviteCode a) (header_inviteCode a))) w)
      = db w).
  { intros b. unfold beforeHook, handler. rewrite Hpath, Hreq.
    cbn [body_email body_inviteCode header_inviteCode]. rewrite Hcode.
    assert (Hfound : exists e0,
      find (matches [W_inviteCode code; W_status approved]) (db w) = Some e0).
    { destruct (find (matches [W_inviteCode code; W_status approved]) (db w))
        as [e0|] eqn:Hfind; [eauto|].
      pose proof (find_none _ _ Hfind e Hin) as Hm.
      destruct Husable as (Hc & Hst & _).
      assert (matches [W_inviteCode code; W_status approved] e = true)
        by (apply matches_invite; auto).
      congruence. }
    destruct Hfound as [e0 Hfind].
    assert (e = e0)
      by (destruct Husable as (Hc & _);
          eapply invite_lookup_unique; eauto).
    subst e0.
    destruct (isExpired_run e w) as (x & w' & Hrun & Hdb & Hx).
    assert (x = false) by (apply Hx; apply Husable). subst x.
    destruct (truthy b) as [mail|]; run_m;
      try destruct (existsb (String.eqb (toLowerCase mail)) (users w));
      run_m; auto; rewrite Hfind, Hrun; cbn [fst snd]; auto. }
  destruct a as [b bc hc]. cbn [body_inviteCode header_inviteCode] in *.
  split; [apply Hcheck|]. split; [apply Hcheck|].
  intros b1 b2 H1 H2. unfold beforeHook, handler, no_account in *.
  rewrite Hpath, Hreq. cbn [body_email body_inviteCode header_inviteCode].
  destruct (truthy b1), (truthy b2); run_m; rewrite ?H1, ?H2; reflexivity.
Qed.

(** The per-email loop leaves alone every record whose email is not on
    the list. *)
Lemma approveEmails_untouched : forall opts emails acc w i e,
  nth_error (db w) i = Some e ->
  ~ In (email e) (map toLowerCase emails) ->
  nth_error (db (run (approveEmails env opts emails acc) w)) i = Some e.
Proof.
  intros opts emails.
  induction emails as [|mail rest IH]; intros acc w i e Hi Hnot; simpl.
  - exact Hi.
  - simpl in Hnot. run_m.
    destruct (find _ (db w)) as [e0|] eqn:Hfind; [|apply IH; tauto].
    destruct (WaitlistStatus_eqb (status e0) pending); [|apply IH; tauto].
    destruct (approveOne_run env opts [W_email (toLowerCase mail)]
                (toLowerCase mail) e0 w) as (w1 & -> & Hdb & _).
    apply IH; [|tauto]. rewrite Hdb.
    destruct (patch_first_nth (matches [W_email (toLowerCase mail)])
                (bulkPatch env opts w 0) (db w) i e Hi)
      as [Hsame | [Hfound _]]; [assumption|].
    apply find_some in Hfound. destruct Hfound as [_ Hm].
    simpl in Hm. rewrite andb_true_r in Hm. apply String.eqb_eq in Hm.
    exfalso. apply Hnot. now left.
Qed.

(** C10. With a non-empty [emails] list, [bulkApprove] runs the per-email
    loop and nothing else, whatever [count] is: the result is that of the
    call without a count, and a record whose email is not on the list
    stays as it is, pending or not.  The selection by count runs only when
    [emails] is absent or empty (and [count] is given). *)
Theorem bulkApprove_emails_take_precedence :
  forall (opts : WaitlistOptions) (w : World),
    (forall mail rest count_,
       bulkApprove env opts (Some (mail :: rest)) count_ w =
         bulkApproveByEmails env opts (mail :: rest) w /\
       bulkApprove env opts (Some (mail :: rest)) count_ w =
         bulkApprove env opts (Some (mail :: rest)) None w /\
       forall i e,
         nth_error (db w) i = Some e ->
         ~ In (email e) (map toLowerCase (mail :: rest)) ->
         nth_error
           (db (run (bulkApprove env opts (Some (mail :: rest)) count_) w)) i
           = Some e) /\
    (forall n,
       bulkApprove env opts None (Some (S n)) w =
         bulkApproveByCount env opts (S n) w /\
       bulkApprove env opts (Some []) (Some (S n)) w =
         bulkApproveByCount env opts (S n) w) /\
    (forall emails count_,
       emails = None \/ emails = Some [] ->
       count_ = None \/ count_ = Some 0 ->
       bulkApprove env opts emails count_ w =
         (Ok (mkBulkResponse 0 []), w)).
Proof.
  intros opts w. split; [|split].
  - intros mail rest count_. split; [reflexivity|]. split; [reflexivity|].
    intros i e Hi Hnot.
    unfold bulkApprove. rewrite run_bind_ret.
    now apply approveEmails_untouched.
  - intros n. split; reflexivity.
  - intros emails count_ [-> | ->] [-> | ->]; reflexivity.
Qed.

End Admission.

(** ** The properties on the sample data *)

Lemma world_four_unique_ids : unique_ids world_four.
Proof.
  unfold unique_ids. simpl. repeat constructor; simpl; intuition discriminate.
Qed.

Lemma world_two_unique_invite_codes : unique_invite_codes world_two.
Proof.
  intros i j e1 e2 c Hi Hj H1 H2.
  destruct i as [|[|i]], j as [|[|j]]; simpl in Hi, Hj;
    try reflexivity;
    try (destruct i; discriminate); try (destruct j; discriminate);
    injection Hi as <-; injection Hj as <-; discriminate.
Qed.

Lemma world_approved_unique_invite_codes : unique_invite_codes world_approved.
Proof.
  intros i j e1 e2 c Hi Hj _ _.
  destruct i as [|i], j as [|j]; simpl in Hi, Hj;
    try reflexivity;
    try (destruct i; discriminate); try (destruct j; discriminate).
Qed.

(** The claim C1 as the specification words it fails: [reject] moves an
    [approved] entry to [rejected], and [approve] moves it back from
    [rejected] to [approved]. *)
Lemma reject_and_approve_leave_the_paths :
  option_map status (lookup_email "a@x.com" world_approved) = Some approved /\
  option_map status
    (lookup_email "a@x.com"
       (run (perform sample_env sample_opts (Reject "a@x.com")) world_approved))
    = Some rejected /\
  option_map status (lookup_email "a@x.com" world_rejected) = Some rejected /\
  option_map status
    (lookup_email "a@x.com"
       (run (perform sample_env sample_opts (Approve "a@x.com")) world_rejected))
    = Some approved.
Proof. repeat split; reflexivity. Qed.

(** [reject] has no guard on [registered], unlike [approve]: it moves a
    registered entry to [rejected]. *)
Example reject_moves_registered_entry :
  option_map status (lookup_email "a@x.com" world_registered)
    = Some registered /\
  outcome (approveEntry sample_env sample_opts "a@x.com") world_registered
    = Throw (mkAPIError BAD_REQUEST ALREADY_REGISTERED) /\
  option_map status
    (lookup_email "a@x.com"
       (run (rejectEntry sample_env sample_opts "a@x.com") world_registered))
    = Some rejected.
Proof. repeat split; reflexivity. Qed.

(** With [skipAnonymous], the creation hooks let an anonymous user record
    with an email through and mark its entry registered, although the
    entry is only pending. *)
Example anonymous_signup_registers_pending_entry :
  outcome (userCreateBefore anonymous_opts
             (mkUser (Some "a@x.com") true) true) world_joined = Ok true /\
  option_map status
    (lookup_email "a@x.com"
       (run (perform sample_env anonymous_opts
               (MarkRegistered (mkUser (Some "a@x.com") true))) world_joined))
    = Some registered.
Proof. split; reflexivity. Qed.

Lemma perform_transitions_witness :
  unique_ids world_four /\
  evolves (transition (BulkApprove None (Some 2))) (db world_four)
    (db (run (perform sample_env sample_opts (BulkApprove None (Some 2)))
           world_four)).
Proof.
  split; [exact world_four_unique_ids|].
  apply (perform_transitions sample_env sample_opts
           (BulkApprove None (Some 2)) world_four).
  exact world_four_unique_ids.
Defined.

Lemma gate_requires_approval_witness :
  matcher sample_opts (Some "/sign-up/email") = true /\
  requireInviteCode sample_opts = false /\
  truthy (Some "A@x.com") = Some "A@x.com" /\
  outcome (findUserByEmail (toLowerCase "A@x.com")) world_joined = Ok false /\
  lookup_email (toLowerCase "A@x.com") world_joined
    = Some (mkEntry 0 "a@x.com" pending None None (Some 1) None None None
              None None 0 0) /\
  beforeHook sample_env sample_opts (Some "/sign-up/email")
    (mkAttempt (Some "A@x.com") None None) world_joined
    = (Throw (mkAPIError FORBIDDEN NOT_APPROVED), world_joined) /\
  approveEntry sample_env sample_opts "a@x.com" world_joined
    = (outcome (approveEntry sample_env sample_opts "a@x.com") world_joined,
       world_approved) /\
  beforeHook sample_env sample_opts (Some "/sign-up/email")
    (mkAttempt (Some "A@x.com") None None) world_approved
    = (Ok tt, world_approved).
Proof.
  do 5 (split; [reflexivity|]).
  split.
  - apply (proj1 (proj2 (gate_requires_approval sample_env sample_opts
             (Some "/sign-up/email") (mkAttempt (Some "A@x.com") None None)
             "A@x.com" world_joined eq_refl eq_refl eq_refl eq_refl))
           (mkEntry 0 "a@x.com" pending None None (Some 1) None None None
              None None 0 0));
      reflexivity.
  - split; [reflexivity|].
    apply (proj2 (proj2 (proj2 (gate_requires_approval sample_env sample_opts
             (Some "/sign-up/email") (mkAttempt (Some "A@x.com") None None)
             "A@x.com" world_approved eq_refl eq_refl eq_refl eq_refl)))
           "a@x.com" world_joined
           (approveUpdate "inv-0" 61000 2000
              (mkEntry 0 "a@x.com" pending None None (Some 1) None None None
                 None None 0 0)));
      reflexivity.
Defined.

Lemma approveEntry_effect_witness :
  lookup_email (toLowerCase "A@x.com") world_joined
    = Some (mkEntry 0 "a@x.com" pending None None (Some 1) None None None
              None None 0 0) /\
  outcome (approveEntry sample_env sample_opts "A@x.com") world_joined
    = Ok (mkEntry 0 "a@x.com" approved (Some "inv-0") (Some 61000%Z) (Some 1)
            None None (Some 2000%Z) None None 0 2000) /\
  approveEntry sample_env sample_opts "A@x.com" world_registered
    = (Throw (mkAPIError BAD_REQUEST ALREADY_REGISTERED), world_registered).
Proof.
  split; [reflexivity|]. split.
  - apply (proj1 (approveEntry_effect sample_env sample_opts "A@x.com"
             world_joined
             (mkEntry 0 "a@x.com" pending None None (Some 1) None None None
                None None 0 0) eq_refl)).
    discriminate.
  - apply (proj2 (approveEntry_effect sample_env sample_opts "A@x.com"
             world_registered
             (mkEntry 0 "a@x.com" registered (Some "inv-0") (Some 61000%Z)
                (Some 1) None None (Some 2000%Z) None (Some 3000%Z) 0 4000)
             eq_refl)).
    reflexivity.
Defined.

Lemma verifyInviteCode_response_witness :
  unique_invite_codes world_approved /\
  outcome (verifyInviteCode sample_env sample_opts "inv-0") world_approved
    = Ok (mkVerifyResponse true (Some "a@x.com")).
Proof.
  split; [exact world_approved_unique_invite_codes|].
  destruct (verifyInviteCode_response sample_env sample_opts "inv-0"
              world_approved world_approved_unique_invite_codes)
    as (r & Hout & _ & Hvalid & _).
  rewrite Hout. f_equal.
  apply (Hvalid (approveUpdate "inv-0" 61000 2000
                   (mkEntry 0 "a@x.com" pending None None (Some 1) None None
                      None None None 0 0))).
  - left. reflexivity.
  - repeat split. unfold not_expired. simpl. lia.
Defined.

Lemma joinWaitlist_position_witness :
  db empty_world = [] /\
  has_room sample_opts 2 /\
  toLowerCase "a@x.com" <> toLowerCase "b@x.com" /\
  toLowerCase "a@x.com" <> toLowerCase "c@x.com" /\
  toLowerCase "b@x.com" <> toLowerCase "c@x.com" /\
  exists r1 r2 r3,
    outcome (joinWaitlist sample_env sample_opts (join_body "a@x.com"))
      empty_world = Ok r1 /\
    outcome (joinWaitlist sample_env sample_opts (join_body "b@x.com"))
      (run (joinWaitlist sample_env sample_opts (join_body "a@x.com"))
         empty_world) = Ok r2 /\
    outcome (joinWaitlist sample_env sample_opts (join_body "c@x.com"))
      (run (joinWaitlist sample_env sample_opts (join_body "b@x.com"))
         (run (joinWaitlist sample_env sample_opts (join_body "a@x.com"))
            empty_world)) = Ok r3 /\
    jr_position r1 = Some 1 /\ jr_position r2 = Some 2 /\
    jr_position r3 = Some 3.
Proof.
  split; [reflexivity|]. split; [exact I|].
  split; [discriminate|]. split; [discriminate|]. split; [discriminate|].
  apply (proj2 (proj2 (joinWaitlist_position sample_env)) sample_opts
           (join_body "a@x.com") (join_body "b@x.com") (join_body "c@x.com")
           empty_world eq_refl I);
    discriminate.
Defined.

Lemma joinWaitlist_case_insensitive_witness :
  differ_only_by_case "A@x.com" "a@x.com" /\
  outcome (joinWaitlist sample_env sample_opts (join_body "A@x.com"))
    empty_world = Ok (mkJoinResponse 0 "a@x.com" pending (Some 1) 0) /\
  run (joinWaitlist sample_env sample_opts (join_body "A@x.com")) empty_world
    = world_joined /\
  List.length (db world_joined) = 1 /\
  joinWaitlist sample_env sample_opts (join_body "a@x.com") world_joined
    = (Throw (mkAPIError BAD_REQUEST EMAIL_ALREADY_IN_WAITLIST), world_joined).
Proof.
  assert (Hcase : differ_only_by_case "A@x.com" "a@x.com").
  { constructor; [apply (cv_upper_lower 65); lia|].
    repeat (constructor; [apply cv_same|]). constructor. }
  split; [exact Hcase|]. split; [reflexivity|]. split; [reflexivity|].
  apply (proj2 (joinWaitlist_case_insensitive sample_env sample_opts
                  (join_body "A@x.com") (join_body "a@x.com") empty_world
                  Hcase)
           (mkJoinResponse 0 "a@x.com" pending (Some 1) 0) eq_refl).
Defined.


(** Four pending entries at positions 1 to 4 and a count of 2: the entries
    at positions 1 and 2 become approved, those at 3 and 4 stay pending. *)
Example bulkApprove_two_of_four :
  map (fun e => (position e, status e)) (db world_four)
    = [(Some 1, pending); (Some 2, pending); (Some 3, pending);
       (Some 4, pending)] /\
  map (fun e => (position e, status e, inviteCode e))
    (db (run (bulkApprove sample_env sample_opts None (Some 2)) world_four))
    = [(Some 1, approved, Some "inv-0"); (Some 2, approved, Some "inv-1");
       (Some 3, pending, None); (Some 4, pending, None)].
Proof. split; reflexivity. Qed.

Lemma rejectEntry_idempotent_witness :
  lookup_email (toLowerCase "a@x.com") world_rejected
    = Some (mkEntry 0 "a@x.com" rejected (Some "inv-0") (Some 61000%Z)
              (Some 1) None None (Some 2000%Z) (Some 3000%Z) None 0 3000) /\
  exists e',
    outcome (rejectEntry sample_env sample_opts "a@x.com") world_rejected
      = Ok e' /\
    lookup_email (toLowerCase "a@x.com")
      (run (rejectEntry sample_env sample_opts "a@x.com") world_rejected)
      = Some e' /\
    status e' = rejected /\ id e' = 0 /\ email e' = "a@x.com".
Proof.
  split; [reflexivity|].
  apply (rejectEntry_idempotent sample_env sample_opts "a@x.com"
           world_rejected
           (mkEntry 0 "a@x.com" rejected (Some "inv-0") (Some 61000%Z)
              (Some 1) None None (Some 2000%Z) (Some 3000%Z) None 0 3000)
           eq_refl eq_refl).
Defined.

(** The attempt is for [b@x.com], whose entry is pending; the code is the
    one issued to [a@x.com]. *)
Lemma gate_checks_code_only_witness :
  matcher invite_opts (Some "/sign-up/email") = true /\
  requireInviteCode invite_opts = true /\
  unique_invite_codes world_two /\
  option_map status (lookup_email "b@x.com" world_two) = Some pending /\
  outcome (beforeHook sample_env invite_opts (Some "/sign-up/email")
             (mkAttempt (Some "b@x.com") (Some "inv-0") None)) world_two
    = Ok tt /\
  outcome (beforeHook sample_env invite_opts (Some "/sign-up/email")
             (mkAttempt (Some "nobody@x.com") None (Some "inv-0"))) world_two
    = Ok tt.
Proof.
  assert (Husable : usable_invite "inv-0"
            (clock sample_env (clockReads world_two))
            (mkEntry 0 "a@x.com" approved (Some "inv-0") (Some 61000%Z)
               (Some 1) None None (Some 2000%Z) None None 0 2000)).
  { repeat split. unfold not_expired. simpl. lia. }
  split; [reflexivity|]. split; [reflexivity|].
  split; [exact world_two_unique_invite_codes|]. split; [reflexivity|].
  split.
  - apply (proj1 (gate_checks_code_only sample_env invite_opts
             (Some "/sign-up/email")
             (mkAttempt (Some "b@x.com") (Some "inv-0") None) "inv-0"
             world_two
             (mkEntry 0 "a@x.com" approved (Some "inv-0") (Some 61000%Z)
                (Some 1) None None (Some 2000%Z) None None 0 2000)
             eq_refl eq_refl eq_refl world_two_unique_invite_codes
             (or_introl eq_refl) Husable)).
  - apply (proj1 (gate_checks_code_only sample_env invite_opts
             (Some "/sign-up/email")
             (mkAttempt (Some "nobody@x.com") None (Some "inv-0")) "inv-0"
             world_two
             (mkEntry 0 "a@x.com" approved (Some "inv-0") (Some 61000%Z)
                (Some 1) None None (Some 2000%Z) None None 0 2000)
             eq_refl eq_refl eq_refl world_two_unique_invite_codes
             (or_introl eq_refl) Husable)).
Defined.

Lemma bulkApprove_emails_take_precedence_witness :
  bulkApprove sample_env sample_opts (Some ["C@x.com"]) (Some 2) world_four
    = bulkApprove sample_env sample_opts (Some ["C@x.com"]) None world_four /\
  map status
    (db (run (bulkApprove sample_env sample_opts (Some ["C@x.com"]) (Some 2))
           world_four))
    = [pending; pending; approved; pending] /\
  bulkApprove sample_env sample_opts (Some []) None world_four
    = (Ok (mkBulkResponse 0 []), world_four).
Proof.
  split; [|split].
  - apply (proj1 (bulkApprove_emails_take_precedence sample_env sample_opts
             world_four) "C@x.com" [] (Some 2)).
  - reflexivity.
  - apply (proj2 (proj2 (bulkApprove_emails_take_precedence sample_env
             sample_opts world_four)) (Some []) None);
      [right|left]; reflexivity.
Defined.

(** A code issued with a lifetime of 60 seconds at the instant 1000 ms is
    valid at once and up to the instant 61000 ms, and no longer after. *)
Example invite_expires_after_sixty_seconds :
  option_map inviteExpiresAt (lookup_email "a@x.com" world_approved)
    = Some (Some 61000%Z) /\
  outcome (verifyInviteCode sample_env sample_opts "inv-0") world_approved
    = Ok (mkVerifyResponse true (Some "a@x.com")) /\
  outcome (verifyInviteCode sample_env sample_opts "inv-0")
    (at_reading 61 world_approved)
    = Ok (mkVerifyResponse true (Some "a@x.com")) /\
  outcome (verifyInviteCode sample_env sample_opts "inv-0")
    (at_reading 62 world_approved)
    = Ok (mkVerifyResponse false None).
Proof. repeat split; reflexivity. Qed.

(** ** Further properties of the routes and hooks *)

(** *** Errors and edge cases *)

Section EdgeCases.

Variable env : Env.

Lemma existsb_eqb_In : forall (x : string) l,
  existsb (String.eqb x) l = true <-> In x l.
Proof.
  intros x l. rewrite existsb_exists. split.
  - intros (y & Hin & Heq). apply String.eqb_eq in Heq. now subst.
  - intros Hin. exists x. split; [assumption|apply String.eqb_refl].
Qed.

(** X1. An admin route refuses, with [UNAUTHORIZED_ADMIN_ACTION] and before
    its handler runs, a caller whose role is absent, empty or not among
    the accepted ones ([adminRoles], or just ["admin"] when unset); for a
    caller with an accepted role it is its handler. *)
Theorem adminEndpoint_guard :
  forall (A : Type) (opts : WaitlistOptions) (role : option string)
         (h : M A) (w : World),
    (truthy role = None ->
       adminEndpoint opts role h w =
         (Throw (mkAPIError FORBIDDEN UNAUTHORIZED_ADMIN_ACTION), w)) /\
    (forall r, truthy role = Some r ->
       (~ In r (accepted_roles opts) ->
          adminEndpoint opts role h w =
            (Throw (mkAPIError FORBIDDEN UNAUTHORIZED_ADMIN_ACTION), w)) /\
       (In r (accepted_roles opts) -> adminEndpoint opts role h w = h w)).
Proof.
  intros A opts role h w. unfold adminEndpoint, adminMiddleware.
  fold (accepted_roles opts). split.
  - intros ->. reflexivity.
  - intros r ->. split; intros Hin.
    + destruct (existsb (String.eqb r) (accepted_roles opts)) eqn:Hex.
      * apply existsb_eqb_In in Hex. contradiction.
      * reflexivity.
    + apply existsb_eqb_In in Hin. rewrite Hin. run_m.
      destruct (h w) as [[a|err] w']; reflexivity.
Qed.

(** X2. [status], [approve] and [reject] for an email without an entry fail
    with [WAITLIST_ENTRY_NOT_FOUND] (404) and change nothing: no code, no
    clock reading, no notification. *)
Theorem missing_entry_not_found :
  forall (opts : WaitlistOptions) (mail : string) (w : World),
    lookup_email (toLowerCase mail) w = None ->
    getWaitlistStatus opts mail w =
      (Throw (mkAPIError NOT_FOUND WAITLIST_ENTRY_NOT_FOUND), w) /\
    approveEntry env opts mail w =
      (Throw (mkAPIError NOT_FOUND WAITLIST_ENTRY_NOT_FOUND), w) /\
    rejectEntry env opts mail w =
      (Throw (mkAPIError NOT_FOUND WAITLIST_ENTRY_NOT_FOUND), w).
Proof.
  intros opts mail w Hnone. unfold lookup_email in Hnone.
  unfold getWaitlistStatus, approveEntry, rejectEntry. run_m.
  rewrite Hnone. auto.
Qed.

(** X3. With a positive [maxWaitlistSize], a join on a table that has
    reached it fails with [WAITLIST_FULL] and changes nothing (unless the
    email is on the list already, which is reported first), so joins never
    take the table beyond that size; a [maxWaitlistSize] of 0 is no
    limit. *)
Theorem joinWaitlist_respects_max :
  forall (opts : WaitlistOptions) (body : JoinBody) (w : World),
    (forall m, maxWaitlistSize opts = Some (S m) ->
       (S m <= List.length (db w) ->
          lookup_email (toLowerCase (jb_email body)) w = None ->
          joinWaitlist env opts body w =
            (Throw (mkAPIError BAD_REQUEST WAITLIST_FULL), w)) /\
       (S m <= List.length (db w) ->
          forall e, lookup_email (toLowerCase (jb_email body)) w = Some e ->
          joinWaitlist env opts body w =
            (Throw (mkAPIError BAD_REQUEST EMAIL_ALREADY_IN_WAITLIST), w)) /\
       (List.length (db w) <= S m ->
          List.length (db (run (joinWaitlist env opts body) w)) <= S m)) /\
    (maxWaitlistSize opts = Some 0 ->
       lookup_email (toLowerCase (jb_email body)) w = None ->
       exists r, outcome (joinWaitlist env opts body) w = Ok r).
Proof.
  intros opts body w. split.
  - intros m Hmax.
    destruct (joinWaitlist_cases env opts body w) as
      [(x & Hsome & Hthrow) | [(Hnone & Hfull & Hthrow) |
        (Hnone & Hroom & r & e & Hok & Hdb & _)]].
    + split; [intros _ H; congruence|].
      split; [intros _ e _; exact Hthrow|].
      intros Hle. unfold run. now rewrite Hthrow.
    + split; [intros _ _; exact Hthrow|].
      split; [intros _ e H; congruence|].
      intros Hle. unfold run. now rewrite Hthrow.
    + unfold has_room in Hroom. rewrite Hmax in Hroom.
      split; [intros Hle; lia|]. split; [intros Hle; lia|].
      intros _. rewrite Hdb, length_app. simpl. lia.
  - intros Hmax Hnone.
    destruct (joinWaitlist_cases env opts body w) as
      [(x & Hsome & _) | [(_ & Hfull & _) | (_ & _ & r & e & Hok & _)]].
    + congruence.
    + exfalso. apply Hfull. unfold has_room. now rewrite Hmax.
    + eauto.
Qed.

Lemma find_invite_none : forall code (d : list WaitlistEntry),
  (forall e, In e d -> ~ (inviteCode e = Some code /\ status e = approved)) ->
  find (matches [W_inviteCode code; W_status approved]) d = None.
Proof.
  intros code d Hnone.
  destruct (find _ d) as [e|] eqn:Hfind; [|reflexivity].
  apply find_some in Hfind. destruct Hfind as [Hin Hm].
  apply matches_invite in Hm. exfalso. now apply (Hnone e).
Qed.

(** X4. With [requireInviteCode] on and no account for the email, an
    intercepted attempt without a code (none in the body or an empty one,
    and none or an empty one in the header) is denied with
    [INVITE_CODE_REQUIRED]; one whose code no approved entry holds, or
    whose code has expired, is denied with [INVALID_INVITE_CODE].  Nothing
    is written in either case. *)
Theorem gate_invite_code_errors :
  forall (opts : WaitlistOptions) (path : option string) (a : Attempt)
         (w : World),
    matcher opts path = true ->
    requireInviteCode opts = true ->
    no_account (body_email a) w ->
    (js_or (body_inviteCode a) (truthy (header_inviteCode a)) = None ->
       beforeHook env opts path a w =
         (Throw (mkAPIError FORBIDDEN INVITE_CODE_REQUIRED), w)) /\
    (forall code,
       js_or (body_inviteCode a) (truthy (header_inviteCode a)) = Some code ->
       (forall e, In e (db w) ->
          ~ (inviteCode e = Some code /\ status e = approved)) ->
       beforeHook env opts path a w =
         (Throw (mkAPIError FORBIDDEN INVALID_INVITE_CODE), w)) /\
    (forall code e,
       js_or (body_inviteCode a) (truthy (header_inviteCode a)) = Some code ->
       unique_invite_codes w ->
       In e (db w) -> inviteCode e = Some code -> status e = approved ->
       ~ not_expired e (clock env (clockReads w)) ->
       outcome (beforeHook env opts path a) w =
         Throw (mkAPIError FORBIDDEN INVALID_INVITE_CODE) /\
       db (run (beforeHook env opts path a) w) = db w).
Proof.
  intros opts path a w Hpath Hreq Huser.
  assert (Hgate : beforeHook env opts path a w =
    match js_or (body_inviteCode a) (truthy (header_inviteCode a)) with
    | None => (Throw (mkAPIError FORBIDDEN INVITE_CODE_REQUIRED), w)
    | Some code =>
        match find (matches [W_inviteCode code; W_status approved]) (db w) with
        | None => (Throw (mkAPIError FORBIDDEN INVALID_INVITE_CODE), w)
        | Some e =>
            bind (isExpired env e)
              (fun expired =>
                 if expired then throw FORBIDDEN INVALID_INVITE_CODE
                 else ret tt) w
        end
    end).
  { unfold beforeHook, handler, no_account in *. rewrite Hpath, Hreq.
    destruct (truthy (body_email a)) as [mail|]; run_m; rewrite ?Huser;
      destruct (js_or (body_inviteCode a) (truthy (header_inviteCode a)));
      try reflexivity;
      destruct (find _ (db w)); reflexivity. }
  rewrite Hgate. split; [|split].
  - now intros ->.
  - intros code -> Hnone. now rewrite (find_invite_none code (db w) Hnone).
  - intros code e Hjs Huniq Hin Hcode Hst Hexp.
    unfold outcome, run. rewrite Hgate, Hjs.
    destruct (find (matches [W_inviteCode code; W_status approved]) (db w))
      as [e0|] eqn:Hfind.
    + assert (e = e0) by (eapply invite_lookup_unique; eauto). subst e0.
      destruct (isExpired_run env e w) as (b & w' & Hrun & Hdb & Hb).
      unfold bind. rewrite Hrun.
      destruct b; [split; [reflexivity|exact Hdb]|].
      exfalso. apply Hexp. now apply Hb.
    + exfalso. pose proof (find_none _ _ Hfind e Hin) as Hm.
      assert (matches [W_inviteCode code; W_status approved] e = true)
        by (apply matches_invite; auto).
      congruence.
Qed.

(** X5. The gate never stands in the way of a login: when an account
    exists for the email of the attempt, the handler admits it without
    looking at the waitlist, invite code required or not.  It also admits
    an attempt without an email when no invite code is required, and it
    does not run at all on a path the matcher does not select, which is
    every path once the plugin is disabled. *)
Theorem gate_lets_through :
  forall (opts : WaitlistOptions) (path : option string) (a : Attempt)
         (w : World),
    (forall mail, truthy (body_email a) = Some mail ->
       existsb (String.eqb (toLowerCase mail)) (users w) = true ->
       beforeHook env opts path a w = (Ok tt, w)) /\
    (truthy (body_email a) = None -> requireInviteCode opts = false ->
       beforeHook env opts path a w = (Ok tt, w)) /\
    (matcher opts path = false -> beforeHook env opts path a w = (Ok tt, w)) /\
    (enabled opts = false -> matcher opts path = false).
Proof.
  intros opts path a w. unfold beforeHook, handler.
  split; [|split; [|split]].
  - intros mail Hmail Huser. rewrite Hmail.
    destruct (matcher opts path); [|reflexivity].
    run_m. now rewrite Huser.
  - intros Hmail Hreq. rewrite Hmail, Hreq.
    destruct (matcher opts path); reflexivity.
  - now intros ->.
  - intros Hoff. unfold matcher. now rewrite Hoff.
Qed.

Lemma prefix_append : forall q p s,
  prefix q p = true -> prefix q (String.append p s) = true.
Proof.
  induction q as [|c q IH]; intros p s H.
  - now destruct (String.append p s).
  - destruct p as [|d p]; simpl in *; [discriminate|].
    destruct (ascii_dec c d); [now apply IH|discriminate].
Qed.

Lemma prefix_refl : forall p, prefix p p = true.
Proof.
  induction p as [|c p IH]; simpl; [reflexivity|].
  destruct (ascii_dec c c); [assumption|contradiction].
Qed.

(** X6. The matcher selects a path exactly when the plugin is enabled and
    one of the intercepted paths ([interceptPaths], or the default list)
    is a prefix of it; so every extension of a selected path, such as a
    provider name after ["/callback/"], is selected too.  A request
    without a path is never selected. *)
Theorem matcher_by_prefix :
  forall (opts : WaitlistOptions) (p : string),
    (matcher opts (Some p) = true <->
       enabled opts = true /\
       exists q, In q (intercepted_paths opts) /\ prefix q p = true) /\
    (forall s, matcher opts (Some p) = true ->
       matcher opts (Some (String.append p s)) = true) /\
    matcher opts None = false.
Proof.
  intros opts p.
  assert (Hiff : forall x, matcher opts (Some x) = true <->
            enabled opts = true /\
            exists q, In q (intercepted_paths opts) /\ prefix q x = true).
  { intros x. unfold matcher. fold (intercepted_paths opts).
    destruct (enabled opts); simpl.
    - rewrite existsb_exists. split.
      + intros (q & Hin & Hq). split; [reflexivity|]. exists q.
        split; [assumption|].
        apply orb_true_iff in Hq. destruct Hq as [Heq|Hpre]; [|assumption].
        apply String.eqb_eq in Heq. subst. apply prefix_refl.
      + intros (_ & q & Hin & Hq). exists q. split; [assumption|].
        apply orb_true_iff. now right.
    - split; [discriminate|]. intros [H _]. discriminate. }
  split; [apply Hiff|]. split.
  - intros s Hm. apply Hiff in Hm. destruct Hm as (Hen & q & Hin & Hq).
    apply Hiff. split; [assumption|]. exists q.
    split; [assumption|now apply prefix_append].
  - unfold matcher. destruct (enabled opts); reflexivity.
Qed.

End EdgeCases.

(** *** Statistics and listing *)

Section Queries.

Lemma filter_status_ext : forall s (d : list WaitlistEntry),
  filter (matches [W_status s]) d =
  filter (fun e => WaitlistStatus_eqb (status e) s) d.
Proof.
  intros s d. apply filter_ext. intros e. simpl. apply andb_true_r.
Qed.

Lemma length_by_status : forall d : list WaitlistEntry,
  List.length d =
    List.length (filter (fun e => WaitlistStatus_eqb (status e) pending) d) +
    List.length (filter (fun e => WaitlistStatus_eqb (status e) approved) d) +
    List.length (filter (fun e => WaitlistStatus_eqb (status e) rejected) d) +
    List.length (filter (fun e => WaitlistStatus_eqb (status e) registered) d).
Proof.
  induction d as [|e d IH]; simpl; [reflexivity|].
  destruct (status e); simpl; lia.
Qed.

(** X7. [stats] reads the table without changing anything, counts each
    status, and its [total] is the sum of the four counts: every entry is
    in exactly one of them. *)
Theorem getWaitlistStats_sum :
  forall (opts : WaitlistOptions) (w : World),
    exists r,
      getWaitlistStats opts w = (Ok r, w) /\
      st_total r = List.length (db w) /\
      st_pending r = count_status pending w /\
      st_approved r = count_status approved w /\
      st_rejected r = count_status rejected w /\
      st_registered r = count_status registered w /\
      st_total r = st_pending r + st_approved r + st_rejected r
                   + st_registered r.
Proof.
  intros opts w. unfold getWaitlistStats, count_status. run_m.
  rewrite filter_matches_nil, !filter_status_ext.
  eexists. split; [reflexivity|]. cbn [st_total st_pending st_approved
    st_rejected st_registered].
  repeat split. apply length_by_status.
Qed.

Lemma ceil_div_upper : forall a b, 0 < b -> a <= ceil_div a b * b.
Proof.
  intros a b Hb. unfold ceil_div.
  pose proof (Nat.div_mod_eq a b) as Heq.
  pose proof (Nat.mod_upper_bound a b ltac:(lia)) as Hlt.
  destruct (a mod b =? 0) eqn:Hm.
  - apply Nat.eqb_eq in Hm. nia.
  - nia.
Qed.

Lemma ceil_div_lower : forall a b,
  0 < b -> 0 < a -> (ceil_div a b - 1) * b < a.
Proof.
  intros a b Hb Ha. unfold ceil_div.
  pose proof (Nat.div_mod_eq a b) as Heq.
  destruct (a mod b =? 0) eqn:Hm.
  - apply Nat.eqb_eq in Hm.
    assert (0 < a / b) by (destruct (a / b); [nia|lia]).
    nia.
  - apply Nat.eqb_neq in Hm. simpl. rewrite Nat.sub_0_r. nia.
Qed.

Lemma ceil_div_zero : forall b, 0 < b -> ceil_div 0 b = 0.
Proof.
  intros b Hb. unfold ceil_div.
  rewrite Nat.Div0.mod_0_l, Nat.Div0.div_0_l. reflexivity.
Qed.

Lemma listWaitlist_run : forall opts q w,
  listWaitlist opts q w =
    (Ok (mkListResponse
           (firstn (page_size q)
              (skipn ((page_number q - 1) * page_size q) (listing q w)))
           (List.length (listing q w)) (page_number q)
           (ceil_div (List.length (listing q w)) (page_size q))), w).
Proof.
  intros opts q w. unfold listWaitlist, findManyPage, listing. run_m.
  now rewrite (Permutation_length (sort_by_perm _ _)).
Qed.

(** X8. [list] reads the table without changing it and returns one page of
    the filtered, sorted listing: at most [limit] entries (20 by default),
    all from the table and all with the status asked for; [total] counts
    the whole listing and [totalPages] is the least number of pages of
    that size that hold it.  A page before the last is full, the last one
    is not empty, and a page past the last is empty. *)
Theorem listWaitlist_page :
  forall (opts : WaitlistOptions) (q : ListQuery) (w : World),
    1 <= page_number q -> 1 <= page_size q ->
    exists r,
      listWaitlist opts q w = (Ok r, w) /\
      lr_page r = page_number q /\
      lr_total r = List.length (listing q w) /\
      List.length (lr_entries r) <= page_size q /\
      (forall e, In e (lr_entries r) ->
         In e (db w) /\ forall s, lq_status q = Some s -> status e = s) /\
      lr_total r <= lr_totalPages r * page_size q /\
      (0 < lr_total r -> (lr_totalPages r - 1) * page_size q < lr_total r) /\
      (lr_total r = 0 -> lr_totalPages r = 0) /\
      (page_number q < lr_totalPages r ->
         List.length (lr_entries r) = page_size q) /\
      (page_number q = lr_totalPages r -> lr_entries r <> []) /\
      (lr_totalPages r < page_number q -> lr_entries r = []).
Proof.
  intros opts q w Hpage Hsize.
  eexists. split; [apply listWaitlist_run|].
  cbn [lr_entries lr_total lr_page lr_totalPages].
  set (l := listing q w). set (n := page_size q) in *.
  set (p := page_number q) in *.
  pose proof (ceil_div_upper (List.length l) n ltac:(lia)) as Hup.
  split; [reflexivity|]. split; [reflexivity|].
  split; [apply firstn_le_length|].
  split.
  { intros e He. apply In_firstn_In in He.
    assert (Hin : In e l).
    { rewrite <- (firstn_skipn ((p - 1) * n) l). apply in_or_app. now right. }
    unfold l, listing in Hin.
    apply (Permutation_in _ (sort_by_perm _ _)) in Hin.
    apply filter_In in Hin. destruct Hin as [Hdb Hm].
    split; [assumption|]. intros s Hs. rewrite Hs in Hm.
    simpl in Hm. rewrite andb_true_r in Hm. now apply status_eqb_eq. }
  split; [assumption|].
  split; [intros Hpos; apply ceil_div_lower; lia|].
  split; [intros H0; rewrite H0; apply ceil_div_zero; lia|].
  split.
  { intros Hlt. rewrite length_firstn, length_skipn.
    assert (0 < List.length l).
    { destruct (List.length l) eqn:Hl; [|lia].
      rewrite ceil_div_zero in Hlt by lia. lia. }
    pose proof (ceil_div_lower (List.length l) n ltac:(lia) ltac:(lia)).
    nia. }
  split.
  { intros Heq Hnil.
    assert (Hlen : List.length
              (firstn n (skipn ((p - 1) * n) l)) = 0) by now rewrite Hnil.
    rewrite length_firstn, length_skipn in Hlen.
    assert (0 < List.length l).
    { destruct (List.length l) eqn:Hl; [|lia].
      rewrite ceil_div_zero in Heq by lia. lia. }
    pose proof (ceil_div_lower (List.length l) n ltac:(lia) ltac:(lia)).
    rewrite <- Heq in *. nia. }
  intros Hlt. rewrite skipn_all2; [now rewrite firstn_nil|]. nia.
Qed.

Lemma chunks_cover : forall (n k : nat) (l : list WaitlistEntry),
  0 < n -> List.length l <= k * n ->
  flat_map (fun i => firstn n (skipn (i * n) l)) (seq 0 k) = l.
Proof.
  intros n k. induction k as [|k IH]; intros l Hn Hlen.
  - destruct l; [reflexivity|simpl in Hlen; lia].
  - cbn [seq flat_map]. rewrite <- seq_shift.
    rewrite flat_map_concat_map, map_map, <- flat_map_concat_map.
    rewrite (flat_map_ext _ (fun i => firstn n (skipn (i * n) (skipn n l)))).
    + rewrite IH; [|assumption|rewrite length_skipn; nia].
      simpl. apply firstn_skipn.
    + intros i. rewrite skipn_skipn. f_equal. f_equal. lia.
Qed.

(** X9. The pages of a listing partition it: for a given filter, order
    and page size, the entries of pages 1 to [totalPages], put end to end,
    are the whole listing, each entry once and in order. *)
Theorem listWaitlist_pages_cover :
  forall (opts : WaitlistOptions) (q : ListQuery) (w : World),
    1 <= page_size q ->
    flat_map (fun p => entries_of_page opts q p w)
      (seq 1 (ceil_div (List.length (listing q w)) (page_size q)))
    = listing q w.
Proof.
  intros opts q w Hsize.
  rewrite <- seq_shift, flat_map_concat_map, map_map, <- flat_map_concat_map.
  rewrite (flat_map_ext _
    (fun i => firstn (page_size q) (skipn (i * page_size q) (listing q w)))).
  - apply chunks_cover; [lia|]. apply ceil_div_upper. lia.
  - intros i. unfold entries_of_page, outcome.
    rewrite listWaitlist_run. cbn [fst lr_entries].
    unfold page_size, page_number, listing, on_page.
    cbn [lq_status lq_page lq_limit lq_sortBy lq_sortDirection].
    replace (S i - 1) with i by lia. reflexivity.
Qed.

End Queries.

(** *** Invariants of the table *)

Section Invariants.

Variable env : Env.

Lemma lower_ascii_idempotent : forall c,
  lower_ascii (lower_ascii c) = lower_ascii c.
Proof.
  intros c.
  assert (Hcases : lower_ascii c = c \/
            (65 <= nat_of_ascii c <= 90 /\
             lower_ascii c = ascii_of_nat (nat_of_ascii c + 32))).
  { unfold lower_ascii. cbv zeta.
    destruct ((65 <=? nat_of_ascii c) && (nat_of_ascii c <=? 90)) eqn:Hc;
      [|now left].
    right. apply andb_true_iff in Hc. destruct Hc as [H1 H2].
    apply Nat.leb_le in H1, H2. auto. }
  destruct Hcases as [Hsame | [Hrange Hlow]]; [now rewrite Hsame|].
  rewrite Hlow. unfold lower_ascii. cbv zeta.
  rewrite nat_ascii_embedding by lia.
  replace ((65 <=? nat_of_ascii c + 32) && (nat_of_ascii c + 32 <=? 90))
    with false; [reflexivity|].
  symmetry. apply andb_false_iff. right. apply Nat.leb_gt. lia.
Qed.

Lemma toLowerCase_idempotent : forall s,
  toLowerCase (toLowerCase s) = toLowerCase s.
Proof.
  induction s as [|c s IH]; simpl; [reflexivity|].
  now rewrite lower_ascii_idempotent, IH.
Qed.

(** [patch_first] changes the table at one place at most. *)
Lemma patch_first_index : forall p f (d : list WaitlistEntry),
  (find p d = None /\ patch_first p f d = d) \/
  (exists i0 e0,
     nth_error d i0 = Some e0 /\ find p d = Some e0 /\
     nth_error (patch_first p f d) i0 = Some (f e0) /\
     forall i, i <> i0 -> nth_error (patch_first p f d) i = nth_error d i).
Proof.
  intros p f d. induction d as [|x d IH]; simpl; [now left|].
  destruct (p x) eqn:Hp.
  - right. exists 0, x. repeat split; auto.
    intros [|i] Hi; [contradiction|reflexivity].
  - destruct IH as [[Hnone Hsame] | (i0 & e0 & Hi0 & Hfind & Hpatched & Hrest)].
    + left. now rewrite Hsame.
    + right. exists (S i0), e0. repeat split; auto.
      intros [|i] Hi; [reflexivity|]. simpl. apply Hrest. lia.
Qed.

Lemma find_email_none_notin : forall m (d : list WaitlistEntry),
  find (matches [W_email m]) d = None -> ~ In m (map email d).
Proof.
  intros m d Hnone Hin. apply in_map_iff in Hin.
  destruct Hin as (e & Hmail & Hin).
  pose proof (find_none _ _ Hnone e Hin) as Hm. simpl in Hm.
  rewrite Hmail, String.eqb_refl in Hm. discriminate.
Qed.

Lemma NoDup_snoc : forall (A : Type) (l : list A) x,
  NoDup l -> ~ In x l -> NoDup (l ++ [x]).
Proof.
  intros A l x Hnd Hnot.
  apply (Permutation_NoDup (Permutation_cons_append l x)).
  now constructor.
Qed.

(** The entries of a patched table are those of the old one, one of them
    possibly patched. *)
Lemma patch_first_In : forall p f (d : list WaitlistEntry) x,
  In x (patch_first p f d) -> In x d \/ exists y, In y d /\ x = f y.
Proof.
  intros p f d. induction d as [|y d IH]; intros x Hin; simpl in *;
    [contradiction|].
  destruct (p y).
  - destruct Hin as [<-|Hin]; [right; exists y; auto|auto].
  - destruct Hin as [<-|Hin]; [auto|].
    destruct (IH x Hin) as [H|(z & Hz & ->)]; [auto|].
    right. exists z. auto.
Qed.

(** A step of a core operation keeps the table well formed. *)
Lemma world_step_well_formed : forall w w',
  world_step env w w' -> well_formed w -> well_formed w'.
Proof.
  intros w w' Hstep (Hids & Hfresh & Hmails & Hnorm).
  unfold well_formed, unique_ids, ids_fresh, emails_unique,
    emails_normalized in *.
  destruct Hstep as
    [Hdb Hnext _ | p f Hf Hdb Hnext _ | p x t Hdb Hnext _
     | e Hdb Hid Hnext Hlow Hnone _].
  - rewrite Hdb, Hnext. auto.
  - rewrite Hdb, Hnext.
    rewrite !patch_first_map_field by (intros e; apply Hf).
    repeat split; auto.
    + intros e He. destruct (patch_first_In p f (db w) e He)
        as [Hin|(y & Hy & ->)]; [auto|].
      destruct (Hf y) as (-> & _). auto.
    + intros e He. destruct (patch_first_In p f (db w) e He)
        as [Hin|(y & Hy & ->)]; [auto|].
      destruct (Hf y) as (_ & -> & _). auto.
  - rewrite Hdb, Hnext.
    rewrite !patch_first_map_field by reflexivity.
    repeat split; auto.
    + intros e He. destruct (patch_first_In _ _ (db w) e He)
        as [Hin|(y & Hy & ->)]; simpl; auto.
    + intros e He. destruct (patch_first_In _ _ (db w) e He)
        as [Hin|(y & Hy & ->)]; simpl; auto.
  - rewrite Hdb, Hnext, !map_app. simpl. repeat split.
    + apply NoDup_snoc; [assumption|]. intros Hin.
      apply in_map_iff in Hin. destruct Hin as (y & Hy & Hin).
      specialize (Hfresh y Hin). lia.
    + intros y Hy. apply in_app_or in Hy.
      destruct Hy as [Hy|[<-|[]]]; [specialize (Hfresh y Hy)|]; lia.
    + apply NoDup_snoc; [assumption|]. now apply find_email_none_notin.
    + intros y Hy. apply in_app_or in Hy.
      destruct Hy as [Hy|[<-|[]]]; auto.
Qed.

Lemma nth_error_snoc : forall (d : list WaitlistEntry) e i x,
  nth_error (d ++ [e]) i = Some x ->
  (i < List.length d /\ nth_error d i = Some x) \/
  (i = List.length d /\ x = e).
Proof.
  intros d e i x H.
  destruct (Nat.lt_ge_cases i (List.length d)) as [Hlt|Hge].
  - left. split; [assumption|]. now rewrite nth_error_app1 in H.
  - right. rewrite nth_error_app2 in H by assumption.
    destruct (i - List.length d) as [|k] eqn:Hk; simpl in H.
    + injection H as <-. split; [lia|reflexivity].
    + destruct k; discriminate.
Qed.

(** With a UUID source that never repeats, a step of a core operation
    keeps the invite codes unique and drawn from the source. *)
Lemma world_step_codes : forall w w',
  uuid_injective env ->
  world_step env w w' -> invite_codes_sound env w ->
  invite_codes_sound env w'.
Proof.
  intros w w' Hinj Hstep (Huniq & Hdrawn).
  unfold invite_codes_sound, unique_invite_codes, codes_drawn in *.
  destruct Hstep as
    [Hdb Hnext Hu | p f Hf Hdb Hnext Hu | p x t Hdb Hnext Hu
     | e Hdb Hid Hnext Hlow Hnone Hcode].
  - rewrite Hdb. split; [assumption|].
    intros e c He Hc. destruct (Hdrawn e c He Hc) as (k & Hk & ->).
    exists k. split; [lia|reflexivity].
  - assert (Hback : forall i y, nth_error (db w') i = Some y ->
              exists z, nth_error (db w) i = Some z /\
                        inviteCode y = inviteCode z).
    { intros i y Hy. rewrite Hdb in Hy.
      destruct (nth_error (db w) i) as [z|] eqn:Hz.
      - exists z. split; [reflexivity|].
        destruct (patch_first_nth p f (db w) i z Hz) as [H|[_ H]];
          rewrite H in Hy; injection Hy as <-; [reflexivity|].
        apply Hf.
      - apply nth_error_None in Hz.
        rewrite <- (patch_first_length p f) in Hz.
        apply nth_error_None in Hz. congruence. }
    split.
    + intros i j e1 e2 c H1 H2 Hc1 Hc2.
      destruct (Hback i e1 H1) as (z1 & Hz1 & Heq1).
      destruct (Hback j e2 H2) as (z2 & Hz2 & Heq2).
      apply (Huniq i j z1 z2 c); congruence.
    + intros y c Hy Hc. destruct (In_nth_error _ _ Hy) as [i Hi].
      destruct (Hback i y Hi) as (z & Hz & Heq).
      destruct (Hdrawn z c (nth_error_In _ _ Hz)) as (k & Hk & ->);
        [congruence|].
      exists k. split; [lia|reflexivity].
  - set (c0 := uuid env (uuidReads w)) in *.
    assert (Hold : forall z c, In z (db w) -> inviteCode z = Some c -> c <> c0).
    { intros z c Hz Hc Heq. destruct (Hdrawn z c Hz Hc) as (k & Hk & ->).
      apply Hinj in Heq. lia. }
    destruct (patch_first_index p (approveUpdate c0 x t) (db w))
      as [[_ Hsame] | (i0 & e0 & Hi0 & _ & Hpatched & Hrest)].
    + rewrite Hdb, Hsame. split; [assumption|].
      intros e c He Hc. destruct (Hdrawn e c He Hc) as (k & Hk & ->).
      exists k. split; [lia|reflexivity].
    + rewrite Hdb. split.
      * intros i j e1 e2 c H1 H2 Hc1 Hc2.
        destruct (Nat.eq_dec i i0) as [->|Hi], (Nat.eq_dec j i0) as [->|Hj];
          [reflexivity| | |].
        -- rewrite Hpatched in H1. injection H1 as <-. simpl in Hc1.
           injection Hc1 as <-. rewrite (Hrest j Hj) in H2.
           exfalso. now apply (Hold e2 c0 (nth_error_In _ _ H2) Hc2).
        -- rewrite Hpatched in H2. injection H2 as <-. simpl in Hc2.
           injection Hc2 as <-. rewrite (Hrest i Hi) in H1.
           exfalso. now apply (Hold e1 c0 (nth_error_In _ _ H1) Hc1).
        -- rewrite (Hrest i Hi) in H1. rewrite (Hrest j Hj) in H2.
           now apply (Huniq i j e1 e2 c).
      * intros y c Hy Hc. destruct (In_nth_error _ _ Hy) as [i Hi].
        destruct (Nat.eq_dec i i0) as [->|Hne].
        -- rewrite Hpatched in Hi. injection Hi as <-. simpl in Hc.
           injection Hc as <-. exists (uuidReads w). split; [lia|reflexivity].
        -- rewrite (Hrest i Hne) in Hi.
           destruct (Hdrawn y c (nth_error_In _ _ Hi) Hc) as (k & Hk & ->).
           exists k. split; [lia|reflexivity].
  - rewrite Hdb. split.
    + intros i j e1 e2 c H1 H2 Hc1 Hc2.
      destruct (nth_error_snoc _ _ _ _ H1) as [[Hi H1']|[Hi ->]],
               (nth_error_snoc _ _ _ _ H2) as [[Hj H2']|[Hj ->]].
      * now apply (Huniq i j e1 e2 c).
      * exfalso. destruct Hcode as [[Hn _]|[Hs _]]; [congruence|].
        destruct (Hdrawn e1 c (nth_error_In _ _ H1') Hc1) as (k & Hk & ->).
        rewrite Hs in Hc2. injection Hc2 as Heq. apply Hinj in Heq. lia.
      * exfalso. destruct Hcode as [[Hn _]|[Hs _]]; [congruence|].
        destruct (Hdrawn e2 c (nth_error_In _ _ H2') Hc2) as (k & Hk & ->).
        rewrite Hs in Hc1. injection Hc1 as Heq. apply Hinj in Heq. lia.
      * lia.
    + intros y c Hy Hc. apply in_app_or in Hy.
      destruct Hy as [Hy|[<-|[]]].
      * destruct (Hdrawn y c Hy Hc) as (k & Hk & ->).
        exists k. split; [|reflexivity].
        destruct Hcode as [[_ Hu]|[_ Hu]]; lia.
      * destruct Hcode as [[Hn _]|[Hs Hu]]; [congruence|].
        rewrite Hs in Hc. injection Hc as <-.
        exists (uuidReads w). split; [lia|reflexivity].
Qed.

End Invariants.

Section Preservation.

Variable env : Env.

Lemma joinWaitlist_step : forall opts body w,
  world_step env w (run (joinWaitlist env opts body) w).
Proof.
  intros opts body w. unfold joinWaitlist, decideOnJoin. run_m.
  destruct (find _ (db w)) eqn:Hfind;
    [apply step_same; cbn; auto|].
  assert (Hlen : forall d : list WaitlistEntry,
    List.length (filter (matches []) d) = List.length d)
    by (intros d; now rewrite filter_matches_nil).
  destruct (maxWaitlistSize opts) as [[|m]|]; run_m;
    rewrite ?Hlen;
    try (destruct (S m <=? List.length (db w)); run_m;
         [apply step_same; cbn; auto|]);
    (destruct (autoApprove opts) as [| |g];
      try destruct (g (toLowerCase (jb_email body))); run_m;
      try destruct (truthy (Some (uuid env (uuidReads w)))); run_m;
      destruct (onJoinWaitlist opts), (sendInviteEmail opts),
        (onApproved opts); run_m;
      eapply step_insert;
      cbn [db nextId uuidReads id email inviteCode];
      first [ reflexivity | apply toLowerCase_idempotent | exact Hfind
            | left; split; [reflexivity|simpl; lia]
            | right; split; reflexivity ]).
Qed.

Lemma approveEntry_step : forall opts mail w,
  world_step env w (run (approveEntry env opts mail) w).
Proof.
  intros opts mail w. unfold approveEntry. run_m.
  destruct (find _ (db w)) as [e|]; run_m; [|apply step_same; cbn; auto].
  destruct (WaitlistStatus_eqb (status e) registered); run_m;
    [apply step_same; cbn; auto|].
  destruct (sendInviteEmail opts), (onApproved opts); run_m;
    eapply step_issue; cbn [db nextId uuidReads]; reflexivity.
Qed.

Lemma rejectEntry_step : forall opts mail w,
  world_step env w (run (rejectEntry env opts mail) w).
Proof.
  intros opts mail w. unfold rejectEntry. run_m.
  destruct (find _ (db w)) as [e|]; run_m; [|apply step_same; cbn; auto].
  destruct (onRejected opts); run_m;
    (eapply step_keep with (f := rejectUpdate (clock env (clockReads w)));
     cbn [db nextId uuidReads];
     first [reflexivity | lia | intros x; cbn; auto]).
Qed.

Lemma userCreateAfter_step : forall opts user ctx w,
  world_step env w (run (userCreateAfter env opts user ctx) w).
Proof.
  intros opts user ctx w. unfold userCreateAfter.
  destruct (enabled opts); simpl; [|apply step_same; cbn; auto].
  destruct (truthy (user_email user)) as [mail|];
    [|apply step_same; cbn; auto].
  destruct ctx; simpl; [|apply step_same; cbn; auto].
  run_m. destruct (find _ (db w)) as [e|]; run_m;
    [|apply step_same; cbn; auto].
  eapply step_keep with
    (f := registeredUpdate (clock env (clockReads w))
            (clock env (S (clockReads w))));
    cbn [db nextId uuidReads];
    first [reflexivity | lia | intros x; cbn; auto].
Qed.

Lemma approveOne_step : forall opts where_ mail e w,
  exists u w',
    approveOne env opts where_ mail e w = (Ok u, w') /\
    world_step env w w'.
Proof.
  intros opts where_ mail e w. unfold approveOne. run_m.
  destruct (sendInviteEmail opts), (onApproved opts); run_m;
    do 2 eexists; (split; [reflexivity|]);
    eapply step_issue; cbn [db nextId uuidReads]; reflexivity.
Qed.

Section Stable.

(** A property of worlds that every step keeps. *)
Variable P : World -> Prop.
Hypothesis P_step : forall w w', world_step env w w' -> P w -> P w'.

Lemma approveEmails_stable : forall opts emails acc w,
  P w -> P (run (approveEmails env opts emails acc) w).
Proof.
  intros opts emails.
  induction emails as [|mail rest IH]; intros acc w Hw; simpl.
  - exact Hw.
  - run_m. destruct (find _ (db w)) as [e|]; [|now apply IH].
    destruct (WaitlistStatus_eqb (status e) pending); [|now apply IH].
    destruct (approveOne_step opts [W_email (toLowerCase mail)]
                (toLowerCase mail) e w) as (u & w1 & -> & Hstep).
    apply IH. now apply (P_step w w1).
Qed.

Lemma approvePending_stable : forall opts l acc w,
  P w -> P (run (approvePending env opts l acc) w).
Proof.
  intros opts l.
  induction l as [|e rest IH]; intros acc w Hw; simpl.
  - exact Hw.
  - run_m.
    destruct (approveOne_step opts [W_id (id e)] (email e) e w)
      as (u & w1 & -> & Hstep).
    apply IH. now apply (P_step w w1).
Qed.

Lemma perform_stable : forall opts op w,
  P w -> P (run (perform env opts op) w).
Proof.
  intros opts op w Hw. destruct op as [body|mail|mail|emails count_|user];
    unfold perform; rewrite ?(run_bind_ret _ _ _ (fun _ => tt)).
  - eapply P_step; [apply joinWaitlist_step|assumption].
  - eapply P_step; [apply approveEntry_step|assumption].
  - eapply P_step; [apply rejectEntry_step|assumption].
  - destruct (bulkApprove_branches env opts emails count_ w)
      as [(mail & rest & _ & ->) | [(n & _ & ->) | ->]].
    + now apply approveEmails_stable.
    + now apply approvePending_stable.
    + assumption.
  - eapply P_step; [apply userCreateAfter_step|assumption].
Qed.

End Stable.

(** X10. The table stays well formed under every core operation: ids
    unique and below the store's generator, one entry per email, every
    email in lower case.  The empty table is well formed, so every table
    built by the operations is. *)
Theorem perform_keeps_well_formed :
  (forall w, db w = [] -> well_formed w) /\
  (forall (opts : WaitlistOptions) (op : Operation) (w : World),
     well_formed w -> well_formed (run (perform env opts op) w)).
Proof.
  split.
  - intros w Hempty.
    unfold well_formed, unique_ids, ids_fresh, emails_unique,
      emails_normalized.
    rewrite Hempty. simpl. repeat split; try constructor; contradiction.
  - intros opts op w. apply perform_stable.
    intros w1 w2. apply world_step_well_formed.
Qed.

(** X11. With a UUID source that never repeats, invite codes stay unique
    across the table, and each is a UUID that was drawn, under every core
    operation; the store's unique constraint on [inviteCode] is never put
    to the test. *)
Theorem perform_keeps_invite_codes_unique :
  uuid_injective env ->
  (forall w, db w = [] -> invite_codes_sound env w) /\
  (forall (opts : WaitlistOptions) (op : Operation) (w : World),
     invite_codes_sound env w ->
     invite_codes_sound env (run (perform env opts op) w)).
Proof.
  intros Hinj. split.
  - intros w Hempty. unfold invite_codes_sound, unique_invite_codes,
      codes_drawn.
    rewrite Hempty. split.
    + intros [|i] j e1 e2 c H; discriminate.
    + intros e c [].
  - intros opts op w. apply perform_stable.
    intros w1 w2. now apply world_step_codes.
Qed.

End Preservation.

(** *** Joining *)

Section Joining.

Variable env : Env.

(** The entry a successful join creates. *)
Lemma joinWaitlist_created : forall opts body w r w1,
  joinWaitlist env opts body w = (Ok r, w1) ->
  exists e,
    db w1 = db w ++ [e] /\
    r = mkJoinResponse (id e) (email e) (status e) (position e) (createdAt e) /\
    lookup_email (toLowerCase (jb_email body)) w = None /\
    id e = nextId w /\
    email e = toLowerCase (jb_email body) /\
    position e = Some (List.length (db w) + 1) /\
    referredBy e = jb_referredBy body /\
    metadata e = jb_metadata body /\
    rejectedAt e = None /\ registeredAt e = None /\
    updatedAt e = createdAt e /\
    (should_approve opts (toLowerCase (jb_email body)) = false ->
       status e = pending /\ inviteCode e = None /\
       inviteExpiresAt e = None /\ approvedAt e = None /\
       createdAt e = clock env (clockReads w) /\
       uuidReads w1 = uuidReads w) /\
    (should_approve opts (toLowerCase (jb_email body)) = true ->
       status e = approved /\
       inviteCode e = Some (uuid env (uuidReads w)) /\
       inviteExpiresAt e =
         Some (clock env (clockReads w) + expSeconds opts * 1000)%Z /\
       approvedAt e = Some (clock env (S (clockReads w))) /\
       createdAt e = clock env (S (S (clockReads w))) /\
       uuidReads w1 = S (uuidReads w)).
Proof.
  intros opts body w r w1.
  unfold joinWaitlist, decideOnJoin, should_approve. run_m.
  destruct (find _ (db w)) eqn:Hfind; [discriminate|].
  assert (Hlen : forall d : list WaitlistEntry,
    List.length (filter (matches []) d) = List.length d)
    by (intros d; now rewrite filter_matches_nil).
  destruct (maxWaitlistSize opts) as [[|m]|]; run_m;
    rewrite ?Hlen;
    try (destruct (S m <=? List.length (db w)); run_m; [discriminate|]);
    (destruct (autoApprove opts) as [| |g];
      try destruct (g (toLowerCase (jb_email body))); run_m;
      try destruct (truthy (Some (uuid env (uuidReads w)))); run_m;
      destruct (onJoinWaitlist opts), (sendInviteEmail opts),
        (onApproved opts); run_m;
      rewrite ?Hlen;
      intros H; injection H as <- <-;
      eexists; repeat split; try reflexivity; discriminate).
Qed.

Lemma find_email_snoc_some : forall (d : list WaitlistEntry) e,
  find (matches [W_email (email e)]) d = None ->
  find (matches [W_email (email e)]) (d ++ [e]) = Some e.
Proof.
  intros d e Hnone. rewrite find_email_last by assumption.
  now rewrite String.eqb_refl.
Qed.

(** X12. A successful join stores the lower-cased email with the referral
    and metadata as given, and [status] for that email, in any letter
    case, then reports the status and position of the join response,
    without changing anything. *)
Theorem join_then_status :
  forall (opts : WaitlistOptions) (body : JoinBody) (mail : string)
         (w w1 : World) (r : JoinResponse),
    joinWaitlist env opts body w = (Ok r, w1) ->
    toLowerCase mail = toLowerCase (jb_email body) ->
    getWaitlistStatus opts mail w1 = (Ok (jr_status r, jr_position r), w1) /\
    jr_email r = toLowerCase (jb_email body) /\
    jr_position r = Some (List.length (db w) + 1) /\
    exists e,
      lookup_email (toLowerCase mail) w1 = Some e /\
      referredBy e = jb_referredBy body /\ metadata e = jb_metadata body.
Proof.
  intros opts body mail w w1 r Hjoin Hmail.
  destruct (joinWaitlist_created opts body w r w1 Hjoin)
    as (e & Hdb & -> & Hnone & _ & Hemail & Hpos & Href & Hmeta & _).
  assert (Hlook : lookup_email (toLowerCase mail) w1 = Some e).
  { unfold lookup_email in *. rewrite Hdb, Hmail, <- Hemail.
    apply find_email_snoc_some. now rewrite Hemail. }
  cbn [jr_status jr_position jr_email]. repeat split; auto.
  - unfold getWaitlistStatus. run_m. now rewrite Hlook.
  - eauto.
Qed.

(** X13. Whether a join approves on the spot is decided by [autoApprove]
    applied to the lower-cased email.  If it says no (or is unset), the new
    entry is pending, without invite code, expiry or approval time, and no
    UUID is drawn; if it says yes, the entry is approved with the UUID
    just drawn and an expiry [inviteCodeExpiration] seconds after the time
    read, and the gate admits a registration for that email at once. *)
Theorem joinWaitlist_auto_approve :
  forall (opts : WaitlistOptions) (body : JoinBody) (w w1 : World)
         (r : JoinResponse),
    joinWaitlist env opts body w = (Ok r, w1) ->
    exists e,
      db w1 = db w ++ [e] /\ jr_status r = status e /\
      rejectedAt e = None /\ registeredAt e = None /\
      (should_approve opts (toLowerCase (jb_email body)) = false ->
         status e = pending /\ inviteCode e = None /\
         inviteExpiresAt e = None /\ approvedAt e = None /\
         uuidReads w1 = uuidReads w) /\
      (should_approve opts (toLowerCase (jb_email body)) = true ->
         status e = approved /\
         inviteCode e = Some (uuid env (uuidReads w)) /\
         inviteExpiresAt e =
           Some (clock env (clockReads w) + expSeconds opts * 1000)%Z /\
         approvedAt e = Some (clock env (S (clockReads w))) /\
         uuidReads w1 = S (uuidReads w) /\
         (requireInviteCode opts = false ->
          forall path a,
            matcher opts path = true ->
            truthy (body_email a) = Some (jb_email body) ->
            outcome (beforeHook env opts path a) w1 = Ok tt)).
Proof.
  intros opts body w w1 r Hjoin.
  destruct (joinWaitlist_created opts body w r w1 Hjoin)
    as (e & Hdb & -> & Hnone & _ & Hemail & _ & _ & _ & Hrej & Hreg & _
        & Hno & Hyes).
  exists e. cbn [jr_status]. repeat split; auto; try (apply Hno; assumption);
    try (apply Hyes; assumption).
  intros Hreq path a Hpath Ha.
  assert (Hlook : find (matches [W_email (toLowerCase (jb_email body))])
                    (db w1) = Some e).
  { rewrite Hdb, <- Hemail. apply find_email_snoc_some. now rewrite Hemail. }
  destruct (Hyes H) as (Hst & _).
  unfold outcome, beforeHook, handler. rewrite Hpath, Ha, Hreq. run_m.
  destruct (existsb _ (users w1)); [reflexivity|].
  cbn [fst snd]. rewrite Hlook. cbn [fst snd]. now rewrite Hst.
Qed.

End Joining.

(** *** The life of an invite code *)

Section InviteCodes.

Variable env : Env.

(** Once the entry found by [p] no longer offers the code [c] as an
    approved entry, no entry of the patched table does. *)
Lemma code_gone_after_patch : forall w p f c e0,
  unique_invite_codes w ->
  find p (db w) = Some e0 -> inviteCode e0 = Some c ->
  ~ (inviteCode (f e0) = Some c /\ status (f e0) = approved) ->
  find (matches [W_inviteCode c; W_status approved])
    (patch_first p f (db w)) = None.
Proof.
  intros w p f c e0 Huniq Hfind Hcode Hgone.
  apply find_invite_none. intros y Hy Hyes.
  destruct (In_nth_error _ _ Hy) as [i Hi].
  destruct (patch_first_index p f (db w))
    as [[Hnone _] | (i0 & e1 & Hi0 & Hfind1 & Hpatched & Hrest)];
    [congruence|].
  assert (e1 = e0) by congruence. subst e1.
  destruct (Nat.eq_dec i i0) as [->|Hne].
  - rewrite Hpatched in Hi. injection Hi as <-. contradiction.
  - rewrite (Hrest i Hne) in Hi.
    apply Hne. apply (Huniq i i0 y e0 c); tauto.
Qed.

Lemma verifyInviteCode_none : forall opts c w,
  find (matches [W_inviteCode c; W_status approved]) (db w) = None ->
  verifyInviteCode env opts c w = (Ok (mkVerifyResponse false None), w).
Proof.
  intros opts c w Hnone. unfold verifyInviteCode. run_m. now rewrite Hnone.
Qed.

Lemma lookup_email_mail : forall m w e,
  lookup_email m w = Some e -> email e = m.
Proof.
  intros m w e H. apply find_some in H. destruct H as [_ Hm].
  simpl in Hm. rewrite andb_true_r in Hm. now apply String.eqb_eq.
Qed.

(** What the registration hook leaves behind when the email has an
    entry. *)
Lemma userCreateAfter_run : forall opts user mail w e,
  enabled opts = true ->
  truthy (user_email user) = Some mail ->
  lookup_email (toLowerCase mail) w = Some e ->
  exists w1,
    userCreateAfter env opts user true w = (Ok tt, w1) /\
    db w1 = patch_first (matches [W_email (toLowerCase mail)])
              (registeredUpdate (clock env (clockReads w))
                 (clock env (S (clockReads w)))) (db w) /\
    users w1 = users w.
Proof.
  intros opts user mail w e Hen Hmail Hlook. unfold lookup_email in Hlook.
  unfold userCreateAfter. rewrite Hen, Hmail. simpl. run_m.
  rewrite Hlook. run_m. eexists. repeat split.
Qed.

(** X14. Completing a registration marks the entry of the email
    [registered] and stamps [registeredAt], keeping its invite code in the
    record; from then on [approve] for that email is refused with
    [ALREADY_REGISTERED], [status] reports [registered], and the invite
    code no longer verifies. *)
Theorem registration_completion :
  forall (opts : WaitlistOptions) (user : User) (mail : string) (w : World)
         (e : WaitlistEntry),
    enabled opts = true ->
    truthy (user_email user) = Some mail ->
    lookup_email (toLowerCase mail) w = Some e ->
    let w1 := run (userCreateAfter env opts user true) w in
    let e1 := registeredUpdate (clock env (clockReads w))
                (clock env (S (clockReads w))) e in
    lookup_email (toLowerCase mail) w1 = Some e1 /\
    status e1 = registered /\
    registeredAt e1 = Some (clock env (clockReads w)) /\
    inviteCode e1 = inviteCode e /\
    getWaitlistStatus opts mail w1 = (Ok (registered, position e), w1) /\
    approveEntry env opts mail w1 =
      (Throw (mkAPIError BAD_REQUEST ALREADY_REGISTERED), w1) /\
    (forall c, unique_invite_codes w -> inviteCode e = Some c ->
       verifyInviteCode env opts c w1 =
         (Ok (mkVerifyResponse false None), w1)).
Proof.
  intros opts user mail w e Hen Hmail Hlook w1 e1.
  destruct (userCreateAfter_run opts user mail w e Hen Hmail Hlook)
    as (w' & Hrun & Hdb & _).
  assert (Hw1 : w1 = w') by (unfold w1, run; now rewrite Hrun).
  assert (Hlook1 : lookup_email (toLowerCase mail) w1 = Some e1).
  { rewrite Hw1. unfold lookup_email in *.
    rewrite Hdb, find_patch_first by reflexivity. now rewrite Hlook. }
  split; [assumption|]. split; [reflexivity|]. split; [reflexivity|].
  split; [reflexivity|]. split; [|split].
  - unfold getWaitlistStatus. run_m.
    unfold lookup_email in Hlook1. now rewrite Hlook1.
  - unfold approveEntry. run_m.
    unfold lookup_email in Hlook1. now rewrite Hlook1.
  - intros c Huniq Hcode. apply verifyInviteCode_none.
    rewrite Hw1, Hdb. apply code_gone_after_patch with (e0 := e); auto.
    simpl. intros [_ H]. discriminate.
Qed.

Lemma rejectEntry_run : forall opts mail w e,
  lookup_email (toLowerCase mail) w = Some e ->
  exists w1,
    rejectEntry env opts mail w =
      (Ok (rejectUpdate (clock env (clockReads w)) e), w1) /\
    db w1 = patch_first (matches [W_email (toLowerCase mail)])
              (rejectUpdate (clock env (clockReads w))) (db w) /\
    users w1 = users w.
Proof.
  intros opts mail w e Hlook. unfold lookup_email in Hlook.
  unfold rejectEntry. run_m. rewrite Hlook. run_m.
  destruct (onRejected opts); run_m; rewrite ?Hlook; eexists; repeat split.
Qed.

(** X15. Rejecting an entry revokes its admission by both routes: its
    invite code no longer verifies, the gate refuses the code with
    [INVALID_INVITE_CODE] when invite codes are required, and refuses the
    email with [NOT_APPROVED] when they are not. *)
Theorem reject_revokes_admission :
  forall (opts : WaitlistOptions) (mail : string) (w : World)
         (e : WaitlistEntry),
    lookup_email (toLowerCase mail) w = Some e ->
    let w1 := run (rejectEntry env opts mail) w in
    (forall gate path a,
       matcher gate path = true -> requireInviteCode gate = false ->
       truthy (body_email a) = Some mail ->
       no_account (body_email a) w ->
       beforeHook env gate path a w1 =
         (Throw (mkAPIError FORBIDDEN NOT_APPROVED), w1)) /\
    (forall c, unique_invite_codes w -> inviteCode e = Some c ->
       verifyInviteCode env opts c w1 =
         (Ok (mkVerifyResponse false None), w1) /\
       forall gate path a,
         matcher gate path = true -> requireInviteCode gate = true ->
         no_account (body_email a) w ->
         js_or (body_inviteCode a) (truthy (header_inviteCode a)) = Some c ->
         beforeHook env gate path a w1 =
           (Throw (mkAPIError FORBIDDEN INVALID_INVITE_CODE), w1)).
Proof.
  intros opts mail w e Hlook w1.
  destruct (rejectEntry_run opts mail w e Hlook) as (w' & Hrun & Hdb & Husers).
  assert (Hw1 : w1 = w') by (unfold w1, run; now rewrite Hrun).
  rewrite Hw1. split.
  - intros gate path a Hpath Hreq Hmail Hacc.
    unfold beforeHook, handler, no_account in *.
    rewrite Hpath, Hmail, Hreq in *. run_m. rewrite Husers, Hacc, Hdb.
    unfold lookup_email in Hlook.
    rewrite find_patch_first, Hlook by reflexivity. reflexivity.
  - intros c Huniq Hcode.
    assert (Hgone : find (matches [W_inviteCode c; W_status approved]) (db w')
                    = None).
    { rewrite Hdb. apply code_gone_after_patch with (e0 := e); auto.
      simpl. intros [_ H]. discriminate. }
    split; [now apply verifyInviteCode_none|].
    intros gate path a Hpath Hreq Hacc Hjs.
    unfold beforeHook, handler, no_account in *. rewrite Hpath, Hreq, Hjs.
    destruct (truthy (body_email a)) as [m|]; run_m;
      rewrite ?Husers, ?Hacc, Hgone; reflexivity.
Qed.

Lemma approveEntry_run : forall opts mail w e,
  lookup_email (toLowerCase mail) w = Some e ->
  status e <> registered ->
  exists w1,
    approveEntry env opts mail w = (Ok (bulkPatch env opts w 0 e), w1) /\
    db w1 = patch_first (matches [W_email (toLowerCase mail)])
              (bulkPatch env opts w 0) (db w) /\
    users w1 = users w /\
    uuidReads w1 = S (uuidReads w).
Proof.
  intros opts mail w e Hlook Hst. unfold lookup_email in Hlook.
  apply status_eqb_neq in Hst.
  unfold approveEntry, bulkPatch. run_m. rewrite Hlook, Hst. run_m.
  rewrite !Nat.add_0_r.
  replace (clockReads w + 1) with (S (clockReads w)) by lia.
  destruct (sendInviteEmail opts), (onApproved opts); run_m;
    rewrite ?Hlook; eexists; repeat split.
Qed.

(** The only record satisfying [q] is the one [find] gives. *)
Lemma find_unique_index : forall q (l : list WaitlistEntry) i0 x,
  nth_error l i0 = Some x -> q x = true ->
  (forall i y, i <> i0 -> nth_error l i = Some y -> q y = false) ->
  find q l = Some x.
Proof.
  intros q l. induction l as [|z l IH]; intros [|i0] x Hx Hq Hothers;
    simpl in *; try discriminate.
  - injection Hx as ->. now rewrite Hq.
  - rewrite (Hothers 0 z ltac:(lia) eq_refl).
    apply IH with i0; auto.
    intros i y Hi Hy. apply (Hothers (S i) y); [lia|assumption].
Qed.

(** After an approve, the new code is held by the approved entry alone. *)
Lemma approved_code_lookup : forall opts mail w e w1,
  uuid_injective env -> codes_drawn env w ->
  lookup_email (toLowerCase mail) w = Some e ->
  db w1 = patch_first (matches [W_email (toLowerCase mail)])
            (bulkPatch env opts w 0) (db w) ->
  find (matches [W_inviteCode (uuid env (uuidReads w)); W_status approved])
    (db w1) = Some (bulkPatch env opts w 0 e).
Proof.
  intros opts mail w e w1 Hinj Hdrawn Hlook Hdb.
  destruct (patch_first_index (matches [W_email (toLowerCase mail)])
              (bulkPatch env opts w 0) (db w))
    as [[Hnone _] | (i0 & e0 & Hi0 & Hfind & Hpatched & Hrest)];
    [unfold lookup_email in Hlook; congruence|].
  assert (e0 = e) by (unfold lookup_email in Hlook; congruence). subst e0.
  rewrite Hdb. apply find_unique_index with i0.
  - exact Hpatched.
  - apply matches_invite. unfold bulkPatch. simpl.
    now rewrite Nat.add_0_r.
  - intros i y Hne Hy. rewrite (Hrest i Hne) in Hy.
    destruct (matches [W_inviteCode (uuid env (uuidReads w));
                       W_status approved] y) eqn:Hm; [|reflexivity].
    apply matches_invite in Hm. destruct Hm as [Hc _].
    destruct (Hdrawn y _ (nth_error_In _ _ Hy) Hc) as (k & Hk & Heq).
    apply Hinj in Heq. lia.
Qed.

(** X16. With a UUID source that never repeats, approving an entry again
    replaces its invite code: the code it had before no longer verifies,
    and the new one is different. *)
Theorem approve_again_replaces_code :
  forall (opts : WaitlistOptions) (mail : string) (w : World)
         (e : WaitlistEntry) (old : string),
    uuid_injective env ->
    invite_codes_sound env w ->
    lookup_email (toLowerCase mail) w = Some e ->
    status e <> registered ->
    inviteCode e = Some old ->
    let w1 := run (approveEntry env opts mail) w in
    uuid env (uuidReads w) <> old /\
    option_map inviteCode (lookup_email (toLowerCase mail) w1)
      = Some (Some (uuid env (uuidReads w))) /\
    verifyInviteCode env opts old w1 = (Ok (mkVerifyResponse false None), w1).
Proof.
  intros opts mail w e old Hinj [Huniq Hdrawn] Hlook Hst Hold w1.
  destruct (approveEntry_run opts mail w e Hlook Hst)
    as (w' & Hrun & Hdb & _).
  assert (Hw1 : w1 = w') by (unfold w1, run; now rewrite Hrun).
  assert (Hnew : uuid env (uuidReads w) <> old).
  { intros Heq.
    assert (Hin : In e (db w))
      by (unfold lookup_email in Hlook; now apply find_some in Hlook).
    destruct (Hdrawn e old Hin Hold) as (k & Hk & Hk').
    rewrite Hk' in Heq. apply Hinj in Heq. lia. }
  rewrite Hw1. split; [assumption|]. split.
  - unfold lookup_email in *. rewrite Hdb, find_patch_first by reflexivity.
    rewrite Hlook. unfold bulkPatch. simpl. now rewrite Nat.add_0_r.
  - apply verifyInviteCode_none. rewrite Hdb.
    apply code_gone_after_patch with (e0 := e); auto.
    unfold bulkPatch. simpl. rewrite Nat.add_0_r. intros [H _].
    injection H as H. contradiction.
Qed.

(** X17. The invite code issued by an approve verifies, with the email of
    the entry, at every instant up to and including the expiry
    [Date.now() + inviteCodeExpiration * 1000] read at approval, and at no
    later instant (the table staying as the approve left it). *)
Theorem invite_validity_window :
  forall (opts : WaitlistOptions) (mail : string) (w : World)
         (e : WaitlistEntry) (k : nat),
    uuid_injective env ->
    codes_drawn env w ->
    lookup_email (toLowerCase mail) w = Some e ->
    status e <> registered ->
    let w1 := run (approveEntry env opts mail) w in
    let code := uuid env (uuidReads w) in
    let expires := (clock env (clockReads w) + expSeconds opts * 1000)%Z in
    ((clock env k <= expires)%Z ->
       outcome (verifyInviteCode env opts code) (at_reading k w1)
         = Ok (mkVerifyResponse true (Some (toLowerCase mail)))) /\
    ((expires < clock env k)%Z ->
       outcome (verifyInviteCode env opts code) (at_reading k w1)
         = Ok (mkVerifyResponse false None)).
Proof.
  intros opts mail w e k Hinj Hdrawn Hlook Hst w1 code expires.
  destruct (approveEntry_run opts mail w e Hlook Hst)
    as (w' & Hrun & Hdb & _).
  assert (Hw1 : w1 = w') by (unfold w1, run; now rewrite Hrun).
  pose proof (approved_code_lookup opts mail w e w' Hinj Hdrawn Hlook Hdb)
    as Hfind.
  pose proof (lookup_email_mail _ _ _ Hlook) as Hmail.
  rewrite Hw1. unfold outcome, verifyInviteCode, isExpired, at_reading.
  run_m. fold code. fold code in Hfind. rewrite Hfind.
  unfold bulkPatch. cbn [inviteExpiresAt approveUpdate email].
  rewrite !Nat.add_0_r. run_m. fold expires. rewrite Hmail.
  split; intros Ht.
  - replace (expires <? clock env k)%Z with false; [reflexivity|].
    symmetry. apply Z.ltb_ge. lia.
  - replace (expires <? clock env k)%Z with true; [reflexivity|].
    symmetry. apply Z.ltb_lt. lia.
Qed.

End InviteCodes.

(** *** The safety net at user creation *)

Section SafetyNet.

Variable env : Env.

Lemma matches_email_approved : forall m e,
  matches [W_email m; W_status approved] e = true <->
  email e = m /\ status e = approved.
Proof.
  intros m e. simpl.
  rewrite andb_true_r, andb_true_iff, String.eqb_eq, status_eqb_eq. tauto.
Qed.

(** With one entry per email, looking for an approved entry of an email is
    looking up the email and checking the status. *)
Lemma find_email_approved : forall m (d : list WaitlistEntry),
  NoDup (map email d) ->
  find (matches [W_email m; W_status approved]) d =
  match find (matches [W_email m]) d with
  | Some e => if WaitlistStatus_eqb (status e) approved then Some e else None
  | None => None
  end.
Proof.
  intros m d. induction d as [|x d IH]; intros Hnd; [reflexivity|].
  simpl in Hnd. inversion Hnd as [|? ? Hnotin Hnd']; subst.
  cbn [find matches forallb holds].
  destruct (String.eqb_spec (email x) m) as [Hm|Hm]; cbn [andb].
  - rewrite andb_true_r.
    destruct (WaitlistStatus_eqb (status x) approved); [reflexivity|].
    destruct (find _ d) as [y|] eqn:Hfind; [|reflexivity].
    apply find_some in Hfind. destruct Hfind as [Hin Hy].
    apply matches_email_approved in Hy. destruct Hy as [Hy _].
    exfalso. apply Hnotin. rewrite Hm, <- Hy. now apply in_map.
  - now apply IH.
Qed.

(** X18. The check before a user record is created reads the table without
    changing it.  It blocks the creation exactly when the plugin is
    enabled, the record is not an anonymous one being skipped, it carries
    an email, a context is at hand, and no approved entry exists for the
    lower-cased email.  With one entry per email and no invite code
    required, it lets through exactly the emails the gate admits. *)
Theorem userCreateBefore_check :
  forall (opts : WaitlistOptions) (user : User) (ctx : bool) (w : World),
    (exists b, userCreateBefore opts user ctx w = (Ok b, w)) /\
    (outcome (userCreateBefore opts user ctx) w = Ok false <->
       enabled opts = true /\
       skipAnonymous opts && isAnonymous user = false /\
       ctx = true /\
       exists mail,
         truthy (user_email user) = Some mail /\
         forall e, In e (db w) ->
           ~ (email e = toLowerCase mail /\ status e = approved)) /\
    (forall mail path a,
       emails_unique w ->
       enabled opts = true -> requireInviteCode opts = false ->
       skipAnonymous opts && isAnonymous user = false -> ctx = true ->
       truthy (user_email user) = Some mail ->
       truthy (body_email a) = Some mail ->
       matcher opts path = true ->
       no_account (body_email a) w ->
       (outcome (beforeHook env opts path a) w = Ok tt <->
        outcome (userCreateBefore opts user ctx) w = Ok true)).
Proof.
  intros opts user ctx w.
  assert (Hrun : userCreateBefore opts user ctx w =
    (Ok (if negb (enabled opts) then true
         else if skipAnonymous opts && isAnonymous user then true
         else match truthy (user_email user) with
              | None => true
              | Some mail =>
                  if negb ctx then true
                  else match find (matches [W_email (toLowerCase mail);
                                            W_status approved]) (db w) with
                       | None => false
                       | Some _ => true
                       end
              end), w)).
  { unfold userCreateBefore.
    destruct (enabled opts); simpl; [|reflexivity].
    destruct (skipAnonymous opts && isAnonymous user); [reflexivity|].
    destruct (truthy (user_email user)) as [mail|]; [|reflexivity].
    destruct ctx; simpl; [|reflexivity]. run_m.
    destruct (find _ (db w)); reflexivity. }
  split; [eexists; exact Hrun|]. split.
  - unfold outcome. rewrite Hrun. cbn [fst].
    destruct (enabled opts); simpl;
      [|split; [discriminate|intros (H & _); discriminate]].
    destruct (skipAnonymous opts && isAnonymous user);
      [split; [discriminate|intros (_ & H & _); discriminate]|].
    destruct (truthy (user_email user)) as [mail|];
      [|split; [discriminate|intros (_ & _ & _ & m & H & _); discriminate]].
    destruct ctx; simpl;
      [|split; [discriminate|intros (_ & _ & H & _); discriminate]].
    destruct (find _ (db w)) as [e|] eqn:Hfind.
    + split; [discriminate|]. intros (_ & _ & _ & m & Hm & Hnone).
      injection Hm as <-. apply find_some in Hfind.
      destruct Hfind as [Hin Hy]. apply matches_email_approved in Hy.
      exfalso. now apply (Hnone e).
    + split; [|reflexivity]. intros _. repeat split. exists mail.
      split; [reflexivity|]. intros e Hin Hyes.
      pose proof (find_none _ _ Hfind e Hin) as Hno.
      apply matches_email_approved in Hyes. congruence.
  - intros mail path a Huniq Hen Hreq Hskip Hctx Huser Hbody Hpath Hacc.
    unfold outcome. rewrite Hrun. cbn [fst].
    rewrite Hen, Hskip, Huser, Hctx. simpl.
    rewrite (find_email_approved _ _ Huniq).
    unfold beforeHook, handler, no_account in *.
    rewrite Hpath, Hbody, Hreq in *. run_m. rewrite Hacc.
    destruct (find _ (db w)) as [e|]; cbn [fst];
      [|split; discriminate].
    destruct (WaitlistStatus_eqb (status e) approved); cbn [fst];
      split; auto; discriminate.
Qed.

End SafetyNet.

(** *** Bulk approval by email list *)

Section BulkByEmails.

Variable env : Env.





End BulkByEmails.

(** *** What the admin operations leave in place, and what they notify *)

Section Bookkeeping.

Variable env : Env.

Lemma same_keys_refl : forall w, same_keys w w.
Proof. intros w. unfold same_keys. auto. Qed.

Lemma same_keys_trans : forall w1 w2 w3,
  same_keys w1 w2 -> same_keys w2 w3 -> same_keys w1 w3.
Proof.
  unfold same_keys. intros w1 w2 w3 (A1 & B1 & C1) (A2 & B2 & C2).
  repeat split; congruence.
Qed.

Lemma same_keys_patch : forall w w' p f,
  (forall e, id (f e) = id e) -> (forall e, email (f e) = email e) ->
  db w' = patch_first p f (db w) -> nextId w' = nextId w ->
  same_keys w w'.
Proof.
  intros w w' p f Hid Hmail Hdb Hnext. unfold same_keys.
  rewrite Hdb, !patch_first_map_field by assumption. auto.
Qed.

Lemma approveOne_same_keys : forall opts where_ mail e w,
  exists u w',
    approveOne env opts where_ mail e w = (Ok u, w') /\ same_keys w w'.
Proof.
  intros opts where_ mail e w. unfold approveOne. run_m.
  destruct (sendInviteEmail opts), (onApproved opts); run_m;
    do 2 eexists; (split; [reflexivity|]);
    (eapply same_keys_patch with
       (f := approveUpdate (uuid env (uuidReads w))
               (clock env (clockReads w) + expSeconds opts * 1000)
               (clock env (S (clockReads w))));
     cbn [db nextId]; reflexivity).
Qed.

Lemma approveEmails_same_keys : forall opts emails acc w,
  same_keys w (run (approveEmails env opts emails acc) w).
Proof.
  intros opts emails.
  induction emails as [|mail rest IH]; intros acc w; simpl.
  - apply same_keys_refl.
  - run_m. destruct (find _ (db w)) as [e|]; [|apply IH].
    destruct (WaitlistStatus_eqb (status e) pending); [|apply IH].
    destruct (approveOne_same_keys opts [W_email (toLowerCase mail)]
                (toLowerCase mail) e w) as (u & w1 & -> & Hk).
    eapply same_keys_trans; [exact Hk|apply IH].
Qed.

Lemma approvePending_same_keys : forall opts l acc w,
  same_keys w (run (approvePending env opts l acc) w).
Proof.
  intros opts l.
  induction l as [|e rest IH]; intros acc w; simpl.
  - apply same_keys_refl.
  - run_m.
    destruct (approveOne_same_keys opts [W_id (id e)] (email e) e w)
      as (u & w1 & -> & Hk).
    eapply same_keys_trans; [exact Hk|apply IH].
Qed.

(** X20. Only [join] adds an entry, one at a time, at the end of the table
    and under the store's next id; [approve], [reject], [bulkApprove] and
    the registration hook never add, remove or reorder entries, nor change
    an id or an email. *)
Theorem only_join_adds_entries :
  forall (opts : WaitlistOptions) (op : Operation) (w : World),
    ((forall body, op <> Join body) ->
       same_keys w (run (perform env opts op) w)) /\
    (forall body, op = Join body ->
       db (run (perform env opts op) w) = db w \/
       exists e, db (run (perform env opts op) w) = db w ++ [e] /\
                 id e = nextId w /\
                 email e = toLowerCase (jb_email body)).
Proof.
  intros opts op w. split.
  - intros Hnot. destruct op as [body|mail|mail|emails count_|user];
      unfold perform; rewrite ?(run_bind_ret _ _ _ (fun _ => tt)).
    + exfalso. now apply (Hnot body).
    + unfold approveEntry. run_m.
      destruct (find _ (db w)) as [e|]; run_m; [|apply same_keys_refl].
      destruct (WaitlistStatus_eqb (status e) registered); run_m;
        [apply same_keys_refl|].
      destruct (sendInviteEmail opts), (onApproved opts); run_m;
        (eapply same_keys_patch with
       (f := approveUpdate (uuid env (uuidReads w))
               (clock env (clockReads w) + expSeconds opts * 1000)
               (clock env (S (clockReads w))));
     cbn [db nextId]; reflexivity).
    + unfold rejectEntry. run_m.
      destruct (find _ (db w)) as [e|]; run_m; [|apply same_keys_refl].
      destruct (onRejected opts); run_m;
        (eapply same_keys_patch with
           (f := rejectUpdate (clock env (clockReads w)));
         cbn [db nextId]; reflexivity).
    + destruct (bulkApprove_branches env opts emails count_ w)
        as [(mail & rest & _ & ->) | [(n & _ & ->) | ->]].
      * apply approveEmails_same_keys.
      * apply approvePending_same_keys.
      * apply same_keys_refl.
    + unfold userCreateAfter.
      destruct (enabled opts); simpl; [|apply same_keys_refl].
      destruct (truthy (user_email user)) as [mail|];
        [|apply same_keys_refl].
      run_m. destruct (find _ (db w)) as [e|]; run_m;
        [|apply same_keys_refl].
      eapply same_keys_patch with
        (f := registeredUpdate (clock env (clockReads w))
                (clock env (S (clockReads w))));
        cbn [db nextId]; reflexivity.
  - intros body ->. unfold perform. rewrite (run_bind_ret _ _ _ (fun _ => tt)).
    destruct (joinWaitlist env opts body w) as [[r|err] w1] eqn:Hjoin.
    + right.
      destruct (joinWaitlist_created env opts body w r w1 Hjoin)
        as (e & Hdb & _ & _ & Hid & Hmail & _).
      exists e. unfold run. rewrite Hjoin. auto.
    + left.
      destruct (joinWaitlist_cases env opts body w) as
        [(x & _ & Hthrow) | [(_ & _ & Hthrow) | (_ & _ & r & e & Hok & _)]].
      * unfold run. now rewrite Hthrow.
      * unfold run. now rewrite Hthrow.
      * unfold outcome in Hok. rewrite Hjoin in Hok. discriminate.
Qed.

(** X21. A successful approve notifies in this order and nothing else: the
    invite email, with the lower-cased address and the very code and
    expiry it has stored, then [onApproved] with the stored entry -- each
    only if configured.  A reject notifies [onRejected] with the stored
    entry.  Neither notifies anything when it fails. *)
Theorem approve_reject_notifications :
  forall (opts : WaitlistOptions) (mail : string) (w : World)
         (e : WaitlistEntry),
    lookup_email (toLowerCase mail) w = Some e ->
    (status e <> registered ->
       let code := uuid env (uuidReads w) in
       let expires := (clock env (clockReads w) + expSeconds opts * 1000)%Z in
       let stored := approveUpdate code expires
                       (clock env (S (clockReads w))) e in
       lookup_email (toLowerCase mail) (run (approveEntry env opts mail) w)
         = Some stored /\
       events (run (approveEntry env opts mail) w) =
         events w ++ approve_events opts (toLowerCase mail) code expires stored) /\
    (status e = registered ->
       events (run (approveEntry env opts mail) w) = events w) /\
    (let stored := rejectUpdate (clock env (clockReads w)) e in
     lookup_email (toLowerCase mail) (run (rejectEntry env opts mail) w)
       = Some stored /\
     events (run (rejectEntry env opts mail) w) =
       events w ++ (if onRejected opts then [Rejected stored] else [])).
Proof.
  intros opts mail w e Hlook. unfold lookup_email in Hlook.
  split; [|split].
  - intros Hst. apply status_eqb_neq in Hst.
    unfold approveEntry, approve_events. run_m. rewrite Hlook, Hst. run_m.
    rewrite Hlook. cbn [option_map].
    destruct (sendInviteEmail opts), (onApproved opts); run_m;
      rewrite find_patch_first, Hlook by reflexivity;
      rewrite <- ?app_assoc, ?app_nil_r; split; reflexivity.
  - intros Hst. apply status_eqb_eq in Hst.
    unfold approveEntry. run_m. now rewrite Hlook, Hst.
  - unfold rejectEntry. run_m. rewrite Hlook. run_m. rewrite Hlook.
    cbn [option_map].
    destruct (onRejected opts); run_m;
      rewrite find_patch_first, Hlook by reflexivity;
      rewrite ?app_nil_r; split; reflexivity.
Qed.

Lemma filter_patch_count : forall p q f (d : list WaitlistEntry) e0,
  find p d = Some e0 ->
  List.length (filter q (patch_first p f d)) + (if q e0 then 1 else 0) =
  List.length (filter q d) + (if q (f e0) then 1 else 0).
Proof.
  intros p q f d. induction d as [|x d IH]; intros e0 Hfind; simpl in *;
    [discriminate|].
  destruct (p x) eqn:Hp.
  - injection Hfind as <-. simpl.
    destruct (q x), (q (f x)); simpl; lia.
  - simpl. specialize (IH e0 Hfind). destruct (q x); simpl; lia.
Qed.

(** X22. The statistics follow the operations.  A successful join adds
    one to the count of the status of the new entry and leaves the other
    counts alone; an approve or a reject of an existing entry moves one
    unit from the count of its old status to [approved] or [rejected]. *)
Theorem stats_follow_operations :
  forall (opts : WaitlistOptions) (s : WaitlistStatus) (w : World),
    (forall body r, outcome (joinWaitlist env opts body) w = Ok r ->
       count_status s (run (joinWaitlist env opts body) w) =
         count_status s w
         + (if WaitlistStatus_eqb (jr_status r) s then 1 else 0)) /\
    (forall mail e, lookup_email (toLowerCase mail) w = Some e ->
       (status e <> registered ->
          count_status s (run (approveEntry env opts mail) w) + counts_as s e =
            count_status s w
            + (if WaitlistStatus_eqb approved s then 1 else 0)) /\
       count_status s (run (rejectEntry env opts mail) w) + counts_as s e =
         count_status s w
         + (if WaitlistStatus_eqb rejected s then 1 else 0)).
Proof.
  intros opts s w. split.
  - intros body r Hok.
    destruct (joinWaitlist env opts body w) as [[r'|err] w1] eqn:Hjoin;
      unfold outcome in Hok; rewrite Hjoin in Hok; [|discriminate].
    injection Hok as ->.
    destruct (joinWaitlist_created env opts body w r w1 Hjoin)
      as (e & Hdb & -> & _).
    unfold count_status, run. rewrite Hjoin. cbn [snd jr_status].
    rewrite Hdb, filter_app, length_app. simpl.
    destruct (WaitlistStatus_eqb (status e) s); reflexivity.
  - intros mail e Hlook. split.
    + intros Hst.
      destruct (approveEntry_run env opts mail w e Hlook Hst)
        as (w1 & Hrun & Hdb & _).
      unfold count_status, counts_as, run. rewrite Hrun. cbn [snd].
      rewrite Hdb.
      apply (filter_patch_count _
               (fun x => WaitlistStatus_eqb (status x) s)).
      exact Hlook.
    + destruct (rejectEntry_run env opts mail w e Hlook)
        as (w1 & Hrun & Hdb & _).
      unfold count_status, counts_as, run. rewrite Hrun. cbn [snd].
      rewrite Hdb.
      apply (filter_patch_count _
               (fun x => WaitlistStatus_eqb (status x) s)).
      exact Hlook.
Qed.

End Bookkeeping.

(** *** The two layers together *)

Section TwoLayers.

Variable env : Env.

Lemma userCreateBefore_blocks : forall opts user mail w,
  enabled opts = true ->
  skipAnonymous opts && isAnonymous user = false ->
  truthy (user_email user) = Some mail ->
  (forall e, In e (db w) ->
     ~ (email e = toLowerCase mail /\ status e = approved)) ->
  userCreateBefore opts user true w = (Ok false, w).
Proof.
  intros opts user mail w Hen Hskip Hmail Hnone.
  unfold userCreateBefore. rewrite Hen, Hskip, Hmail. simpl. run_m.
  destruct (find _ (db w)) as [e|] eqn:Hfind; [|reflexivity].
  apply find_some in Hfind. destruct Hfind as [Hin Hm].
  apply matches_email_approved in Hm. exfalso. now apply (Hnone e).
Qed.

(** X23. An invite code does not create an account by itself.  With
    [requireInviteCode] on, an attempt that presents a usable code passes
    the gate whatever its email; but when the user record is about to be
    created, the safety net still blocks it unless the email of the record
    has an approved entry of its own. *)
Theorem code_alone_does_not_create_user :
  forall (opts : WaitlistOptions) (path : option string) (a : Attempt)
         (user : User) (mail code : string) (w : World) (e : WaitlistEntry),
    matcher opts path = true ->
    requireInviteCode opts = true ->
    skipAnonymous opts && isAnonymous user = false ->
    truthy (body_email a) = Some mail ->
    truthy (user_email user) = Some mail ->
    js_or (body_inviteCode a) (truthy (header_inviteCode a)) = Some code ->
    unique_invite_codes w ->
    In e (db w) ->
    usable_invite code (clock env (clockReads w)) e ->
    (forall x, In x (db w) ->
       ~ (email x = toLowerCase mail /\ status x = approved)) ->
    let w1 := run (beforeHook env opts path a) w in
    outcome (beforeHook env opts path a) w = Ok tt /\
    userCreateBefore opts user true w1 = (Ok false, w1).
Proof.
  intros opts path a user mail code w e Hpath Hreq Hskip Hbody Huser Hcode
    Huniq Hin Husable Hnone w1.
  assert (Hen : enabled opts = true).
  { unfold matcher in Hpath. destruct (enabled opts); [reflexivity|].
    discriminate. }
  assert (Hgate : outcome (beforeHook env opts path a) w = Ok tt /\
                  db (run (beforeHook env opts path a) w) = db w).
  { unfold beforeHook, handler. rewrite Hpath, Hreq, Hbody, Hcode.
    destruct Husable as (Hc & Hst & Hexp).
    destruct (find (matches [W_inviteCode code; W_status approved]) (db w))
      as [e0|] eqn:Hfind.
    - assert (e = e0) by (eapply invite_lookup_unique; eauto). subst e0.
      destruct (isExpired_run env e w) as (x & w' & Hrun & Hdb & Hx).
      assert (x = false) by now apply Hx. subst x.
      run_m. destruct (existsb _ (users w)); run_m; auto.
      rewrite Hfind, Hrun. cbn [fst snd]. auto.
    - exfalso. pose proof (find_none _ _ Hfind e Hin) as Hm.
      assert (matches [W_inviteCode code; W_status approved] e = true)
        by (apply matches_invite; auto).
      congruence. }
  destruct Hgate as [Hok Hdb]. split; [assumption|].
  apply userCreateBefore_blocks with mail; auto.
  unfold w1. rewrite Hdb. assumption.
Qed.

(** X24. The registration hook does nothing at all when the plugin is
    disabled, when the user record has no email, when no context is
    passed, or when the email has no entry; and run a second time on an
    entry it has marked, it leaves it [registered]. *)
Theorem userCreateAfter_noop :
  forall (opts : WaitlistOptions) (user : User) (ctx : bool) (w : World),
    (enabled opts = false \/ truthy (user_email user) = None \/
     ctx = false \/
     (exists mail, truthy (user_email user) = Some mail /\
                   lookup_email (toLowerCase mail) w = None) ->
     userCreateAfter env opts user ctx w = (Ok tt, w)) /\
    (forall mail e,
       enabled opts = true -> ctx = true ->
       truthy (user_email user) = Some mail ->
       lookup_email (toLowerCase mail) w = Some e ->
       let w1 := run (userCreateAfter env opts user ctx) w in
       let w2 := run (userCreateAfter env opts user ctx) w1 in
       option_map status (lookup_email (toLowerCase mail) w1)
         = Some registered /\
       option_map status (lookup_email (toLowerCase mail) w2)
         = Some registered /\
       same_keys w w2).
Proof.
  intros opts user ctx w. split.
  - intros Hcase. unfold userCreateAfter.
    destruct (enabled opts); simpl; [|reflexivity].
    destruct (truthy (user_email user)) as [mail|]; [|reflexivity].
    destruct ctx; simpl; [|reflexivity].
    destruct Hcase as [H|[H|[H|(m & Hm & Hnone)]]]; try discriminate.
    injection Hm as <-. unfold lookup_email in Hnone. run_m.
    now rewrite Hnone.
  - intros mail e Hen -> Hmail Hlook w1 w2.
    destruct (userCreateAfter_run env opts user mail w e Hen Hmail Hlook)
      as (w1' & Hrun1 & Hdb1 & _).
    assert (Hw1 : w1 = w1') by (unfold w1, run; now rewrite Hrun1).
    assert (Hlook1 : lookup_email (toLowerCase mail) w1 =
              Some (registeredUpdate (clock env (clockReads w))
                      (clock env (S (clockReads w))) e)).
    { rewrite Hw1. unfold lookup_email in *.
      rewrite Hdb1, find_patch_first by reflexivity. now rewrite Hlook. }
    destruct (userCreateAfter_run env opts user mail w1 _ Hen Hmail Hlook1)
      as (w2' & Hrun2 & Hdb2 & _).
    assert (Hw2 : w2 = w2') by (unfold w2, run; now rewrite Hrun2).
    split; [now rewrite Hlook1|]. split.
    + rewrite Hw2. unfold lookup_email in *.
      rewrite Hdb2, find_patch_first by reflexivity. now rewrite Hlook1.
    + apply same_keys_trans with w1.
      * rewrite Hw1. eapply same_keys_patch; [| |exact Hdb1|];
          try reflexivity.
        unfold userCreateAfter in Hrun1. rewrite Hen, Hmail in Hrun1.
        simpl in Hrun1. revert Hrun1. run_m.
        unfold lookup_email in Hlook. rewrite Hlook. run_m.
        intros H. injection H as <-. reflexivity.
      * rewrite Hw2. eapply same_keys_patch; [| |exact Hdb2|];
          try reflexivity.
        unfold userCreateAfter in Hrun2. rewrite Hen, Hmail in Hrun2.
        simpl in Hrun2. revert Hrun2. run_m.
        unfold lookup_email in Hlook1. rewrite Hlook1. run_m.
        intros H. injection H as <-. reflexivity.
Qed.

End TwoLayers.

(** ** The further properties on the sample data *)

Lemma steady_env_injective : uuid_injective steady_env.
Proof.
  intros j k H. simpl in H. injection H as H. revert k H.
  induction j as [|j IH]; intros [|k] H; simpl in H; try discriminate.
  - reflexivity.
  - injection H as H. f_equal. now apply IH.
Qed.

Lemma world_joined_codes_sound : invite_codes_sound steady_env world_joined.
Proof.
  split.
  - intros i j e1 e2 c Hi Hj H1 _.
    destruct i as [|i]; simpl in Hi;
      [injection Hi as <-; discriminate|destruct i; discriminate].
  - intros e c [<-|[]] H. discriminate.
Qed.

Lemma steady_approved_codes_sound :
  invite_codes_sound steady_env steady_approved.
Proof.
  split.
  - intros i j e1 e2 c Hi Hj _ _.
    destruct i as [|i], j as [|j]; simpl in Hi, Hj;
      try reflexivity;
      try (destruct i; discriminate); try (destruct j; discriminate).
  - intros e c [<-|[]] H. simpl in H. injection H as <-.
    exists 0. split; [simpl; lia|reflexivity].
Qed.

Lemma adminEndpoint_guard_witness :
  truthy (Some "user") = Some "user" /\
  ~ In "user" (accepted_roles sample_opts) /\
  adminEndpoint sample_opts (Some "user")
    (approveEntry sample_env sample_opts "a@x.com") world_joined
    = (Throw (mkAPIError FORBIDDEN UNAUTHORIZED_ADMIN_ACTION), world_joined) /\
  adminEndpoint sample_opts (Some "admin")
    (approveEntry sample_env sample_opts "a@x.com") world_joined
    = approveEntry sample_env sample_opts "a@x.com" world_joined.
Proof.
  assert (Hnot : ~ In "user" (accepted_roles sample_opts))
    by (simpl; intros [H|[]]; discriminate).
  split; [reflexivity|]. split; [exact Hnot|]. split.
  - apply (proj1 (proj2 (adminEndpoint_guard WaitlistEntry sample_opts
             (Some "user") (approveEntry sample_env sample_opts "a@x.com")
             world_joined) "user" eq_refl)).
    exact Hnot.
  - apply (proj2 (proj2 (adminEndpoint_guard WaitlistEntry sample_opts
             (Some "admin") (approveEntry sample_env sample_opts "a@x.com")
             world_joined) "admin" eq_refl)).
    simpl. now left.
Defined.

Lemma missing_entry_not_found_witness :
  lookup_email (toLowerCase "Nobody@x.com") world_joined = None /\
  rejectEntry sample_env sample_opts "Nobody@x.com" world_joined
    = (Throw (mkAPIError NOT_FOUND WAITLIST_ENTRY_NOT_FOUND), world_joined).
Proof.
  split; [reflexivity|].
  apply (missing_entry_not_found sample_env sample_opts "Nobody@x.com"
           world_joined eq_refl).
Defined.

Lemma joinWaitlist_respects_max_witness :
  maxWaitlistSize capped_opts = Some 1 /\
  1 <= List.length (db world_joined) /\
  lookup_email (toLowerCase "b@x.com") world_joined = None /\
  joinWaitlist sample_env capped_opts (join_body "b@x.com") world_joined
    = (Throw (mkAPIError BAD_REQUEST WAITLIST_FULL), world_joined).
Proof.
  assert (Hlen : 1 <= List.length (db world_joined)) by (simpl; lia).
  split; [reflexivity|]. split; [exact Hlen|]. split; [reflexivity|].
  apply (proj1 (proj1 (joinWaitlist_respects_max sample_env capped_opts
                         (join_body "b@x.com") world_joined) 0 eq_refl)
           Hlen eq_refl).
Defined.

Lemma gate_invite_code_errors_witness :
  matcher invite_opts (Some "/sign-up/email") = true /\
  requireInviteCode invite_opts = true /\
  no_account (Some "b@x.com") world_two /\
  js_or None (truthy (Some "")) = None /\
  beforeHook sample_env invite_opts (Some "/sign-up/email")
    (mkAttempt (Some "b@x.com") None (Some "")) world_two
    = (Throw (mkAPIError FORBIDDEN INVITE_CODE_REQUIRED), world_two).
Proof.
  split; [reflexivity|]. split; [reflexivity|]. split; [reflexivity|].
  split; [reflexivity|].
  apply (proj1 (gate_invite_code_errors sample_env invite_opts
                  (Some "/sign-up/email")
                  (mkAttempt (Some "b@x.com") None (Some "")) world_two
                  eq_refl eq_refl eq_refl)
           eq_refl).
Defined.

Lemma gate_lets_through_witness :
  truthy (Some "A@x.com") = Some "A@x.com" /\
  existsb (String.eqb (toLowerCase "A@x.com")) (users world_member) = true /\
  option_map status (lookup_email "a@x.com" world_member) = Some pending /\
  beforeHook sample_env invite_opts (Some "/sign-up/email")
    (mkAttempt (Some "A@x.com") None None) world_member
    = (Ok tt, world_member).
Proof.
  split; [reflexivity|]. split; [reflexivity|]. split; [reflexivity|].
  apply (proj1 (gate_lets_through sample_env invite_opts
                  (Some "/sign-up/email")
                  (mkAttempt (Some "A@x.com") None None) world_member)
           "A@x.com" eq_refl eq_refl).
Defined.

Lemma matcher_by_prefix_witness :
  matcher sample_opts (Some "/callback/") = true /\
  matcher sample_opts (Some (String.append "/callback/" "google")) = true.
Proof.
  split; [reflexivity|].
  apply (proj1 (proj2 (matcher_by_prefix sample_opts "/callback/")) "google").
  reflexivity.
Defined.

Lemma listWaitlist_page_witness :
  1 <= page_number (mkListQuery (Some pending) (Some 2) (Some 3) None None) /\
  1 <= page_size (mkListQuery (Some pending) (Some 2) (Some 3) None None) /\
  exists r,
    listWaitlist sample_opts
      (mkListQuery (Some pending) (Some 2) (Some 3) None None) world_four
      = (Ok r, world_four) /\
    lr_total r = 4 /\ List.length (lr_entries r) <= 3.
Proof.
  assert (H1 : 1 <= page_number
                 (mkListQuery (Some pending) (Some 2) (Some 3) None None))
    by (vm_compute; lia).
  assert (H2 : 1 <= page_size
                 (mkListQuery (Some pending) (Some 2) (Some 3) None None))
    by (vm_compute; lia).
  split; [exact H1|]. split; [exact H2|].
  destruct (listWaitlist_page sample_opts
              (mkListQuery (Some pending) (Some 2) (Some 3) None None)
              world_four H1 H2)
    as (r & Hrun & _ & Htotal & Hlen & _).
  exists r. split; [exact Hrun|]. split; [|exact Hlen].
  rewrite Htotal. reflexivity.
Defined.

(** Four entries, three to a page, newest first: pages 1 and 2 hold
    positions 4, 3, 2 and position 1; page 3 is empty. *)
Example listWaitlist_two_pages :
  map (fun r => (map position (lr_entries r), lr_total r, lr_totalPages r))
    (map (fun p =>
            match outcome (listWaitlist sample_opts
                             (mkListQuery None (Some p) (Some 3) None None))
                    world_four with
            | Ok r => r
            | Throw _ => mkListResponse [] 0 0 0
            end) [1; 2; 3])
  = [([Some 4; Some 3; Some 2], 4, 2); ([Some 1], 4, 2); ([], 4, 2)].
Proof. reflexivity. Qed.

Lemma listWaitlist_pages_cover_witness :
  1 <= page_size (mkListQuery None None (Some 3) None None) /\
  flat_map
    (fun p => entries_of_page sample_opts
                (mkListQuery None None (Some 3) None None) p world_four)
    (seq 1 (ceil_div
              (List.length
                 (listing (mkListQuery None None (Some 3) None None)
                    world_four))
              (page_size (mkListQuery None None (Some 3) None None))))
  = listing (mkListQuery None None (Some 3) None None) world_four.
Proof.
  assert (H : 1 <= page_size (mkListQuery None None (Some 3) None None))
    by (vm_compute; lia).
  split; [exact H|].
  apply (listWaitlist_pages_cover sample_opts
           (mkListQuery None None (Some 3) None None) world_four H).
Defined.

Lemma perform_keeps_well_formed_witness :
  db empty_world = [] /\
  well_formed empty_world /\
  well_formed
    (run (perform sample_env sample_opts (Join (join_body "A@x.com")))
       empty_world).
Proof.
  assert (H0 : well_formed empty_world)
    by (apply (proj1 (perform_keeps_well_formed sample_env) empty_world
                 eq_refl)).
  split; [reflexivity|]. split; [exact H0|].
  apply (proj2 (perform_keeps_well_formed sample_env) sample_opts
           (Join (join_body "A@x.com")) empty_world H0).
Defined.

Lemma perform_keeps_invite_codes_unique_witness :
  uuid_injective steady_env /\
  invite_codes_sound steady_env world_joined /\
  invite_codes_sound steady_env
    (run (perform steady_env sample_opts (Approve "a@x.com")) world_joined).
Proof.
  split; [exact steady_env_injective|].
  split; [exact world_joined_codes_sound|].
  apply (proj2 (perform_keeps_invite_codes_unique steady_env
                  steady_env_injective)
           sample_opts (Approve "a@x.com") world_joined
           world_joined_codes_sound).
Defined.

Lemma join_then_status_witness :
  joinWaitlist sample_env sample_opts (join_body "A@x.com") empty_world
    = (Ok (mkJoinResponse 0 "a@x.com" pending (Some 1) 0), world_joined) /\
  toLowerCase "a@X.COM" = toLowerCase "A@x.com" /\
  getWaitlistStatus sample_opts "a@X.COM" world_joined
    = (Ok (pending, Some 1), world_joined).
Proof.
  split; [reflexivity|]. split; [reflexivity|].
  apply (proj1 (join_then_status sample_env sample_opts (join_body "A@x.com")
                  "a@X.COM" empty_world world_joined
                  (mkJoinResponse 0 "a@x.com" pending (Some 1) 0)
                  eq_refl eq_refl)).
Defined.

Lemma joinWaitlist_auto_approve_witness :
  joinWaitlist sample_env auto_opts (join_body "A@x.com") empty_world
    = (outcome (joinWaitlist sample_env auto_opts (join_body "A@x.com"))
         empty_world,
       run (joinWaitlist sample_env auto_opts (join_body "A@x.com"))
         empty_world) /\
  outcome (joinWaitlist sample_env auto_opts (join_body "A@x.com"))
    empty_world = Ok (mkJoinResponse 0 "a@x.com" approved (Some 1) 2000) /\
  should_approve auto_opts (toLowerCase "A@x.com") = true /\
  exists e,
    db (run (joinWaitlist sample_env auto_opts (join_body "A@x.com"))
          empty_world) = [e] /\
    inviteCode e = Some "inv-0".
Proof.
  split; [reflexivity|]. split; [reflexivity|]. split; [reflexivity|].
  destruct (joinWaitlist_auto_approve sample_env auto_opts
              (join_body "A@x.com") empty_world
              (run (joinWaitlist sample_env auto_opts (join_body "A@x.com"))
                 empty_world)
              (mkJoinResponse 0 "a@x.com" approved (Some 1) 2000) eq_refl)
    as (e & Hdb & _ & _ & _ & _ & Hyes).
  exists e. split; [exact Hdb|].
  apply (Hyes eq_refl).
Defined.

Lemma registration_completion_witness :
  enabled sample_opts = true /\
  truthy (Some "A@x.com") = Some "A@x.com" /\
  lookup_email (toLowerCase "A@x.com") world_approved = Some entry_a_approved /\
  approveEntry sample_env sample_opts "A@x.com"
    (run (userCreateAfter sample_env sample_opts
            (mkUser (Some "A@x.com") false) true) world_approved)
  = (Throw (mkAPIError BAD_REQUEST ALREADY_REGISTERED),
     run (userCreateAfter sample_env sample_opts
            (mkUser (Some "A@x.com") false) true) world_approved).
Proof.
  split; [reflexivity|]. split; [reflexivity|]. split; [reflexivity|].
  apply (proj1 (proj2 (proj2 (proj2 (proj2 (proj2
           (registration_completion sample_env sample_opts
              (mkUser (Some "A@x.com") false) "A@x.com" world_approved
              entry_a_approved eq_refl eq_refl eq_refl))))))).
Defined.

Lemma reject_revokes_admission_witness :
  lookup_email (toLowerCase "a@x.com") world_approved = Some entry_a_approved /\
  unique_invite_codes world_approved /\
  inviteCode entry_a_approved = Some "inv-0" /\
  verifyInviteCode sample_env sample_opts "inv-0"
    (run (rejectEntry sample_env sample_opts "a@x.com") world_approved)
  = (Ok (mkVerifyResponse false None),
     run (rejectEntry sample_env sample_opts "a@x.com") world_approved).
Proof.
  split; [reflexivity|].
  split; [exact world_approved_unique_invite_codes|].
  split; [reflexivity|].
  apply (proj1 (proj2 (reject_revokes_admission sample_env sample_opts
                         "a@x.com" world_approved entry_a_approved eq_refl)
                  "inv-0" world_approved_unique_invite_codes eq_refl)).
Defined.

Lemma approve_again_replaces_code_witness :
  uuid_injective steady_env /\
  invite_codes_sound steady_env steady_approved /\
  lookup_email (toLowerCase "a@x.com") steady_approved = Some entry_a_steady /\
  status entry_a_steady <> registered /\
  inviteCode entry_a_steady = Some "u" /\
  verifyInviteCode steady_env sample_opts "u"
    (run (approveEntry steady_env sample_opts "a@x.com") steady_approved)
  = (Ok (mkVerifyResponse false None),
     run (approveEntry steady_env sample_opts "a@x.com") steady_approved).
Proof.
  assert (Hst : status entry_a_steady <> registered) by discriminate.
  split; [exact steady_env_injective|].
  split; [exact steady_approved_codes_sound|].
  split; [reflexivity|]. split; [exact Hst|]. split; [reflexivity|].
  apply (proj2 (proj2 (approve_again_replaces_code steady_env sample_opts
                         "a@x.com" steady_approved entry_a_steady "u"
                         steady_env_injective steady_approved_codes_sound
                         eq_refl Hst eq_refl))).
Defined.

Lemma invite_validity_window_witness :
  uuid_injective steady_env /\
  codes_drawn steady_env world_joined /\
  lookup_email (toLowerCase "a@x.com") world_joined = Some entry_a_pending /\
  status entry_a_pending <> registered /\
  (clock steady_env 10 <=
     clock steady_env (clockReads world_joined)
     + expSeconds sample_opts * 1000)%Z /\
  outcome (verifyInviteCode steady_env sample_opts
             (uuid steady_env (uuidReads world_joined)))
    (at_reading 10
       (run (approveEntry steady_env sample_opts "a@x.com") world_joined))
  = Ok (mkVerifyResponse true (Some (toLowerCase "a@x.com"))).
Proof.
  assert (Hst : status entry_a_pending <> registered) by discriminate.
  assert (Ht : (clock steady_env 10 <=
                  clock steady_env (clockReads world_joined)
                  + expSeconds sample_opts * 1000)%Z)
    by (vm_compute; discriminate).
  split; [exact steady_env_injective|].
  split; [exact (proj2 world_joined_codes_sound)|].
  split; [reflexivity|]. split; [exact Hst|]. split; [exact Ht|].
  apply (proj1 (invite_validity_window steady_env sample_opts "a@x.com"
                  world_joined entry_a_pending 10 steady_env_injective
                  (proj2 world_joined_codes_sound) eq_refl Hst)).
  exact Ht.
Defined.

Lemma world_joined_emails_unique : emails_unique world_joined.
Proof.
  unfold emails_unique. simpl. repeat constructor. simpl. tauto.
Qed.

Lemma userCreateBefore_check_witness :
  emails_unique world_joined /\
  no_account (Some "A@x.com") world_joined /\
  (outcome (beforeHook sample_env sample_opts (Some "/sign-up/email")
              (mkAttempt (Some "A@x.com") None None)) world_joined = Ok tt <->
   outcome (userCreateBefore sample_opts (mkUser (Some "A@x.com") false) true)
     world_joined = Ok true).
Proof.
  split; [exact world_joined_emails_unique|]. split; [reflexivity|].
  apply (proj2 (proj2 (userCreateBefore_check sample_env sample_opts
                         (mkUser (Some "A@x.com") false) true world_joined))
           "A@x.com" (Some "/sign-up/email")
           (mkAttempt (Some "A@x.com") None None)
           world_joined_emails_unique eq_refl eq_refl eq_refl eq_refl
           eq_refl eq_refl eq_refl eq_refl).
Defined.


(** The list names [c@x.com] twice and an unknown email: one entry is
    approved, once. *)
Example bulkApprove_list_with_repeats :
  option_map bulk_approved
    (match outcome (bulkApprove sample_env sample_opts
                      (Some ["C@x.com"; "zz@x.com"; "c@X.com"]) None)
             world_four with
     | Ok r => Some r
     | Throw _ => None
     end) = Some 1 /\
  map (fun e => (email e, status e, inviteCode e))
    (db (run (bulkApprove sample_env sample_opts
                (Some ["C@x.com"; "zz@x.com"; "c@X.com"]) None) world_four))
  = [("a@x.com", pending, None); ("b@x.com", pending, None);
     ("c@x.com", approved, Some "inv-0"); ("d@x.com", pending, None)].
Proof. split; reflexivity. Qed.

Lemma only_join_adds_entries_witness :
  (forall body, Approve "a@x.com" <> Join body) /\
  same_keys world_joined
    (run (perform sample_env sample_opts (Approve "a@x.com")) world_joined).
Proof.
  assert (H : forall body, Approve "a@x.com" <> Join body)
    by (intros body; discriminate).
  split; [exact H|].
  apply (proj1 (only_join_adds_entries sample_env sample_opts
                  (Approve "a@x.com") world_joined) H).
Defined.

Lemma approve_reject_notifications_witness :
  lookup_email (toLowerCase "A@x.com") world_joined = Some entry_a_pending /\
  status entry_a_pending <> registered /\
  events (run (approveEntry sample_env notifying_opts "A@x.com") world_joined)
  = events world_joined ++
    [InviteEmail "a@x.com" "inv-0" 61000; Approved entry_a_approved].
Proof.
  assert (Hst : status entry_a_pending <> registered) by discriminate.
  split; [reflexivity|]. split; [exact Hst|].
  apply (proj2 (proj1 (approve_reject_notifications sample_env notifying_opts
                         "A@x.com" world_joined entry_a_pending eq_refl)
                  Hst)).
Defined.

Lemma stats_follow_operations_witness :
  lookup_email (toLowerCase "a@x.com") world_joined = Some entry_a_pending /\
  status entry_a_pending <> registered /\
  count_status pending
    (run (approveEntry sample_env sample_opts "a@x.com") world_joined)
  + counts_as pending entry_a_pending
  = count_status pending world_joined + 0.
Proof.
  assert (Hst : status entry_a_pending <> registered) by discriminate.
  split; [reflexivity|]. split; [exact Hst|].
  apply (proj1 (proj2 (stats_follow_operations sample_env sample_opts pending
                         world_joined)
                  "a@x.com" entry_a_pending eq_refl) Hst).
Defined.

Lemma code_alone_does_not_create_user_witness :
  matcher invite_opts (Some "/sign-up/email") = true /\
  requireInviteCode invite_opts = true /\
  unique_invite_codes world_two /\
  In entry_a_approved (db world_two) /\
  usable_invite "inv-0" (clock sample_env (clockReads world_two))
    entry_a_approved /\
  (forall x, In x (db world_two) ->
     ~ (email x = toLowerCase "b@x.com" /\ status x = approved)) /\
  outcome (beforeHook sample_env invite_opts (Some "/sign-up/email")
             (mkAttempt (Some "b@x.com") (Some "inv-0") None)) world_two
    = Ok tt /\
  userCreateBefore invite_opts (mkUser (Some "b@x.com") false) true
    (run (beforeHook sample_env invite_opts (Some "/sign-up/email")
            (mkAttempt (Some "b@x.com") (Some "inv-0") None)) world_two)
  = (Ok false,
     run (beforeHook sample_env invite_opts (Some "/sign-up/email")
            (mkAttempt (Some "b@x.com") (Some "inv-0") None)) world_two).
Proof.
  assert (Hin : In entry_a_approved (db world_two)) by (left; reflexivity).
  assert (Husable : usable_invite "inv-0"
            (clock sample_env (clockReads world_two)) entry_a_approved).
  { repeat split. unfold not_expired. simpl. lia. }
  assert (Hnone : forall x, In x (db world_two) ->
            ~ (email x = toLowerCase "b@x.com" /\ status x = approved)).
  { intros x [<-|[<-|[]]] [H1 H2]; discriminate. }
  split; [reflexivity|]. split; [reflexivity|].
  split; [exact world_two_unique_invite_codes|].
  split; [exact Hin|]. split; [exact Husable|]. split; [exact Hnone|].
  apply (code_alone_does_not_create_user sample_env invite_opts
           (Some "/sign-up/email")
           (mkAttempt (Some "b@x.com") (Some "inv-0") None)
           (mkUser (Some "b@x.com") false) "b@x.com" "inv-0" world_two
           entry_a_approved eq_refl eq_refl eq_refl eq_refl eq_refl eq_refl
           world_two_unique_invite_codes Hin Husable Hnone).
Defined.

Lemma userCreateAfter_noop_witness :
  truthy (user_email (mkUser (Some "") false)) = None /\
  userCreateAfter sample_env sample_opts (mkUser (Some "") false) true
    world_joined = (Ok tt, world_joined).
Proof.
  split; [reflexivity|].
  apply (proj1 (userCreateAfter_noop sample_env sample_opts
                  (mkUser (Some "") false) true world_joined)).
  right. left. reflexivity.
Defined.
